(** * Polyhedral basic semialgebraic sets as linear systems

    A verification development for
    [cutgeneratingfunctionology/spam/basic_semialgebraic_linear_system.py]:
    the class [BasicSemialgebraicSet_polyhedral_linear_system], its
    constructor, [one_step_elimination], [coordinate_projection] and
    [add_polynomial_constraint].

    The coefficient field is fixed to the exact rationals (Sage's [QQ]),
    modelled by [Q] with its setoid equality [==].  A polynomial ring is
    identified with its number of generators; the generator [x_k] is the
    monomial [[k]], and a coordinate index is a position, a natural number.

    A Python [set] is modelled by the list of its elements in iteration
    order (here the order of insertion); the statements about regions
    quantify over all stores, hence over all orders.  The literal [{}] that
    the constructor assigns on collapse is an empty dict, not a set, and is
    kept apart ([PyDict]).  A method that raises returns [Err]; a method that
    mutates [self] returns the store after the call. *)

From Stdlib Require Import List Bool Arith ZArith QArith Qreduction Lia Lqa
  Permutation.
Import ListNotations.

Local Open Scope Q_scope.

(* ================================================================== *)
(** ** Polynomials *)
(* ================================================================== *)

Module Poly.

(** A monomial is the sorted list of the indices of its variables, with
    multiplicity: [[]] is [1], [[k]] is [x_k], [[0;0]] is [x_0^2]. *)
Definition monomial := list nat.

(** A polynomial is a sparse list of terms, as Sage keeps a dictionary from
    exponents to nonzero coefficients.  The operations below keep the terms
    ordered by [mono_compare], with reduced nonzero coefficients. *)
Definition term := (monomial * Q)%type.
Definition mpoly := list term.

Fixpoint mono_compare (a b : monomial) : comparison :=
  match a, b with
  | [], [] => Eq
  | [], _ :: _ => Lt
  | _ :: _, [] => Gt
  | i :: a', j :: b' =>
      match Nat.compare i j with
      | Eq => mono_compare a' b'
      | c => c
      end
  end.

Definition mono_eqb (a b : monomial) : bool :=
  match mono_compare a b with Eq => true | _ => false end.

Definition nonzero (c : Q) : bool := negb (Qeq_bool c 0).

(** [poly_ring(c)]: the constant polynomial. *)
Definition const (c : Q) : mpoly :=
  if nonzero c then [([], Qred c)] else [].

Definition zero : mpoly := [].
Definition one : mpoly := [([], 1)].

(** [poly_ring.gens()[k]] *)
Definition gen (k : nat) : mpoly := [([k], 1)].

(** Adding one term to a polynomial. *)
Fixpoint add_term (m : monomial) (c : Q) (p : mpoly) : mpoly :=
  match p with
  | [] => if nonzero c then [(m, Qred c)] else []
  | (m', c') :: p' =>
      match mono_compare m m' with
      | Eq => if nonzero (c + c') then (m', Qred (c + c')) :: p' else p'
      | Lt => if nonzero c then (m, Qred c) :: p else p
      | Gt => (m', c') :: add_term m c p'
      end
  end.

(** [p + q] *)
Definition add (p q : mpoly) : mpoly :=
  fold_right (fun t acc => add_term (fst t) (snd t) acc) q p.

(** [c * p] and [p * c] for [c] in the base ring. *)
Definition scale (c : Q) (p : mpoly) : mpoly :=
  if nonzero c then map (fun t => (fst t, Qred (c * snd t))) p else [].

(** [-p] *)
Definition neg (p : mpoly) : mpoly := scale (-1) p.

(** [p - q] *)
Definition sub (p q : mpoly) : mpoly := add p (neg q).

(** [p / c] for [c] in the base ring: multiplication by the inverse. *)
Definition div (p : mpoly) (c : Q) : mpoly := scale (/ c) p.

(** The coefficient of a monomial: on a polynomial with distinct monomials
    this is the dictionary lookup. *)
Fixpoint coeff (m : monomial) (p : mpoly) : Q :=
  match p with
  | [] => 0
  | (m', c) :: p' => (if mono_eqb m m' then c else 0) + coeff m p'
  end.

(** [p.monomial_coefficient(x_k)] *)
Definition monomial_coefficient (p : mpoly) (k : nat) : Q := coeff [k] p.

(** [p.constant_coefficient()] *)
Definition constant_coefficient (p : mpoly) : Q := coeff [] p.

(** [p.degree()]: the total degree; [-1] for the zero polynomial. *)
Fixpoint degree (p : mpoly) : Z :=
  match p with
  | [] => (-1)%Z
  | (m, _) :: p' => Z.max (Z.of_nat (length m)) (degree p')
  end.

(** [p == q] on polynomials of one ring. *)
Fixpoint eqb (p q : mpoly) : bool :=
  match p, q with
  | [], [] => true
  | (m, c) :: p', (m', c') :: q' =>
      mono_eqb m m' && Qeq_bool c c' && eqb p' q'
  | _, _ => false
  end.

(** Evaluation at an assignment of the variables. *)
Definition assignment := nat -> Q.

Fixpoint eval_mono (m : monomial) (x : assignment) : Q :=
  match m with
  | [] => 1
  | k :: m' => x k * eval_mono m' x
  end.

Fixpoint eval (p : mpoly) (x : assignment) : Q :=
  match p with
  | [] => 0
  | (m, c) :: p' => c * eval_mono m x + eval p' x
  end.

(** The image of [p] under the ring homomorphism that sends [x_i] to [0],
    [x_k] to [y_k] for [k < i] and [x_k] to [y_(k-1)] for [k > i]: the
    [polynomial_map] that [one_step_elimination] builds. *)
Definition shift_var (i k : nat) : nat := if (i <? k)%nat then pred k else k.

Definition mentions (i : nat) (m : monomial) : bool :=
  existsb (Nat.eqb i) m.

Fixpoint apply_map (i : nat) (p : mpoly) : mpoly :=
  match p with
  | [] => []
  | (m, c) :: p' =>
      if mentions i m then apply_map i p'
      else add_term (map (shift_var i) m) c (apply_map i p')
  end.

End Poly.

(* ================================================================== *)
(** ** Python values: exceptions, sets and the empty dict *)
(* ================================================================== *)

Inductive error : Type :=
| ValueError_poly_ring     (* "must specify the poly_ring" *)
| ValueError_linear        (* "only suitable for linear system." and
                              "... is not a valid linear polynomial." *)
| ValueError_proper_ring   (* "not a proper poly_ring." *)
| ValueError_elimination   (* "doesn't exist the elimination variable" *)
| ValueError_coordinate    (* "Coordinate not found in the polynomial ring" *)
| ValueError_operator      (* "... is not a supported operator" *)
| ValueError_length        (* "length of lhs_vector and ambient_dim do not match." *)
| AttributeError           (* a dict has neither [remove] nor [add] *)
| KeyError                 (* [set.remove] of an absent element *)
| ConstantInStore          (* never raised, see [ring_elements] *).

Inductive result (A : Type) : Type :=
| Ok (a : A)
| Err (e : error).
Arguments Ok {A} a.
Arguments Err {A} e.

Definition bind {A B : Type} (r : result A) (f : A -> result B) : result B :=
  match r with
  | Ok a => f a
  | Err e => Err e
  end.

Notation "x <- r ;; k" := (bind r (fun x => k))
  (at level 61, r at next level, right associativity).

(** A Python [set], in the order in which its elements are iterated; the
    elements are pairwise different for the equality test of their type. *)
Section PySet.
Context {A : Type} (eqb : A -> A -> bool).

(** [x in s] *)
Definition mem (x : A) (s : list A) : bool := existsb (eqb x) s.

(** [s.add(x)] *)
Definition set_add (x : A) (s : list A) : list A :=
  if mem x s then s else s ++ [x].

(** [set(l)] *)
Definition set_of_list (l : list A) : list A :=
  fold_left (fun s x => set_add x s) l [].

(** [s.remove(x)] *)
Definition set_remove (x : A) (s : list A) : result (list A) :=
  if mem x s then Ok (filter (fun y => negb (eqb x y)) s) else Err KeyError.
End PySet.

(** What an attribute such as [temp_eq] can hold: a set, or the empty dict
    that the literal [{}] denotes. *)
Inductive coll (A : Type) : Type :=
| PySet (s : list A)
| PyDict.
Arguments PySet {A} s.
Arguments PyDict {A}.

(** [list(c)], and the elements a [for] loop over [c] visits. *)
Definition items {A : Type} (c : coll A) : list A :=
  match c with
  | PySet s => s
  | PyDict => []
  end.

Definition coll_add {A : Type} (eqb : A -> A -> bool) (x : A) (c : coll A)
  : result (coll A) :=
  match c with
  | PySet s => Ok (PySet (set_add eqb x s))
  | PyDict => Err AttributeError
  end.

Definition coll_remove {A : Type} (eqb : A -> A -> bool) (x : A) (c : coll A)
  : result (coll A) :=
  match c with
  | PySet s => s' <- set_remove eqb x s ;; Ok (PySet s')
  | PyDict => Err AttributeError
  end.

(* ================================================================== *)
(** ** The constraint store *)
(* ================================================================== *)

Import Poly.

(** What a caller can put in the lists [eq], [lt], [le]: an element of the
    base ring, whose parent is not [poly_ring], or an element of
    [poly_ring]. *)
Inductive elem : Type :=
| Const (c : Q)
| InRing (p : mpoly).

(** [e.parent() != poly_ring] *)
Definition foreign (e : elem) : bool :=
  match e with
  | Const _ => true
  | InRing _ => false
  end.

(** [e.degree()]; a constant has degree at most 0. *)
Definition elem_degree (e : elem) : Z :=
  match e with
  | Const c => if nonzero c then 0%Z else (-1)%Z
  | InRing p => degree p
  end.

(** [poly_ring(e)]: the coercion into the polynomial ring. *)
Definition coerce (e : elem) : mpoly :=
  match e with
  | Const c => const c
  | InRing p => p
  end.

(** [e == e'], which coerces both sides to their common parent. *)
Definition elem_eqb (e e' : elem) : bool :=
  match e, e' with
  | Const c, Const c' => Qeq_bool c c'
  | _, _ => Poly.eqb (coerce e) (coerce e')
  end.

(** Whether [cm.common_parent] of [polys] is [poly_ring], for a non-empty list: the
    common parent of base-ring elements alone is the base ring. *)
Definition common_parent_is_poly_ring (polys : list elem) : bool :=
  existsb (fun e => negb (foreign e)) polys.

Record store : Type := mkStore {
  _poly_ring : nat;          (* the number of generators of [self._poly_ring] *)
  _ambient_dim : nat;
  _eq : coll mpoly;
  _lt : coll mpoly;
  _le : coll mpoly
}.

(** The three working collections of the constructor. *)
Record temps : Type := mkTemps {
  temp_eq : coll elem;
  temp_lt : coll elem;
  temp_le : coll elem
}.

(** "replace with an invalid inequality." *)
Definition collapsed : temps :=
  {| temp_le := PySet [InRing one]; temp_eq := PyDict; temp_lt := PyDict |}.

Inductive kind : Type := KEq | KLt | KLe.

(** The test of each loop on a constant: [!= 0], [>= 0], [> 0]. *)
Definition violated (k : kind) (c : Q) : bool :=
  match k with
  | KEq => negb (Qeq_bool c 0)
  | KLt => Qle_bool 0 c
  | KLe => negb (Qle_bool c 0)
  end.

Definition temp_get (k : kind) (t : temps) : coll elem :=
  match k with
  | KEq => temp_eq t
  | KLt => temp_lt t
  | KLe => temp_le t
  end.

Definition temp_set (k : kind) (c : coll elem) (t : temps) : temps :=
  match k with
  | KEq => {| temp_eq := c; temp_lt := temp_lt t; temp_le := temp_le t |}
  | KLt => {| temp_eq := temp_eq t; temp_lt := c; temp_le := temp_le t |}
  | KLe => {| temp_eq := temp_eq t; temp_lt := temp_lt t; temp_le := c |}
  end.

(** One of the three loops "remove redundent constant polynomial or check
    naive infeasibility", over the elements [it] of [set(eq)], [set(lt)]
    or [set(le)]. *)
Fixpoint constant_loop (k : kind) (it : list elem) (t : temps) : result temps :=
  match it with
  | [] => Ok t
  | e :: it' =>
      match e with
      | InRing _ => constant_loop k it' t
      | Const c =>
          if violated k c then constant_loop k it' collapsed
          else
            s <- coll_remove elem_eqb e (temp_get k t) ;;
            constant_loop k it' (temp_set k s t)
      end
  end.

(** The sets of a constructed store hold elements of [poly_ring] only
    (every base-ring constant was removed, or the collection replaced), so
    the fields of [store] are typed by [mpoly]. *)
Fixpoint ring_list (l : list elem) : result (list mpoly) :=
  match l with
  | [] => Ok []
  | InRing p :: l' => r <- ring_list l' ;; Ok (p :: r)
  | Const _ :: _ => Err ConstantInStore
  end.

Definition ring_elements (c : coll elem) : result (coll mpoly) :=
  match c with
  | PySet s => r <- ring_list s ;; Ok (PySet r)
  | PyDict => Ok PyDict
  end.

Definition is_empty {A : Type} (l : list A) : bool :=
  match l with [] => true | _ => false end.

(** [__init__(self, base_ring, ambient_dim, poly_ring, eq, lt, le)] *)
Definition __init__ (ambient_dim poly_ring : option nat) (eq lt le : list elem)
  : result store :=
  match poly_ring with
  | None => Err ValueError_poly_ring
  | Some n =>
      let polys := eq ++ lt ++ le in
      if existsb (fun e => (1 <? elem_degree e)%Z) polys then Err ValueError_linear
      else if negb (is_empty polys) && negb (common_parent_is_poly_ring polys)
      then Err ValueError_proper_ring
      else
        let dim := match ambient_dim with Some d => d | None => n end in
        let t0 := {| temp_eq := PySet (set_of_list elem_eqb eq);
                     temp_lt := PySet (set_of_list elem_eqb lt);
                     temp_le := PySet (set_of_list elem_eqb le) |} in
        t1 <- constant_loop KEq (set_of_list elem_eqb eq) t0 ;;
        t2 <- constant_loop KLt (set_of_list elem_eqb lt) t1 ;;
        t3 <- constant_loop KLe (set_of_list elem_eqb le) t2 ;;
        s_eq <- ring_elements (temp_eq t3) ;;
        s_lt <- ring_elements (temp_lt t3) ;;
        s_le <- ring_elements (temp_le t3) ;;
        Ok {| _poly_ring := n; _ambient_dim := dim;
              _eq := s_eq; _lt := s_lt; _le := s_le |}
  end.

(** *** Single-variable elimination *)

Definition Qlt_bool (a b : Q) : bool := negb (Qle_bool b a).

(** "try to find a substitution of coordinate in equalities": the first
    equality, in iteration order, with a nonzero coefficient gives
    [coordinate - e/e.monomial_coefficient(coordinate)]. *)
Fixpoint find_sub (i : nat) (eqs : list mpoly) : option mpoly :=
  match eqs with
  | [] => None
  | e :: eqs' =>
      if nonzero (monomial_coefficient e i)
      then Some (sub (gen i) (div e (monomial_coefficient e i)))
      else find_sub i eqs'
  end.

Definition upper (i : nat) (l : list mpoly) : list mpoly :=
  filter (fun p => Qlt_bool 0 (monomial_coefficient p i)) l.

Definition lower (i : nat) (l : list mpoly) : list mpoly :=
  filter (fun p => negb (Qlt_bool 0 (monomial_coefficient p i))
                   && Qlt_bool (monomial_coefficient p i) 0) l.

Definition carried (i : nat) (l : list mpoly) : list mpoly :=
  filter (fun p => negb (Qlt_bool 0 (monomial_coefficient p i))
                   && negb (Qlt_bool (monomial_coefficient p i) 0)) l.

(** [l*u.monomial_coefficient(coordinate)-(u*l.monomial_coefficient(coordinate))] *)
Definition combine (i : nat) (l u : mpoly) : mpoly :=
  sub (scale (monomial_coefficient u i) l) (scale (monomial_coefficient l i) u).

(** [for l in lowers: for u in uppers: ... append] *)
Definition combinations (i : nat) (lowers uppers : list mpoly) : list mpoly :=
  flat_map (fun l => map (fun u => combine i l u) uppers) lowers.

(** [p+p.monomial_coefficient(coordinate)*(sub-coordinate)] *)
Definition substitute (i : nat) (s p : mpoly) : mpoly :=
  add p (scale (monomial_coefficient p i) (sub s (gen i))).

(** The lists [new_eq], [new_lt], [new_le] of [one_step_elimination]. *)
Definition new_constraints (self : store) (i : nat)
  : list mpoly * list mpoly * list mpoly :=
  match find_sub i (items (_eq self)) with
  | None =>
      let lt_upper := upper i (items (_lt self)) in
      let lt_lower := lower i (items (_lt self)) in
      let le_upper := upper i (items (_le self)) in
      let le_lower := lower i (items (_le self)) in
      (items (_eq self),
       carried i (items (_lt self))
         ++ combinations i le_lower lt_upper
         ++ combinations i lt_lower le_upper
         ++ combinations i lt_lower lt_upper,
       carried i (items (_le self))
         ++ combinations i le_lower le_upper)
  | Some s =>
      (map (substitute i s) (items (_eq self)),
       map (substitute i s) (items (_lt self)),
       map (substitute i s) (items (_le self)))
  end.

(** Modelled from the spec: [section], a method of the base class
    [BasicSemialgebraicSet_base] whose file is not part of this module.
    Called as [bsa.section(polynomial_map, bsa_class, poly_ring=new_poly_ring)]
    it constructs the store over the ring with the variable removed, "normalizing
    as in 4.1": the constructor applied to the images of the constraints of
    [bsa] under [polynomial_map]. *)
Definition section (bsa : store) (i : nat) (new_poly_ring : nat) : result store :=
  __init__ None (Some new_poly_ring)
    (map (fun p => InRing (apply_map i p)) (items (_eq bsa)))
    (map (fun p => InRing (apply_map i p)) (items (_lt bsa)))
    (map (fun p => InRing (apply_map i p)) (items (_le bsa))).

(** [one_step_elimination(self, coordinate_index)] *)
Definition one_step_elimination (self : store) (coordinate_index : nat)
  : result store :=
  if (_poly_ring self <=? coordinate_index)%nat then Err ValueError_elimination
  else
    let '(new_eq, new_lt, new_le) := new_constraints self coordinate_index in
    bsa <- __init__ (Some (_ambient_dim self)) (Some (_poly_ring self))
             (map InRing new_eq) (map InRing new_lt) (map InRing new_le) ;;
    section bsa coordinate_index (pred (_poly_ring self)).

(** *** The projection driver *)

(** "update indices": [if elimination_positions[j]>coordinate_index:
    elimination_positions[j]-=1] for the positions not yet processed. *)
Definition update_indices (coordinate_index : nat) (rest : list nat) : list nat :=
  map (fun p => if (coordinate_index <? p)%nat then (p - 1)%nat else p) rest.

(** The loop [for i in range(len(elimination_positions))]; [steps] counts the
    iterations that remain. *)
Fixpoint projection_loop (steps : nat) (res : store) (elimination_positions : list nat)
  : result store :=
  match steps, elimination_positions with
  | S steps', coordinate_index :: rest =>
      res' <- one_step_elimination res coordinate_index ;;
      projection_loop steps' res' (update_indices coordinate_index rest)
  | _, _ => Ok res
  end.

(** [coordinate_projection(self, coordinates)]; a coordinate is a generator
    [x_c] of some ring, given by its index [c], and belongs to
    [self._poly_ring.gens()] when [c] is less than the number of generators. *)
Definition coordinate_projection (self : store) (coordinates : list nat)
  : result store :=
  if forallb (fun c => (c <? _poly_ring self)%nat) coordinates
  then projection_loop (length coordinates) self coordinates
  else Err ValueError_coordinate.

(** *** Adding constraints *)

Inductive operator : Type :=
| op_lt | op_gt | op_eq | op_le | op_ge
| op_other.   (* any other object, such as [operator.ne] *)

(** [add_polynomial_constraint(self, lhs, op)]: the store after the call. *)
Definition add_polynomial_constraint (self : store) (lhs : elem) (op : operator)
  : result store :=
  (* [lhs = self._poly_ring(lhs)] when the parent of [lhs] differs *)
  let lhs := coerce lhs in
  if (1 <? degree lhs)%Z then Err ValueError_linear
  else
    match op with
    | op_lt =>
        c <- coll_add Poly.eqb lhs (_lt self) ;;
        Ok (mkStore (_poly_ring self) (_ambient_dim self) (_eq self) c (_le self))
    | op_gt =>
        c <- coll_add Poly.eqb (neg lhs) (_lt self) ;;
        Ok (mkStore (_poly_ring self) (_ambient_dim self) (_eq self) c (_le self))
    | op_eq =>
        c <- coll_add Poly.eqb lhs (_eq self) ;;
        Ok (mkStore (_poly_ring self) (_ambient_dim self) c (_lt self) (_le self))
    | op_le =>
        c <- coll_add Poly.eqb lhs (_le self) ;;
        Ok (mkStore (_poly_ring self) (_ambient_dim self) (_eq self) (_lt self) c)
    | op_ge =>
        c <- coll_add Poly.eqb (neg lhs) (_le self) ;;
        Ok (mkStore (_poly_ring self) (_ambient_dim self) (_eq self) (_lt self) c)
    | op_other => Err ValueError_operator
    end.

(** [sum(lhs_vector[i]*gens[i] for i in range(len(lhs_vector)))+cst] *)
Fixpoint linear_form (i : nat) (lhs_vector : list Q) : mpoly :=
  match lhs_vector with
  | [] => zero
  | a :: v => add (scale a (gen i)) (linear_form (S i) v)
  end.

(** [add_linear_constraint(self, lhs_vector, cst, op)] *)
Definition add_linear_constraint (self : store) (lhs_vector : list Q) (cst : Q)
  (op : operator) : result store :=
  if negb (length lhs_vector =? _ambient_dim self)%nat then Err ValueError_length
  else add_polynomial_constraint self
         (InRing (add (linear_form 0 lhs_vector) (const cst))) op.

(* ================================================================== *)
(** ** The region a store represents *)
(* ================================================================== *)

(** [x] satisfies every equality [f = 0], strict inequality [f < 0] and
    non-strict inequality [f <= 0] of the store. *)
Definition sat (s : store) (x : assignment) : Prop :=
  Forall (fun p => eval p x == 0) (items (_eq s)) /\
  Forall (fun p => eval p x < 0) (items (_lt s)) /\
  Forall (fun p => eval p x <= 0) (items (_le s)).

(** The assignment to all variables that gives the value [v] to the variable
    of index [i] and follows [x] on the others, in their order. *)
Definition extend (i : nat) (v : Q) (x : assignment) : assignment :=
  fun k => if (k <? i)%nat then x k else if (k =? i)%nat then v else x (pred k).

Abbreviation linear_list := (Forall (fun p => (degree p <= 1)%Z)).

(** Every stored polynomial passed the degree check. *)
Definition linear_store (s : store) : Prop :=
  Forall (fun p => (degree p <= 1)%Z)
         (items (_eq s) ++ items (_lt s) ++ items (_le s)).

(** What the two constructor calls of [one_step_elimination] leave of a list
    of new constraints: the set of the list, mapped into the smaller ring,
    as a set again. *)
Definition reduced (i : nat) (l : list mpoly) : list mpoly :=
  set_of_list Poly.eqb (map (apply_map i) (set_of_list Poly.eqb l)).

(** The store that the constructor returns after "replace with an invalid
    inequality": the canonical unsatisfiable representation [1 <= 0]. *)
Definition collapsed_store (n dim : nat) : store :=
  {| _poly_ring := n; _ambient_dim := dim;
     _eq := PyDict; _lt := PyDict; _le := PySet [one] |}.

(** [ambient_dim], or [poly_ring.ngens()] when it is [None]. *)
Definition dim_of (ambient_dim : option nat) (n : nat) : nat :=
  match ambient_dim with Some d => d | None => n end.

(** The constants that a loop of the constructor visits are all satisfied. *)
Definition all_satisfied (k : kind) (l : list elem) : Prop :=
  forall c, In (Const c) (set_of_list elem_eqb l) -> violated k c = false.

(** The stores that a sequence of [add_*] calls and elimination steps leads
    to; a call that raises leaves the store as it was. *)
Inductive reach (s0 : store) : store -> Prop :=
| reach_start : reach s0 s0
| reach_add_polynomial (s s' : store) (lhs : elem) (op : operator) :
    reach s0 s -> add_polynomial_constraint s lhs op = Ok s' -> reach s0 s'
| reach_add_linear (s s' : store) (v : list Q) (cst : Q) (op : operator) :
    reach s0 s -> add_linear_constraint s v cst op = Ok s' -> reach s0 s'
| reach_eliminate (s s' : store) (i : nat) :
    reach s0 s -> one_step_elimination s i = Ok s' -> reach s0 s'.

(** A store over [x0, x1, x2] with [x0 - 1 < 0], [x0 + x1 - x2 <= 0] and
    [-x0 <= 0]. *)
Definition example_store : store :=
  {| _poly_ring := 3; _ambient_dim := 3;
     _eq := PySet [];
     _lt := PySet [sub (gen 0) (const 1)];
     _le := PySet [sub (add (gen 0) (gen 1)) (gen 2); neg (gen 0)] |}.

(** The three buckets of the Fourier-Motzkin branch, by the sign of the
    coefficient of the eliminated variable. *)
Definition is_lower (i : nat) (l : list mpoly) (p : mpoly) : Prop :=
  In p l /\ monomial_coefficient p i < 0.

Definition is_upper (i : nat) (l : list mpoly) (p : mpoly) : Prop :=
  In p l /\ 0 < monomial_coefficient p i.

Definition is_free (i : nat) (l : list mpoly) (p : mpoly) : Prop :=
  In p l /\ monomial_coefficient p i == 0.

(** Where the result [r] of a Fourier-Motzkin step on [s] holds the
    constraints: combinations with a strict side and strict inequalities
    without the variable in the strict set, combinations of two non-strict
    inequalities and non-strict inequalities without the variable in the
    non-strict set, the equalities in the equality set, and nothing else in
    the two inequality sets.  [apply_map i p] is [p] in the ring without
    the variable. *)
Definition strictness_placement (s r : store) (i : nat) : Prop :=
  let lts := items (_lt s) in
  let les := items (_le s) in
  let mixed l u :=
    (is_lower i les l /\ is_upper i lts u) \/
    (is_lower i lts l /\ is_upper i les u) \/
    (is_lower i lts l /\ is_upper i lts u) in
  (forall l u, mixed l u ->
     mem Poly.eqb (apply_map i (combine i l u)) (items (_lt r)) = true) /\
  (forall l u, is_lower i les l -> is_upper i les u ->
     mem Poly.eqb (apply_map i (combine i l u)) (items (_le r)) = true) /\
  (forall p, is_free i lts p -> mem Poly.eqb (apply_map i p) (items (_lt r)) = true) /\
  (forall p, is_free i les p -> mem Poly.eqb (apply_map i p) (items (_le r)) = true) /\
  (forall p, In p (items (_eq s)) ->
     mem Poly.eqb (apply_map i p) (items (_eq r)) = true) /\
  (forall q, In q (items (_lt r)) ->
     exists p, q = apply_map i p /\
       (is_free i lts p \/ exists l u, p = combine i l u /\ mixed l u)) /\
  (forall q, In q (items (_le r)) ->
     exists p, q = apply_map i p /\
       (is_free i les p \/
        exists l u, p = combine i l u /\ is_lower i les l /\ is_upper i les u)).

(** The "one dimensional relu formulation" of the class docstring, over
    [x0, x1, x, y, z], with the parameters at their values [L = -2], [U = 2],
    [W = 1], [b = 1/2]. *)
Definition linear_combination (terms : list (Q * nat)) (cst : Q) : mpoly :=
  fold_right (fun t acc => add (scale (fst t) (gen (snd t))) acc) (const cst) terms.

Definition relu_le : list elem :=
  let L := -2 in let U := 2 in let W := 1 in let b := 1 # 2 in
  let x0 := 0%nat in let x1 := 1%nat in let x := 2%nat in
  let y := 3%nat in let z := 4%nat in
  map InRing
    [ linear_combination [(1, x0); (1, x1); (-1, x)] 0;
      linear_combination [(-1, x0); (-1, x1); (1, x)] 0;
      linear_combination [(-1, y)] 0;
      linear_combination [(W, x0); (- b, z)] b;
      linear_combination [(W, x1); (-1, y); (b, z)] 0;
      linear_combination [(- W, x1); (1, y); (- b, z)] 0;
      linear_combination [(1, x0); (U, z)] (- U);
      linear_combination [(-1, x0); (- L, z)] L;
      linear_combination [(1, x1); (- U, z)] 0;
      linear_combination [(-1, x1); (L, z)] 0 ].

(** *** Eliminating variables by name *)

(** The position of the name [c] in the list of the names of a ring. *)
Fixpoint index_of (c : nat) (names : list nat) : option nat :=
  match names with
  | [] => None
  | a :: names' =>
      if (a =? c)%nat then Some 0%nat else option_map S (index_of c names')
  end.

Fixpoint remove_nth {A : Type} (k : nat) (l : list A) : list A :=
  match l, k with
  | [], _ => []
  | _ :: l', O => l'
  | a :: l', S k' => a :: remove_nth k' l'
  end.

(** The sequential composition of [one_step_elimination] over the named
    variables, in the given order: each variable is looked up by name in the
    ring of the current store, whose generators are [names]. *)
Fixpoint eliminate_by_name (res : store) (names coordinates : list nat)
  : result store :=
  match coordinates with
  | [] => Ok res
  | c :: rest =>
      match index_of c names with
      | None => Err ValueError_coordinate
      | Some k =>
          res' <- one_step_elimination res k ;;
          eliminate_by_name res' (remove_nth k names) rest
      end
  end.

(** The position in the larger ring of the variable at position [k] of the
    ring without the variable [i]. *)
Definition skip (i k : nat) : nat := if (k <? i)%nat then k else S k.

(** The position in the original ring of the variable at position [k] of the
    ring that the driver's loop ends with. *)
Fixpoint renaming (steps : nat) (elimination_positions : list nat) (k : nat) : nat :=
  match steps, elimination_positions with
  | S steps', coordinate_index :: rest =>
      skip coordinate_index
           (renaming steps' (update_indices coordinate_index rest) k)
  | _, _ => k
  end.

(* ================================================================== *)
(** ** The remaining methods: accessors and the polyhedron bridge *)
(* ================================================================== *)

(** [poly_ring(self)], [eq_poly(self)], [lt_poly(self)], [le_poly(self)] *)
Definition poly_ring (self : store) : nat := _poly_ring self.
Definition eq_poly (self : store) : coll mpoly := _eq self.
Definition lt_poly (self : store) : coll mpoly := _lt self.
Definition le_poly (self : store) : coll mpoly := _le self.

(** [[p.constant_coefficient()] + [p.monomial_coefficient(v) for v in
    self.poly_ring().gens()]] *)
Definition coefficient_row (n : nat) (p : mpoly) : list Q :=
  constant_coefficient p :: map (monomial_coefficient p) (seq 0 n).

(** What [to_polyhedron] does: it raises the ValueError "Contain strict
    inequalities.", or calls Sage's [Polyhedron] with the lists [ieqs] and
    [eqns]. *)
Inductive polyhedron_call : Type :=
| ValueError_strict
| Polyhedron (ieqs eqns : list (list Q)).

(** [to_polyhedron(self)] *)
Definition to_polyhedron (self : store) : polyhedron_call :=
  if (0 <? length (items (_lt self)))%nat then ValueError_strict
  else
    Polyhedron
      (map (fun le => map Qopp (coefficient_row (poly_ring self) le))
           (items (_le self)))
      (map (fun eq => coefficient_row (poly_ring self) eq) (items (_eq self))).

(** Sage's convention for the rows of [ieqs] and [eqns]: the row
    [[b, a1, ..., an]] stands for [b + a1*x1 + ... + an*xn >= 0], or [= 0]. *)
Fixpoint dot (a : list Q) (i : nat) (x : assignment) : Q :=
  match a with
  | [] => 0
  | c :: a' => c * x i + dot a' (S i) x
  end.

Definition row_value (r : list Q) (x : assignment) : Q :=
  match r with
  | [] => 0
  | b :: a => b + dot a 0 x
  end.

Definition in_polyhedron (ieqs eqns : list (list Q)) (x : assignment) : Prop :=
  Forall (fun r => 0 <= row_value r x) ieqs /\
  Forall (fun r => row_value r x == 0) eqns.

(** A Sage polyhedron, as far as [from_polyhedron_to_linear_system] reads
    it: [p.ambient_dim()] and [p.inequalities_list()], each inequality
    [lhs] given by [lhs[0]] and [lhs[1:]]. *)
Record polyhedron : Type := mkPolyhedron {
  P_ambient_dim : nat;
  P_inequalities_list : list (Q * list Q)
}.

(** [for lhs in p.inequalities_list():
       bsa.add_linear_constraint(lhs[1:],lhs[0],operator.ge)] *)
Fixpoint add_inequalities (bsa : store) (rows : list (Q * list Q)) : result store :=
  match rows with
  | [] => Ok bsa
  | lhs :: rows' =>
      bsa' <- add_linear_constraint bsa (snd lhs) (fst lhs) op_ge ;;
      add_inequalities bsa' rows'
  end.

(** [from_polyhedron_to_linear_system(p, poly_ring)]; without a [poly_ring]
    the ring has [p.ambient_dim()] generators. *)
Definition from_polyhedron_to_linear_system (p : polyhedron) (poly_ring : option nat)
  : result store :=
  let poly_ring :=
    match poly_ring with
    | None => P_ambient_dim p
    | Some n => n
    end in
  bsa <- __init__ None (Some poly_ring) [] [] [] ;;
  add_inequalities bsa (P_inequalities_list p).

(** *** Notions used in the statements about these methods *)

(** The constraint [v = 0], [v < 0] or [v <= 0] on a value. *)
Definition holds (k : kind) (v : Q) : Prop :=
  match k with
  | KEq => v == 0
  | KLt => v < 0
  | KLe => v <= 0
  end.

(** The value at [x] of an element given to the constructor. *)
Definition elem_value (e : elem) (x : assignment) : Q := eval (coerce e) x.

(** The constraint [lhs op 0] that [add_polynomial_constraint] is asked for. *)
Definition op_holds (op : operator) (v : Q) : Prop :=
  match op with
  | op_lt => v < 0
  | op_gt => 0 < v
  | op_eq => v == 0
  | op_le => v <= 0
  | op_ge => 0 <= v
  | op_other => False
  end.


(** A polynomial of the ring with [n] generators mentions them only. *)
Definition in_ring (n : nat) (p : mpoly) : Prop :=
  Forall (fun t => Forall (fun k => (k < n)%nat) (fst t)) p.

Definition ring_store (s : store) : Prop :=
  Forall (in_ring (_poly_ring s))
         (items (_eq s) ++ items (_lt s) ++ items (_le s)).

(** The stores that [from_polyhedron_to_linear_system] goes through: over
    [n] generators, with non-strict inequalities only. *)
Definition inequality_store (n : nat) (s : store) : Prop :=
  _poly_ring s = n /\ _ambient_dim s = n /\
  _eq s = PySet [] /\ _lt s = PySet [] /\ (exists l, _le s = PySet l) /\
  linear_store s /\ ring_store s.

(** The inequalities of a polyhedron as rows [[lhs[0], lhs[1], ...]]. *)
Definition rows_of (p : polyhedron) : list (list Q) :=
  map (fun lhs => fst lhs :: snd lhs) (P_inequalities_list p).

(** The ring that [from_polyhedron_to_linear_system] builds the store over. *)
Definition ring_of (p : polyhedron) (poly_ring : option nat) : nat :=
  match poly_ring with
  | None => P_ambient_dim p
  | Some n => n
  end.

(* ================================================================== *)
(** ** Properties of the polynomial operations *)
(* ================================================================== *)

Module PolyFacts.

Lemma mono_compare_eq (a b : monomial) : mono_compare a b = Eq <-> a = b.
Proof.
  revert b; induction a as [|i a IH]; intros [|j b]; simpl;
    try (split; [reflexivity || discriminate | reflexivity || discriminate]).
  destruct (Nat.compare i j) eqn:E.
  - apply Nat.compare_eq_iff in E; subst j. rewrite IH.
    split; [intros ->; reflexivity | intros H; injection H; auto].
  - split; [discriminate|]. intros H; injection H as -> _.
    rewrite Nat.compare_refl in E; discriminate.
  - split; [discriminate|]. intros H; injection H as -> _.
    rewrite Nat.compare_refl in E; discriminate.
Qed.

Lemma mono_eqb_eq (a b : monomial) : mono_eqb a b = true <-> a = b.
Proof.
  unfold mono_eqb. rewrite <- mono_compare_eq.
  destruct (mono_compare a b); split; congruence.
Qed.

Lemma mono_eqb_refl (a : monomial) : mono_eqb a a = true.
Proof. apply mono_eqb_eq; reflexivity. Qed.

Lemma nonzero_false (c : Q) : nonzero c = false -> c == 0.
Proof.
  unfold nonzero. intros H. apply negb_false_iff in H.
  apply Qeq_bool_iff; exact H.
Qed.

Lemma nonzero_true (c : Q) : nonzero c = true -> ~ c == 0.
Proof.
  unfold nonzero. intros H E. apply Qeq_bool_iff in E.
  rewrite E in H; discriminate.
Qed.

Lemma eval_add_term (m : monomial) (c : Q) (p : mpoly) (x : assignment) :
  eval (add_term m c p) x == c * eval_mono m x + eval p x.
Proof.
  induction p as [|[m' c'] p IH]; cbn [add_term eval].
  - destruct (nonzero c) eqn:E; cbn [eval].
    + rewrite Qred_correct; ring.
    + rewrite (nonzero_false _ E); ring.
  - destruct (mono_compare m m') eqn:C.
    + apply mono_compare_eq in C; subst m'.
      destruct (nonzero (c + c')) eqn:E; cbn [eval].
      * rewrite Qred_correct; ring.
      * apply nonzero_false in E.
        setoid_replace (c * eval_mono m x + (c' * eval_mono m x + eval p x))
          with ((c + c') * eval_mono m x + eval p x) by ring.
        rewrite E; ring.
    + destruct (nonzero c) eqn:E; cbn [eval].
      * rewrite Qred_correct; ring.
      * rewrite (nonzero_false _ E); ring.
    + cbn [eval]. rewrite IH; ring.
Qed.

Lemma eval_add (p q : mpoly) (x : assignment) :
  eval (add p q) x == eval p x + eval q x.
Proof.
  unfold add. induction p as [|[m c] p IH]; cbn [fold_right eval fst snd].
  - ring.
  - rewrite eval_add_term, IH; ring.
Qed.

Lemma eval_scale (c : Q) (p : mpoly) (x : assignment) :
  eval (scale c p) x == c * eval p x.
Proof.
  unfold scale. destruct (nonzero c) eqn:E.
  - induction p as [|[m c'] p IH]; cbn [map eval fst snd].
    + ring.
    + rewrite Qred_correct, IH; ring.
  - rewrite (nonzero_false _ E); cbn [eval]; ring.
Qed.

Lemma eval_neg (p : mpoly) (x : assignment) : eval (neg p) x == - eval p x.
Proof. unfold neg. rewrite eval_scale; ring. Qed.

Lemma eval_sub (p q : mpoly) (x : assignment) :
  eval (sub p q) x == eval p x - eval q x.
Proof. unfold sub. rewrite eval_add, eval_neg; ring. Qed.

Lemma eval_div (p : mpoly) (c : Q) (x : assignment) :
  eval (div p c) x == / c * eval p x.
Proof. unfold div. apply eval_scale. Qed.

Lemma eval_gen (k : nat) (x : assignment) : eval (gen k) x == x k.
Proof. cbn [gen eval eval_mono]; ring. Qed.

Lemma eval_const (c : Q) (x : assignment) : eval (const c) x == c.
Proof.
  unfold const. destruct (nonzero c) eqn:E; cbn [eval eval_mono].
  - rewrite Qred_correct; ring.
  - rewrite (nonzero_false _ E); ring.
Qed.

Lemma eval_one (x : assignment) : eval one x == 1.
Proof. cbn [one eval eval_mono]; ring. Qed.

(** Equal polynomials take equal values. *)
Lemma eqb_eval (p q : mpoly) (x : assignment) :
  Poly.eqb p q = true -> eval p x == eval q x.
Proof.
  revert q; induction p as [|[m c] p IH]; intros [|[m' c'] q]; cbn [Poly.eqb eval];
    try discriminate; try reflexivity.
  intros H. apply andb_true_iff in H as [H Hq].
  apply andb_true_iff in H as [Hm Hc].
  apply mono_eqb_eq in Hm; subst m'. apply Qeq_bool_iff in Hc.
  rewrite Hc, (IH q Hq); reflexivity.
Qed.

Lemma eqb_refl (p : mpoly) : Poly.eqb p p = true.
Proof.
  induction p as [|[m c] p IH]; cbn [Poly.eqb]; [reflexivity|].
  rewrite mono_eqb_refl, IH, Qeq_bool_refl; reflexivity.
Qed.

Lemma Qeq_bool_sym (c d : Q) : Qeq_bool c d = Qeq_bool d c.
Proof.
  destruct (Qeq_bool c d) eqn:E.
  - symmetry. apply Qeq_bool_iff. symmetry. apply Qeq_bool_iff; exact E.
  - destruct (Qeq_bool d c) eqn:E'; [|reflexivity].
    apply Qeq_bool_iff in E'. symmetry in E'. apply Qeq_bool_iff in E'.
    congruence.
Qed.

Lemma mono_eqb_sym (a b : monomial) : mono_eqb a b = mono_eqb b a.
Proof.
  destruct (mono_eqb a b) eqn:E.
  - apply mono_eqb_eq in E; subst; symmetry; apply mono_eqb_refl.
  - destruct (mono_eqb b a) eqn:E'; [|reflexivity].
    apply mono_eqb_eq in E'; subst. rewrite mono_eqb_refl in E; discriminate.
Qed.

Lemma eqb_sym (p q : mpoly) : Poly.eqb p q = Poly.eqb q p.
Proof.
  revert q; induction p as [|[m c] p IH]; intros [|[m' c'] q]; cbn [Poly.eqb];
    try reflexivity.
  rewrite IH, (mono_eqb_sym m m'), (Qeq_bool_sym c c'); reflexivity.
Qed.

Lemma eqb_trans (p q r : mpoly) :
  Poly.eqb p q = true -> Poly.eqb q r = true -> Poly.eqb p r = true.
Proof.
  revert q r; induction p as [|[m c] p IH]; intros [|[m' c'] q] [|[m'' c''] r];
    cbn [Poly.eqb]; try discriminate; try reflexivity.
  intros H1 H2.
  apply andb_true_iff in H1 as [H1 Hq]. apply andb_true_iff in H1 as [Hm Hc].
  apply andb_true_iff in H2 as [H2 Hr]. apply andb_true_iff in H2 as [Hm' Hc'].
  apply mono_eqb_eq in Hm, Hm'; subst.
  rewrite mono_eqb_refl, (IH q r Hq Hr).
  rewrite andb_true_r. cbn [andb]. apply Qeq_bool_iff.
  apply Qeq_bool_iff in Hc, Hc'. rewrite Hc; exact Hc'.
Qed.

End PolyFacts.

(** Polynomials of degree at most one, the homomorphism of the elimination
    and the value given to the eliminated variable. *)
Module LinearFacts.
Import PolyFacts.

Lemma degree_lower (p : mpoly) : (-1 <= degree p)%Z.
Proof. induction p as [|[m c] p IH]; cbn [degree]; lia. Qed.

Lemma degree_add_term (m : monomial) (c : Q) (p : mpoly) :
  (degree (add_term m c p) <= Z.max (Z.of_nat (length m)) (degree p))%Z.
Proof.
  induction p as [|[m' c'] p IH]; cbn [add_term].
  - destruct (nonzero c); cbn [degree]; lia.
  - destruct (mono_compare m m') eqn:C.
    + destruct (nonzero (c + c')); cbn [degree]; lia.
    + destruct (nonzero c); cbn [degree]; lia.
    + cbn [degree]. lia.
Qed.

Lemma degree_add (p q : mpoly) :
  (degree (add p q) <= Z.max (degree p) (degree q))%Z.
Proof.
  unfold add. induction p as [|[m c] p IH]; cbn [fold_right degree fst snd].
  - pose proof (degree_lower q); lia.
  - etransitivity; [apply degree_add_term|]. lia.
Qed.

Lemma degree_scale (c : Q) (p : mpoly) : (degree (scale c p) <= degree p)%Z.
Proof.
  unfold scale. destruct (nonzero c).
  - induction p as [|[m c'] p IH]; cbn [map degree fst]; lia.
  - cbn [degree]. apply degree_lower.
Qed.

Lemma degree_sub (p q : mpoly) :
  (degree (sub p q) <= Z.max (degree p) (degree q))%Z.
Proof.
  unfold sub, neg. etransitivity; [apply degree_add|].
  pose proof (degree_scale (-1) q); lia.
Qed.

Lemma degree_apply_map (i : nat) (p : mpoly) :
  (degree (apply_map i p) <= degree p)%Z.
Proof.
  induction p as [|[m c] p IH]; cbn [apply_map degree]; [lia|].
  destruct (mentions i m); [lia|].
  etransitivity; [apply degree_add_term|]. rewrite length_map. lia.
Qed.

Lemma degree_combine (i : nat) (l u : mpoly) :
  (degree l <= 1)%Z -> (degree u <= 1)%Z -> (degree (combine i l u) <= 1)%Z.
Proof.
  intros Hl Hu. unfold combine. etransitivity; [apply degree_sub|].
  pose proof (degree_scale (monomial_coefficient u i) l).
  pose proof (degree_scale (monomial_coefficient l i) u). lia.
Qed.

Lemma degree_substitute (i : nat) (s p : mpoly) :
  (degree s <= 1)%Z -> (degree p <= 1)%Z -> (degree (substitute i s p) <= 1)%Z.
Proof.
  intros Hs Hp. unfold substitute. etransitivity; [apply degree_add|].
  pose proof (degree_scale (monomial_coefficient p i) (sub s (gen i))).
  pose proof (degree_sub s (gen i)). cbn [gen degree length] in *. lia.
Qed.

Lemma degree_find_sub (i : nat) (eqs : list mpoly) (s : mpoly) :
  Forall (fun p => (degree p <= 1)%Z) eqs ->
  find_sub i eqs = Some s -> (degree s <= 1)%Z.
Proof.
  induction 1 as [|e eqs He _ IH]; cbn [find_sub]; [discriminate|].
  destruct (nonzero (monomial_coefficient e i)); [|exact IH].
  intros E.
  assert (Hs : s = sub (gen i) (div e (monomial_coefficient e i))) by congruence.
  rewrite Hs. etransitivity; [apply degree_sub|].
  pose proof (degree_scale (/ monomial_coefficient e i) e).
  unfold div. cbn [gen degree length]. lia.
Qed.

Lemma extend_at (i : nat) (v : Q) (x : assignment) : extend i v x i = v.
Proof. unfold extend. rewrite Nat.ltb_irrefl, Nat.eqb_refl. reflexivity. Qed.

Lemma extend_other (i : nat) (v w : Q) (x : assignment) (k : nat) :
  k <> i -> extend i v x k = extend i w x k.
Proof.
  intros H. unfold extend. destruct (k <? i)%nat; [reflexivity|].
  destruct (Nat.eqb_spec k i); [contradiction|reflexivity].
Qed.

Lemma extend_shift (i : nat) (v : Q) (x : assignment) (k : nat) :
  k <> i -> extend i v x k = x (shift_var i k).
Proof.
  intros H. unfold extend, shift_var.
  destruct (Nat.ltb_spec k i), (Nat.ltb_spec i k), (Nat.eqb_spec k i);
    try reflexivity; lia.
Qed.

Lemma eval_mono_mentions (i : nat) (m : monomial) (x : assignment) :
  mentions i m = true -> eval_mono m (extend i 0 x) == 0.
Proof.
  unfold mentions. induction m as [|k m IH]; cbn [existsb eval_mono]; [discriminate|].
  intros H. apply orb_true_iff in H as [H|H].
  - apply Nat.eqb_eq in H; subst k. rewrite extend_at. ring.
  - rewrite (IH H). ring.
Qed.

Lemma eval_mono_shift (i : nat) (v : Q) (m : monomial) (x : assignment) :
  mentions i m = false ->
  eval_mono (map (shift_var i) m) x == eval_mono m (extend i v x).
Proof.
  unfold mentions. induction m as [|k m IH]; cbn [existsb map eval_mono]; [reflexivity|].
  intros H. apply orb_false_iff in H as [H1 H2]. apply Nat.eqb_neq in H1.
  rewrite (IH H2), (extend_shift i v x k) by congruence. reflexivity.
Qed.

(** The homomorphism evaluates the polynomial with the eliminated variable
    set to zero. *)
Lemma eval_apply_map (i : nat) (p : mpoly) (x : assignment) :
  eval (apply_map i p) x == eval p (extend i 0 x).
Proof.
  induction p as [|[m c] p IH]; cbn [apply_map eval]; [reflexivity|].
  destruct (mentions i m) eqn:E.
  - rewrite IH, (eval_mono_mentions i m x E). ring.
  - rewrite eval_add_term, IH, (eval_mono_shift i 0 m x E). reflexivity.
Qed.

(** A polynomial of degree at most one is affine in each variable. *)
Lemma eval_extend (i : nat) (v : Q) (p : mpoly) (x : assignment) :
  (degree p <= 1)%Z ->
  eval p (extend i v x) == eval p (extend i 0 x) + monomial_coefficient p i * v.
Proof.
  unfold monomial_coefficient.
  induction p as [|[m c] p IH]; cbn [degree eval coeff]; intros H.
  - ring.
  - rewrite IH by lia.
    destruct m as [|k [|k' m]]; cbn [length] in H; [| |lia].
    + cbn [eval_mono]. unfold mono_eqb; cbn [mono_compare]. ring.
    + cbn [eval_mono]. destruct (Nat.eq_dec k i) as [->|N].
      * rewrite mono_eqb_refl, !extend_at. ring.
      * rewrite (extend_other i v 0 x k N).
        destruct (mono_eqb [i] [k]) eqn:E.
        -- apply mono_eqb_eq in E. congruence.
        -- ring.
Qed.

End LinearFacts.

(* ================================================================== *)
(** ** Properties of sets and of the constructor *)
(* ================================================================== *)

Module SetFacts.

Section Generic.
Context {A : Type} (eqb : A -> A -> bool).
Hypothesis eqb_refl : forall x, eqb x x = true.

Lemma mem_in (x : A) (s : list A) : In x s -> mem eqb x s = true.
Proof.
  intros H. apply existsb_exists. exists x. split; [exact H | apply eqb_refl].
Qed.

Lemma mem_app (x : A) (s t : list A) :
  mem eqb x (s ++ t) = mem eqb x s || mem eqb x t.
Proof. apply existsb_app. Qed.

Lemma set_add_in (x y : A) (s : list A) :
  In y (set_add eqb x s) -> In y s \/ y = x.
Proof.
  unfold set_add. destruct (mem eqb x s); [auto|].
  intros H. apply in_app_or in H as [H|[H|[]]]; auto.
Qed.

Lemma set_add_mem (x y : A) (s : list A) :
  mem eqb y s = true \/ y = x -> mem eqb y (set_add eqb x s) = true.
Proof.
  unfold set_add. intros [H| ->].
  - destruct (mem eqb x s); [exact H|]. rewrite mem_app, H. reflexivity.
  - destruct (mem eqb x s) eqn:E; [exact E|].
    rewrite mem_app. cbn [mem existsb]. rewrite eqb_refl, orb_true_r. reflexivity.
Qed.

Lemma set_fold_in (l acc : list A) (y : A) :
  In y (fold_left (fun s x => set_add eqb x s) l acc) -> In y acc \/ In y l.
Proof.
  revert acc; induction l as [|x l IH]; intros acc; cbn [fold_left]; [auto|].
  intros H. apply IH in H as [H|H]; [|right; right; exact H].
  apply set_add_in in H as [H| ->]; [left; exact H | right; left; reflexivity].
Qed.

Lemma set_fold_mem (l acc : list A) (y : A) :
  mem eqb y acc = true \/ In y l ->
  mem eqb y (fold_left (fun s x => set_add eqb x s) l acc) = true.
Proof.
  revert acc; induction l as [|x l IH]; intros acc; cbn [fold_left].
  - intros [H|[]]; exact H.
  - intros [H|[->|H]]; apply IH; auto; left; apply set_add_mem; auto.
Qed.

Lemma set_of_list_in (l : list A) (y : A) : In y (set_of_list eqb l) -> In y l.
Proof.
  unfold set_of_list. intros H. apply set_fold_in in H as [[]|H]; exact H.
Qed.

Lemma set_of_list_mem (l : list A) (y : A) :
  In y l -> mem eqb y (set_of_list eqb l) = true.
Proof. intros H. apply set_fold_mem. right; exact H. Qed.

(** A property that the equality test respects holds on a set exactly when
    it holds on the list the set was made of. *)
Lemma Forall_set_of_list (P : A -> Prop) (l : list A) :
  (forall x y, eqb x y = true -> P y -> P x) ->
  (Forall P (set_of_list eqb l) <-> Forall P l).
Proof.
  intros HP. rewrite !Forall_forall. split; intros H x Hx.
  - apply set_of_list_mem in Hx. apply existsb_exists in Hx as (y & Hy & E).
    exact (HP x y E (H y Hy)).
  - apply H. apply set_of_list_in; exact Hx.
Qed.

End Generic.

End SetFacts.

Module InitFacts.
Import PolyFacts LinearFacts SetFacts.

Lemma mem_InRing (p : mpoly) (s : list mpoly) :
  mem elem_eqb (InRing p) (map InRing s) = mem Poly.eqb p s.
Proof.
  unfold mem. induction s as [|q s IH]; cbn [map existsb]; [reflexivity|].
  rewrite IH. reflexivity.
Qed.

Lemma set_fold_InRing (l acc : list mpoly) :
  fold_left (fun s x => set_add elem_eqb x s) (map InRing l) (map InRing acc)
  = map InRing (fold_left (fun s x => set_add Poly.eqb x s) l acc).
Proof.
  revert acc; induction l as [|p l IH]; intros acc; cbn [map fold_left]; [reflexivity|].
  rewrite <- IH. f_equal. unfold set_add. rewrite mem_InRing.
  destruct (mem Poly.eqb p acc); [reflexivity|]. rewrite map_app. reflexivity.
Qed.

Lemma set_of_list_InRing (l : list mpoly) :
  set_of_list elem_eqb (map InRing l) = map InRing (set_of_list Poly.eqb l).
Proof. exact (set_fold_InRing l []). Qed.

(** A loop over elements of the ring changes nothing. *)
Lemma constant_loop_ring (k : kind) (l : list mpoly) (t : temps) :
  constant_loop k (map InRing l) t = Ok t.
Proof. induction l as [|p l IH]; cbn [map constant_loop]; [reflexivity | exact IH]. Qed.

Lemma ring_list_InRing (l : list mpoly) : ring_list (map InRing l) = Ok l.
Proof.
  induction l as [|p l IH]; cbn [map ring_list]; [reflexivity|].
  rewrite IH. reflexivity.
Qed.

Lemma degree_check_ring (l : list mpoly) :
  Forall (fun p => (degree p <= 1)%Z) l ->
  existsb (fun e => (1 <? elem_degree e)%Z) (map InRing l) = false.
Proof.
  induction 1 as [|p l Hp _ IH]; cbn [map existsb elem_degree]; [reflexivity|].
  rewrite IH, orb_false_r. apply Z.ltb_ge; exact Hp.
Qed.

Lemma parent_check_ring (l : list mpoly) :
  negb (is_empty (map InRing l)) && negb (common_parent_is_poly_ring (map InRing l))
  = false.
Proof. destruct l; reflexivity. Qed.

(** The constructor on constraints that all belong to the ring and are
    linear: it returns, and stores the three lists as sets. *)
Lemma init_ring (d : option nat) (n : nat) (eqs lts les : list mpoly) :
  Forall (fun p => (degree p <= 1)%Z) (eqs ++ lts ++ les) ->
  __init__ d (Some n) (map InRing eqs) (map InRing lts) (map InRing les)
  = Ok {| _poly_ring := n;
          _ambient_dim := match d with Some a => a | None => n end;
          _eq := PySet (set_of_list Poly.eqb eqs);
          _lt := PySet (set_of_list Poly.eqb lts);
          _le := PySet (set_of_list Poly.eqb les) |}.
Proof.
  intros H. unfold __init__.
  rewrite <- !map_app, (degree_check_ring _ H), parent_check_ring.
  rewrite !set_of_list_InRing, !constant_loop_ring.
  cbn [bind]. rewrite !constant_loop_ring.
  cbn [bind]. rewrite !constant_loop_ring.
  cbn [bind temp_eq temp_lt temp_le ring_elements].
  rewrite !ring_list_InRing. reflexivity.
Qed.

Lemma Forall_linear_set (l : list mpoly) :
  Forall (fun p => (degree p <= 1)%Z) l ->
  Forall (fun p => (degree p <= 1)%Z) (set_of_list Poly.eqb l).
Proof.
  rewrite !Forall_forall. intros H p Hp. apply H.
  apply (set_of_list_in Poly.eqb); exact Hp.
Qed.

Lemma Forall_linear_map (i : nat) (l : list mpoly) :
  Forall (fun p => (degree p <= 1)%Z) l ->
  Forall (fun p => (degree p <= 1)%Z) (map (apply_map i) l).
Proof.
  intros H. apply Forall_map. revert H. apply Forall_impl.
  intros p Hp. pose proof (degree_apply_map i p). lia.
Qed.

End InitFacts.

(* ================================================================== *)
(** ** Properties of the elimination step *)
(* ================================================================== *)

Module ElimFacts.
Import PolyFacts LinearFacts SetFacts InitFacts.

Lemma linear_store_parts (s : store) :
  linear_store s <->
  linear_list (items (_eq s)) /\ linear_list (items (_lt s)) /\
  linear_list (items (_le s)).
Proof. unfold linear_store. rewrite !Forall_app. reflexivity. Qed.

Lemma linear_filter (f : mpoly -> bool) (l : list mpoly) :
  linear_list l -> linear_list (filter f l).
Proof.
  rewrite !Forall_forall. intros H p Hp. apply filter_In in Hp as [Hp _]. auto.
Qed.

Lemma linear_combinations (i : nat) (ls us : list mpoly) :
  linear_list ls -> linear_list us -> linear_list (combinations i ls us).
Proof.
  rewrite !Forall_forall. intros Hl Hu p Hp. unfold combinations in Hp.
  apply in_flat_map in Hp as (l & Hl' & Hp). apply in_map_iff in Hp as (u & <- & Hu').
  apply degree_combine; auto.
Qed.

Lemma linear_substitute (i : nat) (s : mpoly) (l : list mpoly) :
  (degree s <= 1)%Z -> linear_list l -> linear_list (map (substitute i s) l).
Proof.
  intros Hs H. apply Forall_map. revert H. apply Forall_impl.
  intros p Hp. apply degree_substitute; assumption.
Qed.

Lemma new_constraints_linear (s : store) (i : nat) :
  linear_store s ->
  linear_list (fst (fst (new_constraints s i)) ++
               snd (fst (new_constraints s i)) ++ snd (new_constraints s i)).
Proof.
  intros H. apply linear_store_parts in H as (He & Hl & Hle).
  unfold new_constraints. destruct (find_sub i (items (_eq s))) as [sb|] eqn:E;
    cbn [fst snd]; rewrite !Forall_app.
  - pose proof (degree_find_sub i _ sb He E) as Hs.
    repeat split; apply linear_substitute; assumption.
  - unfold carried, upper, lower.
    repeat split; try assumption;
      try apply linear_combinations; apply linear_filter; assumption.
Qed.

(** On a store of linear constraints and an index in range, the elimination
    step returns; its result holds the new constraints, as sets, mapped
    into the ring without the variable. *)
Lemma one_step_elimination_ok (s : store) (i : nat) :
  linear_store s -> (i < _poly_ring s)%nat ->
  one_step_elimination s i
  = Ok {| _poly_ring := pred (_poly_ring s);
          _ambient_dim := pred (_poly_ring s);
          _eq := PySet (reduced i (fst (fst (new_constraints s i))));
          _lt := PySet (reduced i (snd (fst (new_constraints s i))));
          _le := PySet (reduced i (snd (new_constraints s i))) |}.
Proof.
  intros H Hi. pose proof (new_constraints_linear s i H) as Hn.
  unfold one_step_elimination.
  destruct (Nat.leb_spec (_poly_ring s) i) as [L|_]; [lia|].
  destruct (new_constraints s i) as [[a b] c]. cbn [fst snd] in *.
  rewrite (init_ring _ _ a b c Hn). cbn [bind]. unfold section.
  cbn [_eq _lt _le items].
  rewrite <- !(map_map (apply_map i) InRing).
  apply Forall_app in Hn as (Ha & Hn). apply Forall_app in Hn as (Hb & Hc).
  rewrite init_ring; [reflexivity|].
  rewrite !Forall_app.
  repeat split; apply Forall_linear_map, Forall_linear_set; assumption.
Qed.

Lemma reduced_linear (i : nat) (l : list mpoly) :
  linear_list l -> linear_list (reduced i l).
Proof.
  intros H. unfold reduced.
  apply Forall_linear_set, Forall_linear_map, Forall_linear_set; exact H.
Qed.

(** The result of a step is again a store of linear constraints. *)
Lemma one_step_elimination_linear (s r : store) (i : nat) :
  linear_store s -> one_step_elimination s i = Ok r -> linear_store r.
Proof.
  intros H E.
  destruct (Nat.leb_spec (_poly_ring s) i) as [L|L].
  - unfold one_step_elimination in E.
    destruct (Nat.leb_spec (_poly_ring s) i); [discriminate | lia].
  - rewrite (one_step_elimination_ok s i H L) in E. injection E as <-.
    pose proof (new_constraints_linear s i H) as Hn.
    apply Forall_app in Hn as (Ha & Hn). apply Forall_app in Hn as (Hb & Hc).
    apply linear_store_parts. cbn [_eq _lt _le items].
    repeat split; apply reduced_linear; assumption.
Qed.

(** Membership in a set of reduced constraints, for a property of the value
    at a point. *)
Lemma Forall_reduced (P : Q -> Prop) (i : nat) (l : list mpoly) (x : assignment) :
  (forall a b, a == b -> P b -> P a) ->
  (Forall (fun p => P (eval p x)) (reduced i l)
   <-> Forall (fun p => P (eval p (extend i 0 x))) l).
Proof.
  intros HP. unfold reduced.
  rewrite (Forall_set_of_list Poly.eqb eqb_refl).
  2:{ intros p q E. apply HP. apply eqb_eval; exact E. }
  rewrite Forall_map.
  rewrite <- (Forall_set_of_list Poly.eqb eqb_refl
                (fun p => P (eval p (extend i 0 x))) l).
  2:{ intros p q E. apply HP. apply eqb_eval; exact E. }
  rewrite !Forall_forall. split; intros H p Hp; specialize (H p Hp);
    revert H; apply HP; [symmetry|]; apply eval_apply_map.
Qed.

End ElimFacts.

(* ================================================================== *)
(** ** Finitely many bounds on one rational *)
(* ================================================================== *)

Module Bounds.

Lemma list_max_ex (l : list Q) :
  l <> [] -> exists m, In m l /\ Forall (fun a => a <= m) l.
Proof.
  induction l as [|a l IH]; [congruence|]. intros _.
  destruct l as [|b l].
  - exists a. split; [left; reflexivity|]. constructor; [lra|constructor].
  - destruct IH as (m & Hm & Hall); [discriminate|].
    destruct (Qlt_le_dec m a) as [L|L].
    + exists a. split; [left; reflexivity|]. constructor; [lra|].
      revert Hall. apply Forall_impl. intros c Hc. lra.
    + exists m. split; [right; exact Hm|]. constructor; assumption.
Qed.

Lemma list_min_ex (l : list Q) :
  l <> [] -> exists m, In m l /\ Forall (fun b => m <= b) l.
Proof.
  induction l as [|a l IH]; [congruence|]. intros _.
  destruct l as [|b l].
  - exists a. split; [left; reflexivity|]. constructor; [lra|constructor].
  - destruct IH as (m & Hm & Hall); [discriminate|].
    destruct (Qlt_le_dec a m) as [L|L].
    + exists a. split; [left; reflexivity|]. constructor; [lra|].
      revert Hall. apply Forall_impl. intros c Hc. lra.
    + exists m. split; [right; exact Hm|]. constructor; assumption.
Qed.

Section Existence.
Variables (Ls Ls' Us Us' : list Q).
Hypothesis nn : forall a b, In a Ls -> In b Us -> a <= b.
Hypothesis ns : forall a b, In a Ls -> In b Us' -> a < b.
Hypothesis sn : forall a b, In a Ls' -> In b Us -> a < b.
Hypothesis ss : forall a b, In a Ls' -> In b Us' -> a < b.

Let good (v : Q) : Prop :=
  Forall (fun a => a <= v) Ls /\ Forall (fun a => a < v) Ls' /\
  Forall (fun b => v <= b) Us /\ Forall (fun b => v < b) Us'.

Lemma below_all (v : Q) :
  Ls = [] -> Ls' = [] -> Forall (fun b => v < b) (Us ++ Us') -> good v.
Proof.
  intros -> -> H. apply Forall_app in H as [H1 H2].
  repeat split; try constructor; [|exact H2].
  revert H1. apply Forall_impl. intros b Hb; lra.
Qed.

Lemma above_all (v : Q) :
  Us = [] -> Us' = [] -> Forall (fun a => a < v) (Ls ++ Ls') -> good v.
Proof.
  intros -> -> H. apply Forall_app in H as [H1 H2].
  repeat split; try constructor; [|exact H2].
  revert H1. apply Forall_impl. intros b Hb; lra.
Qed.

(** Lower and upper bounds, strict or not, that are compatible two by two
    leave room for a value. *)
Lemma bounds_exist : exists v, good v.
Proof.
  destruct (Ls ++ Ls') as [|a0 L0] eqn:EL.
  - apply app_eq_nil in EL as [E1 E2].
    destruct (Us ++ Us') as [|b0 U0] eqn:EU.
    + apply app_eq_nil in EU as [E3 E4]. exists 0.
      unfold good. rewrite E1, E2, E3, E4. repeat split; constructor.
    + destruct (list_min_ex (Us ++ Us')) as (m & _ & Hm); [rewrite EU; discriminate|].
      exists (m - 1). apply below_all; try assumption.
      revert Hm. apply Forall_impl. intros b Hb; lra.
  - destruct (list_max_ex (Ls ++ Ls')) as (a & Ha & Hamax); [rewrite EL; discriminate|].
    destruct (Us ++ Us') as [|b0 U0] eqn:EU.
    + apply app_eq_nil in EU as [E3 E4].
      exists (a + 1). apply above_all; try assumption.
      revert Hamax. apply Forall_impl. intros c Hc; lra.
    + destruct (list_min_ex (Us ++ Us')) as (b & Hb & Hbmin); [rewrite EU; discriminate|].
      clear EL EU a0 L0 b0 U0.
      apply Forall_app in Hamax as [HaL HaL'].
      apply Forall_app in Hbmin as [HbU HbU'].
      rewrite Forall_forall in HaL, HaL', HbU, HbU'.
      destruct (Qlt_le_dec a b) as [Lt|Ge].
      * exists ((a + b) * (1 # 2)).
        assert (a < (a + b) * (1 # 2) /\ (a + b) * (1 # 2) < b) as [H1 H2].
        { split; lra. }
        unfold good. rewrite !Forall_forall.
        repeat split; intros c Hc;
          [ specialize (HaL c Hc) | specialize (HaL' c Hc)
          | specialize (HbU c Hc) | specialize (HbU' c Hc) ]; lra.
      * apply in_app_or in Ha, Hb.
        assert (HaLs : In a Ls).
        { destruct Ha as [Ha|Ha]; [exact Ha|].
          destruct Hb as [Hb|Hb]; [pose proof (sn a b Ha Hb) | pose proof (ss a b Ha Hb)]; lra. }
        assert (HbUs : In b Us).
        { destruct Hb as [Hb|Hb]; [exact Hb|]. pose proof (ns a b HaLs Hb); lra. }
        exists a. unfold good. rewrite !Forall_forall.
        repeat split; intros c Hc.
        -- exact (HaL c Hc).
        -- pose proof (sn c b Hc HbUs). lra.
        -- exact (nn a c HaLs Hc).
        -- exact (ns a c HaLs Hc).
Qed.

End Existence.

End Bounds.

(* ================================================================== *)
(** ** Fourier-Motzkin elimination and substitution, semantically *)
(* ================================================================== *)

Module FourierMotzkin.
Import PolyFacts LinearFacts.

Lemma inv_mul (A c : Q) : ~ c == 0 -> c * (- A / c) == - A.
Proof. intros H. field. exact H. Qed.

Lemma bound_lower_le (A c v : Q) : c < 0 -> - A / c <= v -> A + c * v <= 0.
Proof. intros Hc H. assert (E := inv_mul A c ltac:(lra)). nra. Qed.

Lemma bound_lower_lt (A c v : Q) : c < 0 -> - A / c < v -> A + c * v < 0.
Proof. intros Hc H. assert (E := inv_mul A c ltac:(lra)). nra. Qed.

Lemma bound_upper_le (A c v : Q) : 0 < c -> v <= - A / c -> A + c * v <= 0.
Proof. intros Hc H. assert (E := inv_mul A c ltac:(lra)). nra. Qed.

Lemma bound_upper_lt (A c v : Q) : 0 < c -> v < - A / c -> A + c * v < 0.
Proof. intros Hc H. assert (E := inv_mul A c ltac:(lra)). nra. Qed.

Lemma pair_le (Al cl Au cu : Q) :
  cl < 0 -> 0 < cu -> cu * Al - cl * Au <= 0 -> - Al / cl <= - Au / cu.
Proof.
  intros Hl Hu H. assert (E := inv_mul Al cl ltac:(lra)).
  assert (E' := inv_mul Au cu ltac:(lra)).
  set (a := - Al / cl) in *. set (b := - Au / cu) in *.
  destruct (Qlt_le_dec b a) as [L|L]; [|exact L]. exfalso.
  assert (0 < (- cl) * cu) by nra.
  assert (0 < (- cl * cu) * (a - b)) by nra. nra.
Qed.

Lemma pair_lt (Al cl Au cu : Q) :
  cl < 0 -> 0 < cu -> cu * Al - cl * Au < 0 -> - Al / cl < - Au / cu.
Proof.
  intros Hl Hu H. assert (E := inv_mul Al cl ltac:(lra)).
  assert (E' := inv_mul Au cu ltac:(lra)).
  set (a := - Al / cl) in *. set (b := - Au / cu) in *.
  destruct (Qlt_le_dec a b) as [L|L]; [exact L|]. exfalso.
  assert (0 < (- cl) * cu) by nra.
  assert (0 <= (- cl * cu) * (a - b)) by nra. nra.
Qed.

Lemma Qlt_bool_iff (a b : Q) : Qlt_bool a b = true <-> a < b.
Proof.
  unfold Qlt_bool. rewrite negb_true_iff. split; intros H.
  - apply Qnot_le_lt. intros L. apply Qle_bool_iff in L. congruence.
  - destruct (Qle_bool b a) eqn:E; [|reflexivity].
    apply Qle_bool_iff in E. lra.
Qed.

Lemma Qlt_bool_false (a b : Q) : Qlt_bool a b = false <-> b <= a.
Proof.
  unfold Qlt_bool. rewrite negb_false_iff. apply Qle_bool_iff.
Qed.

Lemma In_upper (i : nat) (l : list mpoly) (p : mpoly) :
  In p (upper i l) <-> In p l /\ 0 < monomial_coefficient p i.
Proof. unfold upper. rewrite filter_In, Qlt_bool_iff. reflexivity. Qed.

Lemma In_lower (i : nat) (l : list mpoly) (p : mpoly) :
  In p (lower i l) <-> In p l /\ monomial_coefficient p i < 0.
Proof.
  unfold lower. rewrite filter_In, andb_true_iff, negb_true_iff,
    Qlt_bool_false, Qlt_bool_iff.
  split; intros (H & H'); split; try tauto; lra.
Qed.

Lemma In_carried (i : nat) (l : list mpoly) (p : mpoly) :
  In p (carried i l) <-> In p l /\ monomial_coefficient p i == 0.
Proof.
  unfold carried. rewrite filter_In, andb_true_iff, !negb_true_iff,
    !Qlt_bool_false.
  split; intros (H & H'); split; try tauto; try lra.
Qed.

Lemma In_combinations (i : nat) (ls us : list mpoly) (p : mpoly) :
  In p (combinations i ls us) <->
  exists l u, In l ls /\ In u us /\ p = combine i l u.
Proof.
  unfold combinations. rewrite in_flat_map. split.
  - intros (l & Hl & H). apply in_map_iff in H as (u & <- & Hu). eauto.
  - intros (l & u & Hl & Hu & ->). exists l. split; [exact Hl|].
    apply in_map_iff. eauto.
Qed.

Section Step.
Variables (i : nat) (x : assignment).

(** The value of a combination does not depend on the eliminated variable. *)
Lemma eval_combine (l u : mpoly) (v : Q) :
  (degree l <= 1)%Z -> (degree u <= 1)%Z ->
  eval (combine i l u) (extend i 0 x)
  == monomial_coefficient u i * eval l (extend i v x)
     - monomial_coefficient l i * eval u (extend i v x).
Proof.
  intros Hl Hu. unfold combine. rewrite eval_sub, !eval_scale.
  rewrite (eval_extend i v l x Hl), (eval_extend i v u x Hu). ring.
Qed.

(** Substituting the solved equality evaluates at the solved value. *)
Lemma eval_substitute (e p : mpoly) :
  (degree e <= 1)%Z -> (degree p <= 1)%Z ->
  ~ monomial_coefficient e i == 0 ->
  eval (substitute i (sub (gen i) (div e (monomial_coefficient e i))) p)
       (extend i 0 x)
  == eval p (extend i (- eval e (extend i 0 x) / monomial_coefficient e i) x).
Proof.
  intros He Hp Hc. unfold substitute.
  rewrite (eval_extend i (- eval e (extend i 0 x) / monomial_coefficient e i) p x Hp).
  rewrite eval_add, eval_scale, !eval_sub, eval_div, eval_gen, extend_at.
  field. exact Hc.
Qed.

End Step.

End FourierMotzkin.

Module StepSemantics.
Import PolyFacts LinearFacts SetFacts InitFacts ElimFacts FourierMotzkin.

Lemma find_sub_some (i : nat) (eqs : list mpoly) (sb : mpoly) :
  find_sub i eqs = Some sb ->
  exists e, In e eqs /\ ~ monomial_coefficient e i == 0 /\
            sb = sub (gen i) (div e (monomial_coefficient e i)).
Proof.
  induction eqs as [|e eqs IH]; cbn [find_sub]; [discriminate|].
  destruct (nonzero (monomial_coefficient e i)) eqn:E.
  - intros H. exists e. split; [left; reflexivity|].
    split; [apply nonzero_true; exact E | congruence].
  - intros H. destruct (IH H) as (e' & He' & H'). exists e'. split; [right|]; assumption.
Qed.

Lemma find_sub_none (i : nat) (eqs : list mpoly) :
  find_sub i eqs = None -> Forall (fun e => monomial_coefficient e i == 0) eqs.
Proof.
  induction eqs as [|e eqs IH]; cbn [find_sub]; [constructor|].
  destruct (nonzero (monomial_coefficient e i)) eqn:E; [discriminate|].
  intros H. constructor; [apply nonzero_false; exact E | exact (IH H)].
Qed.

Lemma eval_extend_eq (i : nat) (v w : Q) (p : mpoly) (x : assignment) :
  (degree p <= 1)%Z -> v == w -> eval p (extend i v x) == eval p (extend i w x).
Proof.
  intros Hp E. rewrite (eval_extend i v p x Hp), (eval_extend i w p x Hp), E.
  reflexivity.
Qed.

Section Substitution.
Variables (i : nat) (x : assignment) (e : mpoly).
Hypothesis He : (degree e <= 1)%Z.
Hypothesis Hc : ~ monomial_coefficient e i == 0.

Let sb := sub (gen i) (div e (monomial_coefficient e i)).
Let solved := - eval e (extend i 0 x) / monomial_coefficient e i.

Lemma solved_unique (v : Q) : eval e (extend i v x) == 0 -> v == solved.
Proof.
  rewrite (eval_extend i v e x He). intros H. unfold solved.
  setoid_replace (eval e (extend i 0 x)) with (- (monomial_coefficient e i * v)) by lra.
  field. exact Hc.
Qed.

Lemma substituted_list (P : Q -> Prop) (l : list mpoly) (v : Q) :
  (forall a b, a == b -> P b -> P a) ->
  linear_list l -> v == solved ->
  (Forall (fun p => P (eval p (extend i 0 x))) (map (substitute i sb) l)
   <-> Forall (fun p => P (eval p (extend i v x))) l).
Proof.
  intros HP Hl Hv. rewrite Forall_map, !Forall_forall.
  rewrite Forall_forall in Hl.
  assert (E : forall p, In p l ->
            eval (substitute i sb p) (extend i 0 x) == eval p (extend i v x)).
  { intros p Hp. unfold sb. rewrite (eval_substitute i x e p He (Hl p Hp) Hc).
    apply eval_extend_eq; [exact (Hl p Hp) | symmetry; exact Hv]. }
  split; intros H p Hp; specialize (H p Hp); revert H; apply HP;
    [symmetry|]; apply E; exact Hp.
Qed.

End Substitution.

Lemma Qeq_resp (c : Q) : forall a b, a == b -> b == c -> a == c.
Proof. intros a b E H. rewrite E; exact H. Qed.

Lemma Qlt_resp (c : Q) : forall a b, a == b -> b < c -> a < c.
Proof. intros a b E H. rewrite E; exact H. Qed.

Lemma Qle_resp (c : Q) : forall a b, a == b -> b <= c -> a <= c.
Proof. intros a b E H. rewrite E; exact H. Qed.

(** The substitution branch: the new constraints hold at [x] exactly when
    the old ones hold at [x] extended by some value. *)
Lemma substitution_branch (s : store) (i : nat) (sb : mpoly) (x : assignment) :
  linear_store s -> find_sub i (items (_eq s)) = Some sb ->
  (Forall (fun p => eval p (extend i 0 x) == 0) (map (substitute i sb) (items (_eq s))) /\
   Forall (fun p => eval p (extend i 0 x) < 0) (map (substitute i sb) (items (_lt s))) /\
   Forall (fun p => eval p (extend i 0 x) <= 0) (map (substitute i sb) (items (_le s))))
  <-> exists v, sat s (extend i v x).
Proof.
  intros H E. apply linear_store_parts in H as (H1 & H2 & H3).
  destruct (find_sub_some i _ sb E) as (e & Hin & Hc & ->).
  assert (He : (degree e <= 1)%Z) by (rewrite Forall_forall in H1; auto).
  unfold sat. split.
  - intros (A & B & C).
    exists (- eval e (extend i 0 x) / monomial_coefficient e i).
    rewrite <- (substituted_list i x e He Hc (fun a => a == 0) _ _ (Qeq_resp 0) H1 (Qeq_refl _)).
    rewrite <- (substituted_list i x e He Hc (fun a => a < 0) _ _ (Qlt_resp 0) H2 (Qeq_refl _)).
    rewrite <- (substituted_list i x e He Hc (fun a => a <= 0) _ _ (Qle_resp 0) H3 (Qeq_refl _)).
    auto.
  - intros (v & A & B & C).
    assert (Hv : v == - eval e (extend i 0 x) / monomial_coefficient e i).
    { apply (solved_unique i x e He Hc). rewrite Forall_forall in A. auto. }
    rewrite (substituted_list i x e He Hc (fun a => a == 0) _ v (Qeq_resp 0) H1 Hv).
    rewrite (substituted_list i x e He Hc (fun a => a < 0) _ v (Qlt_resp 0) H2 Hv).
    rewrite (substituted_list i x e He Hc (fun a => a <= 0) _ v (Qle_resp 0) H3 Hv).
    auto.
Qed.

Section Pairing.
Variables (i : nat) (x : assignment) (eqs lts les : list mpoly).
Hypothesis Heqs : linear_list eqs.
Hypothesis Hlts : linear_list lts.
Hypothesis Hles : linear_list les.
Hypothesis Hfree : Forall (fun e => monomial_coefficient e i == 0) eqs.

Let new_lt := carried i lts
                ++ combinations i (lower i les) (upper i lts)
                ++ combinations i (lower i lts) (upper i les)
                ++ combinations i (lower i lts) (upper i lts).
Let new_le := carried i les ++ combinations i (lower i les) (upper i les).

Lemma pairing_sound (v : Q) :
  Forall (fun p => eval p (extend i v x) == 0) eqs ->
  Forall (fun p => eval p (extend i v x) < 0) lts ->
  Forall (fun p => eval p (extend i v x) <= 0) les ->
  Forall (fun p => eval p (extend i 0 x) == 0) eqs /\
  Forall (fun p => eval p (extend i 0 x) < 0) new_lt /\
  Forall (fun p => eval p (extend i 0 x) <= 0) new_le.
Proof.
  unfold new_lt, new_le. rewrite !Forall_app, !Forall_forall.
  rewrite Forall_forall in Heqs, Hlts, Hles, Hfree.
  intros A B C.
  assert (KC : forall l p, (forall q, In q l -> (degree q <= 1)%Z) ->
             In p (carried i l) ->
             In p l /\ eval p (extend i 0 x) == eval p (extend i v x)).
  { intros l p Hl Hp. apply In_carried in Hp as [Hp Hc]. split; [exact Hp|].
    rewrite (eval_extend i v p x (Hl p Hp)), Hc. ring. }
  assert (KP : forall ls us p,
             (forall q, In q ls -> (degree q <= 1)%Z) ->
             (forall q, In q us -> (degree q <= 1)%Z) ->
             In p (combinations i (lower i ls) (upper i us)) ->
             exists l u, In l ls /\ In u us /\
               monomial_coefficient l i < 0 /\ 0 < monomial_coefficient u i /\
               eval p (extend i 0 x)
               == monomial_coefficient u i * eval l (extend i v x)
                  - monomial_coefficient l i * eval u (extend i v x)).
  { intros ls us p Hl Hu Hp. apply In_combinations in Hp as (l & u & Il & Iu & ->).
    apply In_lower in Il as [Il Cl]. apply In_upper in Iu as [Iu Cu].
    exists l, u. repeat split; try assumption.
    apply eval_combine; auto. }
  repeat split; intros p Hp.
  - pose proof (A p Hp) as E.
    rewrite (eval_extend i v p x (Heqs p Hp)), (Hfree p Hp) in E. lra.
  - destruct (KC lts p Hlts Hp) as [I ->]. auto.
  - destruct (KP les lts p Hles Hlts Hp) as (l & u & Il & Iu & Cl & Cu & ->).
    specialize (C l Il). specialize (B u Iu). nra.
  - destruct (KP lts les p Hlts Hles Hp) as (l & u & Il & Iu & Cl & Cu & ->).
    specialize (B l Il). specialize (C u Iu). nra.
  - destruct (KP lts lts p Hlts Hlts Hp) as (l & u & Il & Iu & Cl & Cu & ->).
    pose proof (B l Il). pose proof (B u Iu). nra.
  - destruct (KC les p Hles Hp) as [I ->]. auto.
  - destruct (KP les les p Hles Hles Hp) as (l & u & Il & Iu & Cl & Cu & ->).
    pose proof (C l Il). pose proof (C u Iu). nra.
Qed.

Lemma pairing_complete :
  Forall (fun p => eval p (extend i 0 x) == 0) eqs ->
  Forall (fun p => eval p (extend i 0 x) < 0) new_lt ->
  Forall (fun p => eval p (extend i 0 x) <= 0) new_le ->
  exists v,
    Forall (fun p => eval p (extend i v x) == 0) eqs /\
    Forall (fun p => eval p (extend i v x) < 0) lts /\
    Forall (fun p => eval p (extend i v x) <= 0) les.
Proof.
  unfold new_lt, new_le. rewrite !Forall_app, !Forall_forall.
  rewrite Forall_forall in Heqs, Hlts, Hles, Hfree.
  intros A (B0 & B1 & B2 & B3) (C0 & C1).
  set (bnd := fun p => - eval p (extend i 0 x) / monomial_coefficient p i).
  assert (KP : forall ls us l u,
             (forall q, In q ls -> (degree q <= 1)%Z) ->
             (forall q, In q us -> (degree q <= 1)%Z) ->
             In l (lower i ls) -> In u (upper i us) ->
             In (combine i l u) (combinations i (lower i ls) (upper i us)) /\
             monomial_coefficient l i < 0 /\ 0 < monomial_coefficient u i /\
             eval (combine i l u) (extend i 0 x)
             == monomial_coefficient u i * eval l (extend i 0 x)
                - monomial_coefficient l i * eval u (extend i 0 x)).
  { intros ls us l u Hl Hu Il Iu. split; [apply In_combinations; eauto|].
    apply In_lower in Il as [Il Cl]. apply In_upper in Iu as [Iu Cu].
    repeat split; try assumption. apply eval_combine; auto. }
  destruct (Bounds.bounds_exist
              (map bnd (lower i les)) (map bnd (lower i lts))
              (map bnd (upper i les)) (map bnd (upper i lts)))
    as (v & G1 & G2 & G3 & G4).
  - intros a b Ha Hb.
    apply in_map_iff in Ha as (l & <- & Il). apply in_map_iff in Hb as (u & <- & Iu).
    destruct (KP les les l u Hles Hles Il Iu) as (I & Cl & Cu & E).
    apply pair_le; try assumption. rewrite <- E. auto.
  - intros a b Ha Hb.
    apply in_map_iff in Ha as (l & <- & Il). apply in_map_iff in Hb as (u & <- & Iu).
    destruct (KP les lts l u Hles Hlts Il Iu) as (I & Cl & Cu & E).
    apply pair_lt; try assumption. rewrite <- E. auto.
  - intros a b Ha Hb.
    apply in_map_iff in Ha as (l & <- & Il). apply in_map_iff in Hb as (u & <- & Iu).
    destruct (KP lts les l u Hlts Hles Il Iu) as (I & Cl & Cu & E).
    apply pair_lt; try assumption. rewrite <- E. auto.
  - intros a b Ha Hb.
    apply in_map_iff in Ha as (l & <- & Il). apply in_map_iff in Hb as (u & <- & Iu).
    destruct (KP lts lts l u Hlts Hlts Il Iu) as (I & Cl & Cu & E).
    apply pair_lt; try assumption. rewrite <- E. auto.
  - rewrite Forall_forall in G1, G2, G3, G4.
    exists v. rewrite !Forall_forall. repeat split; intros p Hp.
    + rewrite (eval_extend i v p x (Heqs p Hp)), (Hfree p Hp), (A p Hp). ring.
    + rewrite (eval_extend i v p x (Hlts p Hp)).
      destruct (Qlt_le_dec 0 (monomial_coefficient p i)) as [Pos|NPos].
      * apply bound_upper_lt; [exact Pos|].
        apply (G4 (bnd p)), in_map, In_upper. auto.
      * destruct (Qlt_le_dec (monomial_coefficient p i) 0) as [Neg|NNeg].
        -- apply bound_lower_lt; [exact Neg|].
           apply (G2 (bnd p)), in_map, In_lower. auto.
        -- assert (Z0 : monomial_coefficient p i == 0) by lra.
           rewrite Z0. assert (In p (carried i lts)) by (apply In_carried; auto).
           pose proof (B0 p H). lra.
    + rewrite (eval_extend i v p x (Hles p Hp)).
      destruct (Qlt_le_dec 0 (monomial_coefficient p i)) as [Pos|NPos].
      * apply bound_upper_le; [exact Pos|].
        apply (G3 (bnd p)), in_map, In_upper. auto.
      * destruct (Qlt_le_dec (monomial_coefficient p i) 0) as [Neg|NNeg].
        -- apply bound_lower_le; [exact Neg|].
           apply (G1 (bnd p)), in_map, In_lower. auto.
        -- assert (Z0 : monomial_coefficient p i == 0) by lra.
           rewrite Z0. assert (In p (carried i les)) by (apply In_carried; auto).
           pose proof (C0 p H). lra.
Qed.

End Pairing.

(** The new constraints, read in the old ring with the eliminated variable
    at zero, describe the projection. *)
Lemma new_constraints_region (s : store) (i : nat) (x : assignment) :
  linear_store s ->
  (Forall (fun p => eval p (extend i 0 x) == 0) (fst (fst (new_constraints s i))) /\
   Forall (fun p => eval p (extend i 0 x) < 0) (snd (fst (new_constraints s i))) /\
   Forall (fun p => eval p (extend i 0 x) <= 0) (snd (new_constraints s i)))
  <-> exists v, sat s (extend i v x).
Proof.
  intros H. unfold new_constraints.
  destruct (find_sub i (items (_eq s))) as [sb|] eqn:E; cbn [fst snd].
  - apply substitution_branch; assumption.
  - pose proof (find_sub_none i _ E) as Hfree.
    apply linear_store_parts in H as (H1 & H2 & H3). split.
    + intros (A & B & C).
      exact (pairing_complete i x _ _ _ H1 H2 H3 Hfree A B C).
    + intros (v & A & B & C).
      exact (pairing_sound i x _ _ _ H1 H2 H3 Hfree v A B C).
Qed.

(** The region of the result of a step, for a store of linear constraints
    and an index in range. *)
Lemma one_step_elimination_region (s r : store) (i : nat) (x : assignment) :
  linear_store s -> (i < _poly_ring s)%nat ->
  one_step_elimination s i = Ok r ->
  (sat r x <-> exists v, sat s (extend i v x)).
Proof.
  intros H Hi E. rewrite (one_step_elimination_ok s i H Hi) in E.
  injection E as <-. rewrite <- (new_constraints_region s i x H).
  unfold sat. cbn [_eq _lt _le items].
  rewrite (Forall_reduced (fun a => a == 0) i _ x (Qeq_resp 0)).
  rewrite (Forall_reduced (fun a => a < 0) i _ x (Qlt_resp 0)).
  rewrite (Forall_reduced (fun a => a <= 0) i _ x (Qle_resp 0)).
  reflexivity.
Qed.

End StepSemantics.

(* ================================================================== *)
(** ** The constructor on arbitrary input *)
(* ================================================================== *)

Module InitGeneral.
Import PolyFacts LinearFacts SetFacts InitFacts.

Lemma temp_get_set (k : kind) (c : coll elem) (t : temps) :
  temp_get k (temp_set k c t) = c.
Proof. destruct k; reflexivity. Qed.

Lemma temp_set_set (k : kind) (c c' : coll elem) (t : temps) :
  temp_set k c (temp_set k c' t) = temp_set k c t.
Proof. destruct k; reflexivity. Qed.

Lemma temp_set_get (k : kind) (t : temps) : temp_set k (temp_get k t) t = t.
Proof. destruct k, t; reflexivity. Qed.

Lemma temp_get_other (k k' : kind) (c : coll elem) (t : temps) :
  k <> k' -> temp_get k' (temp_set k c t) = temp_get k' t.
Proof. destruct k, k'; intros H; try reflexivity; congruence. Qed.

Lemma elem_eqb_refl (e : elem) : elem_eqb e e = true.
Proof. destruct e; cbn [elem_eqb]; [apply Qeq_bool_refl | apply eqb_refl]. Qed.

(** A constant that passes the test of the [le] loop is not the [1] of the
    collapsed store. *)
Lemma satisfied_not_one (c : Q) :
  violated KLe c = false -> elem_eqb (Const c) (InRing one) = false.
Proof.
  cbn [violated elem_eqb coerce]. rewrite negb_false_iff. intros H.
  apply Qle_bool_iff in H. unfold const, one.
  destruct (nonzero c); cbn [Poly.eqb]; [|reflexivity].
  destruct (Qeq_bool (Qred c) 1) eqn:E; [|rewrite andb_false_r; reflexivity].
  apply Qeq_bool_iff in E. rewrite Qred_correct in E. lra.
Qed.

(** Once collapsed, a loop either stays collapsed or raises. *)
Lemma constant_loop_collapsed (k : kind) (it : list elem) (t' : temps) :
  constant_loop k it collapsed = Ok t' -> t' = collapsed.
Proof.
  induction it as [|[c|p] it IH]; cbn [constant_loop].
  - congruence.
  - destruct (violated k c) eqn:V; [exact IH|].
    destruct k; cbn [temp_get collapsed temp_eq temp_lt temp_le coll_remove bind];
      try discriminate.
    unfold set_remove, mem. cbn [existsb]. rewrite (satisfied_not_one c V).
    cbn [orb bind]. discriminate.
  - exact IH.
Qed.

(** A violated constant among the visited elements collapses the store. *)
Lemma constant_loop_violated (k : kind) (it : list elem) (t t' : temps) :
  constant_loop k it t = Ok t' ->
  (exists c, In (Const c) it /\ violated k c = true) -> t' = collapsed.
Proof.
  revert t. induction it as [|[c|p] it IH]; intros t; cbn [constant_loop].
  - intros _ (c & [] & _).
  - destruct (violated k c) eqn:V.
    + intros H _. exact (constant_loop_collapsed k it t' H).
    + destruct (coll_remove elem_eqb (Const c) (temp_get k t)) as [s|e];
        cbn [bind]; [|discriminate].
      intros H (c' & [E|I] & V'); [congruence|]. apply (IH _ H). eauto.
  - intros H (c' & [E|I] & V'); [discriminate|]. apply (IH _ H). eauto.
Qed.

(** A loop that does not collapse removes every constant it visits, and
    nothing is violated. *)
Lemma constant_loop_run (k : kind) (it : list elem) (t t' : temps) (s : list elem) :
  constant_loop k it t = Ok t' ->
  temp_get k t = PySet s ->
  (forall e, foreign e = true -> In e s -> In e it) ->
  t' = collapsed \/
  exists s', t' = temp_set k (PySet s') t /\ incl s' s /\
             (forall e, In e s' -> foreign e = false) /\
             (forall c, In (Const c) it -> violated k c = false).
Proof.
  revert t s. induction it as [|[c|p] it IH]; intros t s; cbn [constant_loop].
  - intros [= <-] G Inv. right. exists s. rewrite <- G, temp_set_get.
    repeat split; [apply incl_refl | | intros c []].
    intros e He. destruct (foreign e) eqn:F; [|reflexivity].
    destruct (Inv e F He).
  - destruct (violated k c) eqn:V.
    + intros H _ _. left. exact (constant_loop_collapsed k it t' H).
    + intros H G Inv. rewrite G in H. cbn [coll_remove] in H.
      unfold set_remove in H. destruct (mem elem_eqb (Const c) s); cbn [bind] in H;
        [|discriminate].
      set (s1 := filter (fun y => negb (elem_eqb (Const c) y)) s) in *.
      destruct (IH _ s1 H (temp_get_set _ _ _)) as [C|(s' & E & I & F & NV)].
      * intros e Fe He. apply filter_In in He as [He Ne].
        destruct (Inv e Fe He) as [<-|I]; [|exact I].
        rewrite elem_eqb_refl in Ne. discriminate.
      * left; exact C.
      * right. exists s'. rewrite temp_set_set in E.
        repeat split; try assumption.
        -- intros e He. apply I in He. apply filter_In in He as [He _]. exact He.
        -- intros c' [[= <-]|I']; [exact V | exact (NV c' I')].
  - intros H G Inv.
    destruct (IH t s H G) as [C|(s' & E & I & F & NV)].
    + intros e Fe He. destruct (Inv e Fe He) as [<-|I]; [discriminate | exact I].
    + left; exact C.
    + right. exists s'. repeat split; try assumption.
      intros c' [[=]|I']. exact (NV c' I').
Qed.

Lemma ring_list_ok (l : list elem) (r : list mpoly) :
  ring_list l = Ok r -> l = map InRing r.
Proof.
  revert r. induction l as [|[c|p] l IH]; intros r; cbn [ring_list].
  - intros [= <-]. reflexivity.
  - discriminate.
  - destruct (ring_list l) as [r'|e]; cbn [bind]; [|discriminate].
    intros [= <-]. cbn [map]. rewrite (IH r' eq_refl). reflexivity.
Qed.

Lemma ring_list_total (l : list elem) :
  (forall e, In e l -> foreign e = false) -> exists r, ring_list l = Ok r.
Proof.
  induction l as [|[c|p] l IH]; intros H; cbn [ring_list].
  - eauto.
  - specialize (H (Const c) (or_introl eq_refl)). discriminate.
  - destruct IH as (r & ->); [intros e He; apply H; right; exact He|].
    cbn [bind]. eauto.
Qed.

Section Loops.
Variables (eq lt le : list elem).

Let t0 := {| temp_eq := PySet (set_of_list elem_eqb eq);
             temp_lt := PySet (set_of_list elem_eqb lt);
             temp_le := PySet (set_of_list elem_eqb le) |}.

Lemma loops_result (t1 t2 t3 : temps) :
  constant_loop KEq (set_of_list elem_eqb eq) t0 = Ok t1 ->
  constant_loop KLt (set_of_list elem_eqb lt) t1 = Ok t2 ->
  constant_loop KLe (set_of_list elem_eqb le) t2 = Ok t3 ->
  t3 = collapsed \/
  exists s1 s2 s3,
    t3 = {| temp_eq := PySet s1; temp_lt := PySet s2; temp_le := PySet s3 |} /\
    (incl s1 (set_of_list elem_eqb eq) /\ incl s2 (set_of_list elem_eqb lt) /\
     incl s3 (set_of_list elem_eqb le)) /\
    (forall e, In e (s1 ++ s2 ++ s3) -> foreign e = false) /\
    (all_satisfied KEq eq /\ all_satisfied KLt lt /\ all_satisfied KLe le).
Proof.
  intros E1 E2 E3.
  destruct (constant_loop_run KEq _ t0 t1 _ E1 eq_refl (fun e _ H => H))
    as [C|(s1 & -> & I1 & F1 & V1)].
  { subst t1. apply constant_loop_collapsed in E2; subst t2.
    apply constant_loop_collapsed in E3. left; exact E3. }
  destruct (constant_loop_run KLt _ _ t2 _ E2 eq_refl (fun e _ H => H))
    as [C|(s2 & -> & I2 & F2 & V2)].
  { subst t2. apply constant_loop_collapsed in E3. left; exact E3. }
  destruct (constant_loop_run KLe _ _ t3 _ E3 eq_refl (fun e _ H => H))
    as [C|(s3 & -> & I3 & F3 & V3)].
  { left; exact C. }
  right. exists s1, s2, s3. repeat split; try assumption.
  intros e He. apply in_app_or in He as [He|He]; [auto|].
  apply in_app_or in He as [He|He]; auto.
Qed.

End Loops.

Lemma constant_loop_err (k : kind) (it : list elem) (t : temps) (e : error) :
  constant_loop k it t = Err e -> e = AttributeError \/ e = KeyError.
Proof.
  revert t. induction it as [|[c|p] it IH]; intros t; cbn [constant_loop].
  - discriminate.
  - destruct (violated k c); [apply IH|].
    destruct (temp_get k t) as [s|]; cbn [coll_remove].
    + unfold set_remove. destruct (mem elem_eqb (Const c) s); cbn [bind].
      * apply IH.
      * intros [= <-]. right; reflexivity.
    + cbn [bind]. intros [= <-]. left; reflexivity.
  - apply IH.
Qed.

(** What a returning constructor returns: the collapsed store, or sets of
    ring elements taken from the input, all visited constants being
    satisfied. *)
Lemma init_cases (d : option nat) (n : nat) (eq lt le : list elem) (st : store) :
  __init__ d (Some n) eq lt le = Ok st ->
  st = collapsed_store n (dim_of d n) \/
  exists a b c,
    st = {| _poly_ring := n; _ambient_dim := dim_of d n;
            _eq := PySet a; _lt := PySet b; _le := PySet c |} /\
    (incl (map InRing a) (set_of_list elem_eqb eq) /\
     incl (map InRing b) (set_of_list elem_eqb lt) /\
     incl (map InRing c) (set_of_list elem_eqb le)) /\
    (all_satisfied KEq eq /\ all_satisfied KLt lt /\ all_satisfied KLe le).
Proof.
  unfold __init__.
  destruct (existsb _ (eq ++ lt ++ le)); [discriminate|].
  destruct (negb (is_empty (eq ++ lt ++ le)) && _); [discriminate|].
  destruct (constant_loop KEq _ _) as [t1|e1] eqn:E1; cbn [bind]; [|discriminate].
  destruct (constant_loop KLt _ _) as [t2|e2] eqn:E2; cbn [bind]; [|discriminate].
  destruct (constant_loop KLe _ _) as [t3|e3] eqn:E3; cbn [bind]; [|discriminate].
  destruct (loops_result eq lt le t1 t2 t3 E1 E2 E3)
    as [->|(s1 & s2 & s3 & -> & (I1 & I2 & I3) & F & V)].
  - cbn. intros [= <-]. left. reflexivity.
  - cbn [temp_eq temp_lt temp_le ring_elements].
    destruct (ring_list s1) as [a|] eqn:R1; cbn [bind]; [|discriminate].
    destruct (ring_list s2) as [b|] eqn:R2; cbn [bind]; [|discriminate].
    destruct (ring_list s3) as [c|] eqn:R3; cbn [bind]; [|discriminate].
    apply ring_list_ok in R1, R2, R3. subst s1 s2 s3.
    intros [= <-]. right. exists a, b, c. fold (dim_of d n). auto.
Qed.

(** The conversion at the end of the constructor never fails. *)
Lemma init_never_constant_in_store (d pr : option nat) (eq lt le : list elem) :
  __init__ d pr eq lt le <> Err ConstantInStore.
Proof.
  unfold __init__. destruct pr as [n|]; [|discriminate].
  destruct (existsb _ (eq ++ lt ++ le)); [discriminate|].
  destruct (negb (is_empty (eq ++ lt ++ le)) && _); [discriminate|].
  destruct (constant_loop KEq _ _) as [t1|e1] eqn:E1; cbn [bind].
  2:{ apply constant_loop_err in E1 as [-> | ->]; discriminate. }
  destruct (constant_loop KLt _ _) as [t2|e2] eqn:E2; cbn [bind].
  2:{ apply constant_loop_err in E2 as [-> | ->]; discriminate. }
  destruct (constant_loop KLe _ _) as [t3|e3] eqn:E3; cbn [bind].
  2:{ apply constant_loop_err in E3 as [-> | ->]; discriminate. }
  destruct (loops_result eq lt le t1 t2 t3 E1 E2 E3)
    as [->|(s1 & s2 & s3 & -> & _ & F & _)].
  - cbn. discriminate.
  - cbn [temp_eq temp_lt temp_le ring_elements].
    destruct (ring_list_total s1) as (a & ->).
    { intros e He. apply F. apply in_or_app. left; exact He. }
    destruct (ring_list_total s2) as (b & ->).
    { intros e He. apply F. apply in_or_app. right. apply in_or_app. left; exact He. }
    destruct (ring_list_total s3) as (c & ->).
    { intros e He. apply F. apply in_or_app. right. apply in_or_app. right; exact He. }
    cbn [bind]. discriminate.
Qed.

End InitGeneral.

Module StoreFacts.
Import PolyFacts LinearFacts SetFacts InitFacts InitGeneral ElimFacts.

(** A constructed store holds linear constraints only. *)
Lemma init_linear_store (d pr : option nat) (eq lt le : list elem) (st : store) :
  __init__ d pr eq lt le = Ok st -> linear_store st.
Proof.
  intros H. destruct pr as [n|]; [|discriminate].
  assert (D : forall p, In (InRing p) (eq ++ lt ++ le) -> (degree p <= 1)%Z).
  { unfold __init__ in H.
    destruct (existsb _ (eq ++ lt ++ le)) eqn:E; [discriminate|].
    intros p Hp. destruct (Z.ltb_spec 1 (degree p)) as [L|L]; [|exact L].
    assert (existsb (fun e => (1 <? elem_degree e)%Z) (eq ++ lt ++ le) = true).
    { apply existsb_exists. exists (InRing p). split; [exact Hp|].
      apply Z.ltb_lt; exact L. }
    congruence. }
  destruct (init_cases d n eq lt le st H) as [->|(a & b & c & -> & (Ia & Ib & Ic) & _)].
  - unfold linear_store, collapsed_store. cbn. repeat constructor. discriminate.
  - apply linear_store_parts. cbn [_eq _lt _le items]. rewrite !Forall_forall.
    repeat split; intros p Hp; apply D; rewrite !in_app_iff.
    + left. apply (set_of_list_in elem_eqb), Ia, in_map; exact Hp.
    + right; left. apply (set_of_list_in elem_eqb), Ib, in_map; exact Hp.
    + right; right. apply (set_of_list_in elem_eqb), Ic, in_map; exact Hp.
Qed.

(** The errors that the constructor can raise once the degree check has
    passed. *)
Lemma init_errors_checked (d : option nat) (n : nat) (eq lt le : list elem) (e : error) :
  existsb (fun e => (1 <? elem_degree e)%Z) (eq ++ lt ++ le) = false ->
  __init__ d (Some n) eq lt le = Err e ->
  e = ValueError_proper_ring \/ e = AttributeError \/ e = KeyError.
Proof.
  intros D H. pose proof (init_never_constant_in_store d (Some n) eq lt le) as N.
  assert (R : forall c r, ring_elements c = Err r -> r = ConstantInStore).
  { intros [s|] r; cbn [ring_elements]; [|discriminate].
    induction s as [|[q|p] s IH] in r |- *; cbn [ring_list bind].
    - discriminate.
    - intros [= <-]; reflexivity.
    - destruct (ring_list s) as [r'|e']; cbn [bind]; [discriminate|].
      intros [= <-]. specialize (IH e'). cbn [bind] in IH. auto. }
  unfold __init__ in *. rewrite D in *.
  destruct (negb (is_empty (eq ++ lt ++ le)) && _); [injection H as <-; auto|].
  destruct (constant_loop KEq _ _) as [t1|e1] eqn:E1; cbn [bind] in *.
  2:{ injection H as <-. apply constant_loop_err in E1 as [-> | ->]; auto. }
  destruct (constant_loop KLt _ _) as [t2|e2] eqn:E2; cbn [bind] in *.
  2:{ injection H as <-. apply constant_loop_err in E2 as [-> | ->]; auto. }
  destruct (constant_loop KLe _ _) as [t3|e3] eqn:E3; cbn [bind] in *.
  2:{ injection H as <-. apply constant_loop_err in E3 as [-> | ->]; auto. }
  destruct (ring_elements (temp_eq t3)) as [a|r] eqn:Ra; cbn [bind] in *.
  2:{ apply R in Ra. congruence. }
  destruct (ring_elements (temp_lt t3)) as [b|r] eqn:Rb; cbn [bind] in *.
  2:{ apply R in Rb. congruence. }
  destruct (ring_elements (temp_le t3)) as [c|r] eqn:Rc; cbn [bind] in *.
  2:{ apply R in Rc. congruence. }
  discriminate.
Qed.

(** The errors that the constructor can raise. *)
Lemma init_errors (d pr : option nat) (eq lt le : list elem) (e : error) :
  __init__ d pr eq lt le = Err e ->
  e = ValueError_poly_ring \/ e = ValueError_linear \/ e = ValueError_proper_ring \/
  e = AttributeError \/ e = KeyError.
Proof.
  intros H. destruct pr as [n|]; [|injection H as <-; auto].
  destruct (existsb (fun e => (1 <? elem_degree e)%Z) (eq ++ lt ++ le)) eqn:D.
  - unfold __init__ in H. rewrite D in H. injection H as <-. auto.
  - destruct (init_errors_checked d n eq lt le e D H) as [->|[->| ->]]; auto 6.
Qed.

Lemma degree_coerce (e : elem) : degree (coerce e) = elem_degree e.
Proof.
  destruct e as [c|p]; cbn [coerce elem_degree]; [|reflexivity].
  unfold const. destruct (nonzero c); reflexivity.
Qed.

Lemma Forall_set_add (P : mpoly -> Prop) (p : mpoly) (s : list mpoly) :
  Forall P (set_add Poly.eqb p s) -> Forall P s.
Proof.
  unfold set_add. destruct (mem Poly.eqb p s); [auto|].
  intros H. apply Forall_app in H as [H _]. exact H.
Qed.

Lemma linear_set_add (p : mpoly) (s : list mpoly) :
  (degree p <= 1)%Z -> linear_list s -> linear_list (set_add Poly.eqb p s).
Proof.
  intros Hp Hs. unfold set_add. destruct (mem Poly.eqb p s); [exact Hs|].
  apply Forall_app. split; [exact Hs|]. constructor; [exact Hp|constructor].
Qed.

(** Adding a constraint keeps the constraints linear and can only shrink
    the region. *)
Lemma add_polynomial_constraint_shrinks (s s' : store) (lhs : elem) (op : operator) :
  add_polynomial_constraint s lhs op = Ok s' ->
  _poly_ring s' = _poly_ring s /\
  (linear_store s -> linear_store s') /\
  (forall x, sat s' x -> sat s x).
Proof.
  unfold add_polynomial_constraint.
  destruct (Z.ltb_spec 1 (degree (coerce lhs))) as [L|L]; [discriminate|].
  assert (Ln : (degree (neg (coerce lhs)) <= 1)%Z).
  { pose proof (degree_scale (-1) (coerce lhs)). unfold neg. lia. }
  destruct op; try discriminate;
    [ destruct (_lt s) as [l|] eqn:E | destruct (_lt s) as [l|] eqn:E
    | destruct (_eq s) as [l|] eqn:E | destruct (_le s) as [l|] eqn:E
    | destruct (_le s) as [l|] eqn:E ];
    cbn [coll_add bind]; try discriminate; intros [= <-];
    (split; [reflexivity|]); (split;
      [ rewrite !linear_store_parts; cbn [_eq _lt _le items]; rewrite E;
        cbn [items]; intros (A & B & C); repeat split; try assumption;
        apply linear_set_add; assumption
      | unfold sat; cbn [_eq _lt _le items]; rewrite E; cbn [items];
        intros x (A & B & C); repeat split; try assumption;
        eapply Forall_set_add; eassumption ]).
Qed.

Lemma add_linear_constraint_shrinks (s s' : store) (v : list Q) (cst : Q) (op : operator) :
  add_linear_constraint s v cst op = Ok s' ->
  _poly_ring s' = _poly_ring s /\
  (linear_store s -> linear_store s') /\
  (forall x, sat s' x -> sat s x).
Proof.
  unfold add_linear_constraint.
  destruct (negb (length v =? _ambient_dim s)%nat); [discriminate|].
  apply add_polynomial_constraint_shrinks.
Qed.

End StoreFacts.

(* ================================================================== *)
(** ** Main results *)
(* ================================================================== *)

Import PolyFacts LinearFacts SetFacts InitFacts InitGeneral ElimFacts
  FourierMotzkin StepSemantics StoreFacts.

(** The example of the class docstring: eliminating [x0] and [x1] from the
    relu formulation leaves the thirteen inequalities that the docstring
    lists, the constant [0] among them, over [x, y, z]. *)
Example relu_projection :
  (bsa <- __init__ None (Some 5%nat) [] [] relu_le ;;
   bsa_eliminated <- coordinate_projection bsa [0%nat; 1%nat] ;;
   Ok (_poly_ring bsa_eliminated, items (_eq bsa_eliminated),
       items (_lt bsa_eliminated), items (_le bsa_eliminated)))
  = Ok (3%nat, [], [],
        [ linear_combination [(-1, 1%nat)] 0;
          zero;
          linear_combination [(3 # 2, 2%nat)] (- 3 # 2);
          linear_combination [(4, 2%nat)] (-4);
          linear_combination [(1, 1%nat); (- 5 # 2, 2%nat)] 0;
          linear_combination [(-1, 0%nat); (1, 1%nat); (3 # 2, 2%nat)] (-2);
          linear_combination [(-1, 1%nat); (- 3 # 2, 2%nat)] 0;
          linear_combination [(-4, 2%nat)] 0;
          linear_combination [(-1, 0%nat)] (-2);
          linear_combination [(1, 0%nat); (-1, 1%nat)] (1 # 2);
          linear_combination [(1, 0%nat); (- 5 # 2, 2%nat)] (1 # 2);
          linear_combination [(1, 0%nat); (-1, 1%nat); (5 # 2, 2%nat)] (-2);
          linear_combination [(1, 0%nat)] (-2) ]).
Proof. vm_compute. reflexivity. Qed.

(** C1.  For a store (of linear constraints, as every constructed store is)
    and a variable index in range, [one_step_elimination] returns a store
    over the remaining variables whose satisfying assignments are exactly
    the projection of the input region: [x] satisfies the result if and only
    if some value [v] for the eliminated variable makes [(x, v)] satisfy every
    equality, strict and non-strict inequality of the input. *)
Theorem one_step_elimination_is_projection (s : store) (i : nat) :
  linear_store s -> (i < _poly_ring s)%nat ->
  exists r,
    one_step_elimination s i = Ok r /\
    _poly_ring r = pred (_poly_ring s) /\
    forall x, sat r x <-> exists v, sat s (extend i v x).
Proof.
  intros H Hi. eexists. split; [apply (one_step_elimination_ok s i H Hi)|].
  split; [reflexivity|]. intros x.
  apply (one_step_elimination_region s _ i x H Hi).
  apply (one_step_elimination_ok s i H Hi).
Qed.

Lemma example_store_linear : linear_store example_store.
Proof. repeat constructor; vm_compute; discriminate. Defined.

Lemma one_step_elimination_is_projection_witness :
  exists r,
    one_step_elimination example_store 0 = Ok r /\
    _poly_ring r = pred (_poly_ring example_store) /\
    forall x, sat r x <-> exists v, sat example_store (extend 0 v x).
Proof.
  apply (one_step_elimination_is_projection example_store 0).
  - exact example_store_linear.
  - cbn. lia.
Defined.

(** C9.  [one_step_elimination] raises "doesn't exist the elimination
    variable" if and only if the index is not less than the number of
    generators of the ring. *)
Theorem one_step_elimination_index_error (s : store) (i : nat) :
  one_step_elimination s i = Err ValueError_elimination
  <-> (_poly_ring s <= i)%nat.
Proof.
  unfold one_step_elimination.
  destruct (Nat.leb_spec (_poly_ring s) i) as [L|L].
  - split; [intros _; exact L | reflexivity].
  - split; [|lia]. destruct (new_constraints s i) as [[a b] c].
    destruct (__init__ _ _ (map InRing a) (map InRing b) (map InRing c))
      as [bsa|e] eqn:E; cbn [bind].
    + unfold section. intros H.
      apply init_errors in H. intuition discriminate.
    + intros [= ->]. apply init_errors in E. intuition discriminate.
Qed.

(** C10.  With [eq=[5]], [lt=[-1]] and the linear polynomial [x0] in [le],
    the constructor neither returns nor raises a documented error: after the
    collapse [temp_lt] is an empty dict, and removing the satisfied constant
    [-1] from it raises [AttributeError]. *)
Theorem init_collapse_then_remove_raises :
  __init__ None (Some 1%nat) [Const 5] [Const (-1)] [InRing (gen 0)]
  = Err AttributeError.
Proof. vm_compute. reflexivity. Qed.

(** C7.  The constructor raises the degree error exactly when one of the
    supplied constraints has degree 2 or more, and so does
    [add_polynomial_constraint]; nothing is stored then, and constraints of
    degree at most 1 pass the check. *)
Theorem degree_rejection :
  (forall d n eq lt le,
     __init__ d (Some n) eq lt le = Err ValueError_linear
     <-> exists e, In e (eq ++ lt ++ le) /\ (2 <= elem_degree e)%Z) /\
  (forall s lhs op,
     add_polynomial_constraint s lhs op = Err ValueError_linear
     <-> (2 <= elem_degree lhs)%Z).
Proof.
  split.
  - intros d n eq lt le. split.
    + intros H.
      destruct (existsb (fun e => (1 <? elem_degree e)%Z) (eq ++ lt ++ le)) eqn:E.
      * apply existsb_exists in E as (e & He & D). exists e. split; [exact He|].
        apply Z.ltb_lt in D. lia.
      * apply (init_errors_checked d n eq lt le _ E) in H. intuition discriminate.
    + intros (e & He & D). unfold __init__.
      assert (X : existsb (fun e => (1 <? elem_degree e)%Z) (eq ++ lt ++ le) = true).
      { apply existsb_exists. exists e. split; [exact He|]. apply Z.ltb_lt. lia. }
      rewrite X. reflexivity.
  - intros s lhs op. unfold add_polynomial_constraint.
    rewrite degree_coerce.
    destruct (Z.ltb_spec 1 (elem_degree lhs)) as [L|L].
    + split; [intros _; lia | reflexivity].
    + split; [|lia].
      destruct op; try discriminate;
        [ destruct (_lt s) | destruct (_lt s) | destruct (_eq s)
        | destruct (_le s) | destruct (_le s) ]; cbn [coll_add bind]; discriminate.
Qed.

(** A member of the list of new constraints has a representative in the
    result's set, with the same values off the eliminated variable. *)
Lemma reduced_keeps (i : nat) (l : list mpoly) (p : mpoly) :
  In p l ->
  exists q, In q (reduced i l) /\ forall x, eval q x == eval p (extend i 0 x).
Proof.
  intros Hp. unfold reduced.
  pose proof (set_of_list_mem Poly.eqb eqb_refl l p Hp) as M.
  apply existsb_exists in M as (q1 & H1 & E1).
  pose proof (set_of_list_mem Poly.eqb eqb_refl _ _ (in_map (apply_map i) _ _ H1)) as M.
  apply existsb_exists in M as (q2 & H2 & E2).
  exists q2. split; [exact H2|]. intros x.
  rewrite <- (eqb_eval _ _ x E2), eval_apply_map. symmetry. apply eqb_eval; exact E1.
Qed.

(** C2, the claim as stated fails: [add_polynomial_constraint] stores the
    violated constant equality [5 = 0] as a constant polynomial and does not
    collapse the store. *)
Lemma add_constant_not_evaluated :
  add_polynomial_constraint
    {| _poly_ring := 1; _ambient_dim := 1;
       _eq := PySet []; _lt := PySet []; _le := PySet [] |} (Const 5) op_eq
  = Ok {| _poly_ring := 1; _ambient_dim := 1;
          _eq := PySet [const 5]; _lt := PySet []; _le := PySet [] |}
  /\ {| _poly_ring := 1; _ambient_dim := 1;
        _eq := PySet [const 5]; _lt := PySet []; _le := PySet [] |}
     <> collapsed_store 1 1.
Proof. split; [vm_compute; reflexivity | discriminate]. Qed.

(** C2, amended.  At construction, when one of the visited constraints is
    an element of the base ring (not of the polynomial ring) that is
    violated - an equality constant [<> 0], a strict constant [>= 0] or a
    non-strict constant [> 0] - and the constructor returns, it returns the
    canonical unsatisfiable store [1 <= 0] with the equalities and strict
    inequalities cleared. *)
Theorem init_violated_constant_collapses
  (d : option nat) (n : nat) (eq lt le : list elem) (st : store) :
  __init__ d (Some n) eq lt le = Ok st ->
  (exists c, In (Const c) (set_of_list elem_eqb eq) /\ violated KEq c = true) \/
  (exists c, In (Const c) (set_of_list elem_eqb lt) /\ violated KLt c = true) \/
  (exists c, In (Const c) (set_of_list elem_eqb le) /\ violated KLe c = true) ->
  st = collapsed_store n (dim_of d n).
Proof.
  intros H V.
  destruct (init_cases d n eq lt le st H) as [->|(a & b & c & _ & _ & (S1 & S2 & S3))];
    [reflexivity|].
  exfalso. destruct V as [(q & I & V)|[(q & I & V)|(q & I & V)]];
    [rewrite (S1 q I) in V | rewrite (S2 q I) in V | rewrite (S3 q I) in V];
    discriminate.
Qed.

Lemma init_violated_constant_collapses_witness :
  __init__ None (Some 1%nat) [Const 5] [] [InRing (gen 0)] = Ok (collapsed_store 1 1)
  /\ collapsed_store 1 1 = collapsed_store 1 (dim_of None 1).
Proof.
  assert (E : __init__ None (Some 1%nat) [Const 5] [] [InRing (gen 0)]
              = Ok (collapsed_store 1 1)) by (vm_compute; reflexivity).
  split; [exact E|].
  apply (init_violated_constant_collapses None 1 [Const 5] [] [InRing (gen 0)] _ E).
  left. exists 5. split; [left; reflexivity | reflexivity].
Defined.

(** C5, the claim as stated fails: eliminating [x0] from [x0 - x1 = 0] by
    substitution leaves the used equality in the result, as [0 = 0]. *)
Lemma substitution_keeps_zero_equality :
  one_step_elimination
    {| _poly_ring := 2; _ambient_dim := 2;
       _eq := PySet [sub (gen 0) (gen 1)]; _lt := PySet []; _le := PySet [] |} 0
  = Ok {| _poly_ring := 1; _ambient_dim := 1;
          _eq := PySet [zero]; _lt := PySet []; _le := PySet [] |}.
Proof. vm_compute. reflexivity. Qed.

(** C5, amended.  A returning constructor stores no base-ring constant:
    every stored constraint is a ring element of the input, or the [1] of the
    collapsed store.  In the substitution branch of [one_step_elimination]
    the equality used to solve for the variable is not dropped: the result's
    equality set holds a polynomial that is zero everywhere. *)
Theorem constants_dropped_zero_equality_kept
  (d : option nat) (n : nat) (eq lt le : list elem) (st : store) :
  __init__ d (Some n) eq lt le = Ok st ->
  (forall p, In p (items (_eq st)) -> In (InRing p) eq) /\
  (forall p, In p (items (_lt st)) -> In (InRing p) lt) /\
  (forall p, In p (items (_le st)) -> In (InRing p) le \/ p = one) /\
  (forall i r, find_sub i (items (_eq st)) <> None ->
     one_step_elimination st i = Ok r ->
     exists q, In q (items (_eq r)) /\ forall x, eval q x == 0).
Proof.
  intros H. pose proof (init_linear_store _ _ _ _ _ _ H) as L.
  split; [|split; [|split]].
  - destruct (init_cases d n eq lt le st H) as [->|(a & b & c & -> & (Ia & _) & _)];
      cbn [collapsed_store _eq items]; [intros p []|].
    intros p Hp. apply (set_of_list_in elem_eqb), Ia, in_map; exact Hp.
  - destruct (init_cases d n eq lt le st H) as [->|(a & b & c & -> & (_ & Ib & _) & _)];
      cbn [collapsed_store _lt items]; [intros p []|].
    intros p Hp. apply (set_of_list_in elem_eqb), Ib, in_map; exact Hp.
  - destruct (init_cases d n eq lt le st H) as [->|(a & b & c & -> & (_ & _ & Ic) & _)];
      cbn [collapsed_store _le items].
    + intros p [<-|[]]. right; reflexivity.
    + intros p Hp. left. apply (set_of_list_in elem_eqb), Ic, in_map; exact Hp.
  - intros i r F E.
    assert (Hi : (i < _poly_ring st)%nat).
    { unfold one_step_elimination in E.
      destruct (Nat.leb_spec (_poly_ring st) i); [discriminate | assumption]. }
    rewrite (one_step_elimination_ok st i L Hi) in E. injection E as <-.
    cbn [_eq items]. unfold new_constraints.
    destruct (find_sub i (items (_eq st))) as [sb|] eqn:Fs; [|congruence].
    cbn [fst]. destruct (find_sub_some i _ sb Fs) as (e & He & Hc & ->).
    apply linear_store_parts in L as (L1 & _).
    assert (De : (degree e <= 1)%Z) by (rewrite Forall_forall in L1; auto).
    destruct (reduced_keeps i _ _
                (in_map (substitute i (sub (gen i) (div e (monomial_coefficient e i))))
                        _ e He)) as (q & Hq & Ev).
    exists q. split; [exact Hq|]. intros x.
    rewrite Ev, (eval_substitute i x e e De De Hc), (eval_extend i _ e x De).
    field. exact Hc.
Qed.

Lemma constants_dropped_zero_equality_kept_witness :
  __init__ None (Some 2%nat) [InRing (sub (gen 0) (gen 1)); Const 0] [] []
  = Ok {| _poly_ring := 2; _ambient_dim := 2;
          _eq := PySet [sub (gen 0) (gen 1)]; _lt := PySet []; _le := PySet [] |}
  /\ forall i r,
       find_sub i [sub (gen 0) (gen 1)] <> None ->
       one_step_elimination
         {| _poly_ring := 2; _ambient_dim := 2;
            _eq := PySet [sub (gen 0) (gen 1)]; _lt := PySet []; _le := PySet [] |} i
       = Ok r ->
       exists q, In q (items (_eq r)) /\ forall x, eval q x == 0.
Proof.
  assert (E : __init__ None (Some 2%nat) [InRing (sub (gen 0) (gen 1)); Const 0] [] []
    = Ok {| _poly_ring := 2; _ambient_dim := 2;
            _eq := PySet [sub (gen 0) (gen 1)]; _lt := PySet []; _le := PySet [] |})
    by (vm_compute; reflexivity).
  split; [exact E|].
  apply (constants_dropped_zero_equality_kept None 2 _ [] [] _ E).
Defined.

(** The collapsed store has an empty region. *)
Lemma collapsed_store_empty (n dim : nat) (x : assignment) :
  ~ sat (collapsed_store n dim) x.
Proof.
  intros (_ & _ & C). cbn [collapsed_store _le items] in C.
  apply Forall_inv in C. rewrite eval_one in C. lra.
Qed.

(** Eliminating a variable from the collapsed store gives [1 <= 0] over the
    smaller ring. *)
Lemma collapsed_store_elimination (n dim i : nat) :
  (i < n)%nat ->
  one_step_elimination (collapsed_store n dim) i
  = Ok {| _poly_ring := pred n; _ambient_dim := pred n;
          _eq := PySet []; _lt := PySet []; _le := PySet [one] |}.
Proof.
  intros Hi. unfold one_step_elimination. cbn [collapsed_store _poly_ring].
  destruct (Nat.leb_spec n i) as [L|_]; [lia|]. reflexivity.
Qed.

(** What every store reachable from a collapsed one satisfies. *)
Lemma reach_collapsed_invariant (n dim : nat) (s : store) :
  reach (collapsed_store n dim) s ->
  linear_store s /\ forall x, ~ sat s x.
Proof.
  induction 1 as [|s s' lhs op _ [L E] A|s s' v cst op _ [L E] A|s s' i _ [L E] A].
  - split; [|apply collapsed_store_empty].
    unfold linear_store, collapsed_store. cbn. repeat constructor. discriminate.
  - destruct (add_polynomial_constraint_shrinks s s' lhs op A) as (_ & L' & S).
    split; [auto|]. intros x Hx. exact (E x (S x Hx)).
  - destruct (add_linear_constraint_shrinks s s' v cst op A) as (_ & L' & S).
    split; [auto|]. intros x Hx. exact (E x (S x Hx)).
  - split; [exact (one_step_elimination_linear s s' i L A)|].
    assert (Hi : (i < _poly_ring s)%nat).
    { unfold one_step_elimination in A.
      destruct (Nat.leb_spec (_poly_ring s) i); [discriminate | assumption]. }
    intros x Hx. apply (one_step_elimination_region s s' i x L Hi A) in Hx as (v & Hv).
    exact (E _ Hv).
Qed.

(** C6.  From the collapsed state [1 <= 0], every sequence of [add_*] calls
    and elimination steps leads to a store with an empty region; on such a
    store [one_step_elimination] returns, for every index in range, a store
    over the reduced ring with an empty region, and on the collapsed store
    itself it returns [1 <= 0] over the reduced ring. *)
Theorem infeasible_stays_infeasible (n dim : nat) (s : store) :
  reach (collapsed_store n dim) s ->
  (forall x, ~ sat s x) /\
  (forall i, (i < _poly_ring s)%nat ->
     exists r, one_step_elimination s i = Ok r /\
               _poly_ring r = pred (_poly_ring s) /\
               forall x, ~ sat r x) /\
  (forall i, (i < n)%nat ->
     one_step_elimination (collapsed_store n dim) i
     = Ok {| _poly_ring := pred n; _ambient_dim := pred n;
             _eq := PySet []; _lt := PySet []; _le := PySet [one] |}).
Proof.
  intros R. destruct (reach_collapsed_invariant n dim s R) as [L E].
  split; [exact E|]. split; [|intros i; apply collapsed_store_elimination].
  intros i Hi. eexists. split; [apply (one_step_elimination_ok s i L Hi)|].
  split; [reflexivity|]. intros x Hx.
  apply (one_step_elimination_region s _ i x L Hi) in Hx as (v & Hv);
    [exact (E _ Hv) | apply (one_step_elimination_ok s i L Hi)].
Qed.

Lemma infeasible_stays_infeasible_witness :
  let s := {| _poly_ring := 1; _ambient_dim := 1;
              _eq := PySet []; _lt := PySet [];
              _le := PySet [one; gen 0] |} in
  reach (collapsed_store 2 2) s /\
  (forall x, ~ sat s x) /\
  (forall i, (i < _poly_ring s)%nat ->
     exists r, one_step_elimination s i = Ok r /\
               _poly_ring r = pred (_poly_ring s) /\
               forall x, ~ sat r x) /\
  (forall i, (i < 2)%nat ->
     one_step_elimination (collapsed_store 2 2) i
     = Ok {| _poly_ring := 1; _ambient_dim := 1;
             _eq := PySet []; _lt := PySet []; _le := PySet [one] |}).
Proof.
  intros s.
  assert (R : reach (collapsed_store 2 2) s).
  { apply (reach_add_polynomial _
             {| _poly_ring := 1; _ambient_dim := 1;
                _eq := PySet []; _lt := PySet []; _le := PySet [one] |}
             s (InRing (gen 0)) op_le).
    - apply (reach_eliminate _ (collapsed_store 2 2) _ 1%nat).
      + apply reach_start.
      + reflexivity.
    - reflexivity. }
  split; [exact R|]. exact (infeasible_stays_infeasible 2 2 s R).
Defined.

(** *** Membership in the sets of the result *)

Lemma nonzero_Qeq (c c' : Q) : Qeq_bool c c' = true -> nonzero c = nonzero c'.
Proof.
  intros E. apply Qeq_bool_iff in E. unfold nonzero. f_equal.
  destruct (Qeq_bool c 0) eqn:A, (Qeq_bool c' 0) eqn:B; try reflexivity.
  - apply Qeq_bool_iff in A. rewrite E in A. apply Qeq_bool_iff in A. congruence.
  - apply Qeq_bool_iff in B. rewrite <- E in B. apply Qeq_bool_iff in B. congruence.
Qed.

Lemma Qred_Qeq_bool (c c' : Q) :
  Qeq_bool c c' = true -> Qeq_bool (Qred c) (Qred c') = true.
Proof.
  intros E. apply Qeq_bool_iff in E. apply Qeq_bool_iff.
  rewrite !Qred_correct. exact E.
Qed.

Lemma Qplus_Qeq_bool (a a' b b' : Q) :
  Qeq_bool a a' = true -> Qeq_bool b b' = true -> Qeq_bool (a + b) (a' + b') = true.
Proof.
  intros A B. apply Qeq_bool_iff in A, B. apply Qeq_bool_iff. rewrite A, B. reflexivity.
Qed.

Lemma add_term_eqb (m : monomial) (c c' : Q) (q q' : mpoly) :
  Qeq_bool c c' = true -> Poly.eqb q q' = true ->
  Poly.eqb (add_term m c q) (add_term m c' q') = true.
Proof.
  intros Hc. revert q'. induction q as [|[m1 c1] q IH]; intros [|[m1' c1'] q'];
    cbn [Poly.eqb add_term]; try discriminate.
  - intros _. rewrite <- (nonzero_Qeq c c' Hc).
    destruct (nonzero c); cbn [Poly.eqb]; [|reflexivity].
    rewrite mono_eqb_refl, (Qred_Qeq_bool _ _ Hc). reflexivity.
  - intros H. apply andb_true_iff in H as [H Hq].
    apply andb_true_iff in H as [Hm H1]. apply mono_eqb_eq in Hm; subst m1'.
    destruct (mono_compare m m1).
    + rewrite <- (nonzero_Qeq _ _ (Qplus_Qeq_bool _ _ _ _ Hc H1)).
      destruct (nonzero (c + c1)); cbn [Poly.eqb]; [|exact Hq].
      rewrite mono_eqb_refl, (Qred_Qeq_bool _ _ (Qplus_Qeq_bool _ _ _ _ Hc H1)), Hq.
      reflexivity.
    + rewrite <- (nonzero_Qeq c c' Hc).
      destruct (nonzero c); cbn [Poly.eqb];
        rewrite ?mono_eqb_refl, ?(Qred_Qeq_bool _ _ Hc), ?H1, ?Hq; reflexivity.
    + cbn [Poly.eqb]. rewrite mono_eqb_refl, H1, (IH q' Hq). reflexivity.
Qed.

Lemma apply_map_eqb (i : nat) (p p' : mpoly) :
  Poly.eqb p p' = true -> Poly.eqb (apply_map i p) (apply_map i p') = true.
Proof.
  revert p'. induction p as [|[m c] p IH]; intros [|[m' c'] p'];
    cbn [Poly.eqb apply_map]; try discriminate; [reflexivity|].
  intros H. apply andb_true_iff in H as [H Hp].
  apply andb_true_iff in H as [Hm Hc]. apply mono_eqb_eq in Hm; subst m'.
  destruct (mentions i m); [exact (IH p' Hp)|].
  apply add_term_eqb; [exact Hc | exact (IH p' Hp)].
Qed.

Lemma mem_eqb_compat (p p' : mpoly) (s : list mpoly) :
  Poly.eqb p p' = true -> mem Poly.eqb p' s = true -> mem Poly.eqb p s = true.
Proof.
  intros E M. apply existsb_exists in M as (q & Hq & E').
  apply existsb_exists. exists q. split; [exact Hq | exact (eqb_trans _ _ _ E E')].
Qed.

Lemma reduced_mem (i : nat) (l : list mpoly) (p : mpoly) :
  In p l -> mem Poly.eqb (apply_map i p) (reduced i l) = true.
Proof.
  intros Hp. unfold reduced.
  pose proof (set_of_list_mem Poly.eqb eqb_refl l p Hp) as M.
  apply existsb_exists in M as (q & Hq & E).
  apply (mem_eqb_compat _ (apply_map i q)); [apply apply_map_eqb; exact E|].
  apply (set_of_list_mem Poly.eqb eqb_refl). apply in_map; exact Hq.
Qed.

Lemma reduced_in (i : nat) (l : list mpoly) (q : mpoly) :
  In q (reduced i l) -> exists p, In p l /\ q = apply_map i p.
Proof.
  unfold reduced. intros H. apply (set_of_list_in Poly.eqb) in H.
  apply in_map_iff in H as (p & <- & Hp). exists p. split; [|reflexivity].
  apply (set_of_list_in Poly.eqb); exact Hp.
Qed.

(** C4.  In the Fourier-Motzkin branch (no equality has a nonzero coefficient
    on the eliminated variable), the strict set of the result holds the image
    of every combination of a lower and an upper bound of which at least one
    is strict and of every strict inequality without the variable, and
    nothing else; the non-strict set holds the image of every combination of
    two non-strict bounds and of every non-strict inequality without the
    variable, and nothing else; the equalities are carried through. *)
Theorem fourier_motzkin_strictness (s r : store) (i : nat) :
  linear_store s -> (i < _poly_ring s)%nat ->
  find_sub i (items (_eq s)) = None ->
  one_step_elimination s i = Ok r ->
  strictness_placement s r i.
Proof.
  intros L Hi F E. unfold strictness_placement. cbv zeta.
  rewrite (one_step_elimination_ok s i L Hi) in E. injection E as <-.
  unfold new_constraints. rewrite F. cbn [fst snd _eq _lt _le items].
  unfold is_lower, is_upper, is_free in *.
  repeat split.
  - intros l u M. apply reduced_mem. rewrite !in_app_iff, !In_combinations.
    right.
    destruct M as [[Hl Hu]|[[Hl Hu]|[Hl Hu]]];
      [left | right; left | right; right]; exists l, u;
      (split; [apply In_lower; exact Hl | split; [apply In_upper; exact Hu | reflexivity]]).
  - intros l u Hl Hu. apply reduced_mem. rewrite in_app_iff, In_combinations.
    right. exists l, u.
    split; [apply In_lower; exact Hl | split; [apply In_upper; exact Hu | reflexivity]].
  - intros p Hp. apply reduced_mem. rewrite in_app_iff. left.
    apply In_carried; exact Hp.
  - intros p Hp. apply reduced_mem. rewrite in_app_iff. left.
    apply In_carried; exact Hp.
  - intros p Hp. apply reduced_mem; exact Hp.
  - intros q Hq. apply reduced_in in Hq as (p & Hp & ->). exists p.
    split; [reflexivity|]. rewrite !in_app_iff, !In_combinations in Hp.
    destruct Hp as [Hp|[Hp|[Hp|Hp]]].
    + left. apply In_carried; exact Hp.
    + right. destruct Hp as (l & u & Hl & Hu & ->). exists l, u.
      split; [reflexivity|]. left.
      split; [apply In_lower; exact Hl | apply In_upper; exact Hu].
    + right. destruct Hp as (l & u & Hl & Hu & ->). exists l, u.
      split; [reflexivity|]. right; left.
      split; [apply In_lower; exact Hl | apply In_upper; exact Hu].
    + right. destruct Hp as (l & u & Hl & Hu & ->). exists l, u.
      split; [reflexivity|]. right; right.
      split; [apply In_lower; exact Hl | apply In_upper; exact Hu].
  - intros q Hq. apply reduced_in in Hq as (p & Hp & ->). exists p.
    split; [reflexivity|]. rewrite in_app_iff, In_combinations in Hp.
    destruct Hp as [Hp|Hp].
    + left. apply In_carried; exact Hp.
    + right. destruct Hp as (l & u & Hl & Hu & ->). exists l, u.
      split; [reflexivity|].
      split; [apply In_lower; exact Hl | apply In_upper; exact Hu].
Qed.

Lemma fourier_motzkin_strictness_witness :
  let r := {| _poly_ring := 2; _ambient_dim := 2;
              _eq := PySet [];
              _lt := PySet [const (-1)];
              _le := PySet [sub (gen 0) (gen 1)] |} in
  one_step_elimination example_store 0 = Ok r /\
  strictness_placement example_store r 0.
Proof.
  intros r.
  assert (E : one_step_elimination example_store 0 = Ok r) by (vm_compute; reflexivity).
  split; [exact E|].
  apply (fourier_motzkin_strictness example_store r 0).
  - exact example_store_linear.
  - cbn. lia.
  - reflexivity.
  - exact E.
Defined.

(* ================================================================== *)
(** ** The projection driver *)
(* ================================================================== *)

Module Driver.

Lemma index_of_inj (c c' : nat) (names : list nat) (k : nat) :
  index_of c names = Some k -> index_of c' names = Some k -> c = c'.
Proof.
  revert k. induction names as [|a names IH]; intros k; cbn [index_of]; [discriminate|].
  destruct (Nat.eqb_spec a c) as [E|N], (Nat.eqb_spec a c') as [E'|N'].
  - congruence.
  - intros [= <-]. destruct (index_of c' names); discriminate.
  - destruct (index_of c names); [|discriminate]. intros [= <-]. discriminate.
  - destruct (index_of c names) as [j|] eqn:E; [|discriminate].
    destruct (index_of c' names) as [j'|] eqn:E'; [|discriminate].
    cbn [option_map]. intros [= <-] [= ->]. exact (IH j eq_refl eq_refl).
Qed.

Lemma index_of_lt (c : nat) (names : list nat) (k : nat) :
  index_of c names = Some k -> (k < length names)%nat.
Proof.
  revert k. induction names as [|a names IH]; intros k; cbn [index_of length]; [discriminate|].
  destruct (a =? c)%nat; [intros [= <-]; lia|].
  destruct (index_of c names) as [j|]; [|discriminate].
  cbn [option_map]. intros [= <-]. specialize (IH j eq_refl). lia.
Qed.

Lemma index_of_in (c : nat) (names : list nat) :
  In c names -> exists k, index_of c names = Some k.
Proof.
  induction names as [|a names IH]; cbn [index_of]; [intros []|].
  intros H. destruct (Nat.eqb_spec a c) as [->|N]; [eauto|].
  destruct H as [H|H]; [contradiction|].
  destruct (IH H) as (k & ->). cbn [option_map]. eauto.
Qed.

(** Looking a name up after the removal of another position. *)
Lemma index_of_remove_nth (c : nat) (names : list nat) (p q : nat) :
  index_of c names = Some q -> q <> p ->
  index_of c (remove_nth p names)
  = Some (if (p <? q)%nat then (q - 1)%nat else q).
Proof.
  revert p q. induction names as [|a names IH]; intros p q; cbn [index_of]; [discriminate|].
  destruct (Nat.eqb_spec a c) as [->|N].
  - intros [= <-] Hp. destruct p as [|p]; [congruence|].
    cbn [remove_nth index_of]. rewrite Nat.eqb_refl. reflexivity.
  - destruct (index_of c names) as [j|] eqn:E; [|discriminate].
    cbn [option_map]. intros [= <-] Hp. destruct p as [|p]; cbn [remove_nth].
    + rewrite E. cbn. rewrite Nat.sub_0_r. reflexivity.
    + cbn [index_of]. destruct (Nat.eqb_spec a c); [contradiction|].
      rewrite (IH p j eq_refl) by congruence. cbn [option_map].
      change (S p <? S j)%nat with (p <? j)%nat.
      destruct (Nat.ltb_spec p j); [|reflexivity].
      f_equal. lia.
Qed.

Lemma in_remove_nth (c c' : nat) (names : list nat) (k : nat) :
  index_of c names = Some k -> In c' names -> c' <> c ->
  In c' (remove_nth k names).
Proof.
  revert k. induction names as [|a names IH]; intros k; cbn [index_of]; [discriminate|].
  destruct (Nat.eqb_spec a c) as [->|N].
  - intros [= <-] [H|H] Hc; [congruence | exact H].
  - destruct (index_of c names) as [j|] eqn:E; [|discriminate].
    cbn [option_map]. intros [= <-] H Hc. cbn [remove_nth].
    destruct H as [H|H]; [left; exact H | right; exact (IH j eq_refl H Hc)].
Qed.

Lemma length_remove_nth (names : list nat) (k : nat) :
  (k < length names)%nat -> length (remove_nth k names) = pred (length names).
Proof.
  revert k. induction names as [|a names IH]; intros k; cbn [length]; [lia|].
  destruct k as [|k]; cbn [remove_nth length]; [reflexivity|].
  intros H. rewrite IH by lia. lia.
Qed.

Lemma index_of_seq (a n k : nat) :
  (k < n)%nat -> index_of (a + k) (seq a n) = Some k.
Proof.
  revert a k. induction n as [|n IH]; intros a k H; [lia|]. cbn [seq index_of].
  destruct (Nat.eqb_spec a (a + k)) as [E|N].
  - f_equal. lia.
  - destruct k as [|k]; [lia|].
    replace (a + S k)%nat with (S a + k)%nat by lia.
    rewrite IH by lia. reflexivity.
Qed.

Lemma length_update_indices (p : nat) (ps : list nat) :
  length (update_indices p ps) = length ps.
Proof. apply length_map. Qed.

(** The driver's loop, with its resolved and decremented indices, performs
    the eliminations by name. *)
Lemma projection_loop_by_name (cs : list nat) :
  forall (names ps : list nat) (res : store),
    NoDup cs ->
    Forall2 (fun c p => index_of c names = Some p) cs ps ->
    projection_loop (length ps) res ps = eliminate_by_name res names cs.
Proof.
  induction cs as [|c cs IH]; intros names ps res ND F; inversion F as [|? p ? ps' Hc F']; subst.
  - reflexivity.
  - cbn [length projection_loop eliminate_by_name]. rewrite Hc.
    destruct (one_step_elimination res p) as [res'|e]; cbn [bind]; [|reflexivity].
    inversion ND as [|? ? Nin ND']; subst.
    rewrite <- (length_update_indices p ps'). apply IH; [exact ND'|].
    clear IH F ND ND'. induction F' as [|c' q cs ps' Hq F' IHF]; cbn [update_indices map].
    + constructor.
    + constructor.
      * apply index_of_remove_nth; [exact Hq|]. intros ->.
        apply Nin. left. exact (index_of_inj _ _ _ _ Hq Hc).
      * apply IHF. intros H. apply Nin. right; exact H.
Qed.

Lemma eval_mono_ext (m : monomial) (x y : assignment) :
  (forall k, x k == y k) -> eval_mono m x == eval_mono m y.
Proof.
  intros H. induction m as [|k m IH]; cbn [eval_mono]; [reflexivity|].
  rewrite (H k), IH. reflexivity.
Qed.

Lemma eval_ext (p : mpoly) (x y : assignment) :
  (forall k, x k == y k) -> eval p x == eval p y.
Proof.
  intros H. induction p as [|[m c] p IH]; cbn [eval]; [reflexivity|].
  rewrite (eval_mono_ext m x y H), IH. reflexivity.
Qed.

Lemma sat_ext (s : store) (x y : assignment) :
  (forall k, x k == y k) -> sat s x -> sat s y.
Proof.
  intros H (A & B & C). unfold sat. rewrite !Forall_forall in *.
  repeat split; intros p Hp;
    [ specialize (A p Hp) | specialize (B p Hp) | specialize (C p Hp) ];
    rewrite <- (eval_ext p x y H); assumption.
Qed.

Lemma extend_skip (i : nat) (v : Q) (x : assignment) (k : nat) :
  extend i v x (skip i k) = x k.
Proof.
  unfold extend, skip. destruct (Nat.ltb_spec k i) as [L|L].
  - destruct (Nat.ltb_spec k i); [reflexivity | lia].
  - destruct (Nat.ltb_spec (S k) i); [lia|].
    destruct (Nat.eqb_spec (S k) i); [lia | reflexivity].
Qed.

Lemma extend_of_skip (i : nat) (x y : assignment) :
  (forall k, x k == y (skip i k)) -> forall k, extend i (y i) x k == y k.
Proof.
  intros H k. unfold extend. destruct (Nat.ltb_spec k i) as [L|L].
  - rewrite H. unfold skip. destruct (Nat.ltb_spec k i); [reflexivity | lia].
  - destruct (Nat.eqb_spec k i) as [->|N]; [reflexivity|].
    rewrite H. unfold skip. destruct (Nat.ltb_spec (pred k) i); [lia|].
    replace (S (pred k)) with k by lia. reflexivity.
Qed.

Import StepSemantics ElimFacts.

(** The region of a step, in terms of the assignments to all variables. *)
Lemma step_region (s r : store) (i : nat) (x : assignment) :
  linear_store s -> one_step_elimination s i = Ok r ->
  (sat r x <-> exists y, sat s y /\ forall k, x k == y (skip i k)).
Proof.
  intros L E.
  assert (Hi : (i < _poly_ring s)%nat).
  { unfold one_step_elimination in E.
    destruct (Nat.leb_spec (_poly_ring s) i); [discriminate | assumption]. }
  rewrite (one_step_elimination_region s r i x L Hi E). split.
  - intros (v & Hv). exists (extend i v x). split; [exact Hv|].
    intros k. rewrite extend_skip. reflexivity.
  - intros (y & Hy & H). exists (y i).
    apply (sat_ext s y); [|exact Hy].
    intros k. symmetry. apply extend_of_skip; exact H.
Qed.

(** The region of the result of the driver's loop. *)
Lemma loop_region (steps : nat) :
  forall (res r : store) (ps : list nat) (x : assignment),
    linear_store res ->
    projection_loop steps res ps = Ok r ->
    (sat r x <-> exists y, sat res y /\ forall k, x k == y (renaming steps ps k)).
Proof.
  induction steps as [|steps IH]; intros res r ps x L E.
  - cbn in E. injection E as <-. cbn [renaming]. split.
    + intros H. exists x. split; [exact H | reflexivity].
    + intros (y & Hy & H). apply (sat_ext res y); [|exact Hy].
      intros k. symmetry. apply H.
  - destruct ps as [|p ps].
    + cbn in E. injection E as <-. cbn [renaming]. split.
      * intros H. exists x. split; [exact H | reflexivity].
      * intros (y & Hy & H). apply (sat_ext res y); [|exact Hy].
        intros k. symmetry. apply H.
    + cbn [projection_loop] in E.
      destruct (one_step_elimination res p) as [res'|e] eqn:E1; cbn [bind] in E;
        [|discriminate].
      pose proof (one_step_elimination_linear res res' p L E1) as L'.
      rewrite (IH res' r _ x L' E). cbn [renaming]. split.
      * intros (y' & Hy' & H).
        apply (step_region res res' p y' L E1) in Hy' as (y & Hy & H').
        exists y. split; [exact Hy|]. intros k. rewrite H. apply H'.
      * intros (y & Hy & H). exists (fun k => y (skip p k)). split.
        -- apply (step_region res res' p _ L E1). exists y.
           split; [exact Hy | reflexivity].
        -- exact H.
Qed.

(** For distinct names of the ring, the eliminations by name all return. *)
Lemma eliminate_by_name_ok (cs : list nat) :
  forall (names : list nat) (res : store),
    linear_store res -> length names = _poly_ring res ->
    NoDup cs -> incl cs names ->
    exists r, eliminate_by_name res names cs = Ok r.
Proof.
  induction cs as [|c cs IH]; intros names res L Len ND I; cbn [eliminate_by_name].
  - eauto.
  - destruct (index_of_in c names) as (k & Hk); [apply I; left; reflexivity|].
    rewrite Hk. pose proof (index_of_lt c names k Hk) as Lt.
    assert (Hi : (k < _poly_ring res)%nat) by lia.
    rewrite (one_step_elimination_ok res k L Hi). cbn [bind].
    inversion ND as [|? ? Nin ND']; subst.
    apply IH; try assumption.
    + apply (one_step_elimination_linear res _ k L).
      apply (one_step_elimination_ok res k L Hi).
    + cbn [_poly_ring]. rewrite length_remove_nth by exact Lt. congruence.
    + intros c' Hc'. apply (in_remove_nth c c' names k Hk).
      * apply I. right; exact Hc'.
      * intros ->. contradiction.
Qed.

Lemma Forall2_index_of_seq (n : nat) (cs : list nat) :
  (forall c, In c cs -> (c < n)%nat) ->
  Forall2 (fun c p => index_of c (seq 0 n) = Some p) cs cs.
Proof.
  induction cs as [|c cs IH]; intros H; constructor.
  - apply (index_of_seq 0 n c). apply H. left; reflexivity.
  - apply IH. intros c' Hc'. apply H. right; exact Hc'.
Qed.

Lemma forallb_in_range (n : nat) (cs : list nat) :
  (forall c, In c cs -> (c < n)%nat) ->
  forallb (fun c => (c <? n)%nat) cs = true.
Proof.
  intros H. apply forallb_forall. intros c Hc. apply Nat.ltb_lt. auto.
Qed.

(** *** The renaming of the variables that are left *)

Lemma skip_incr (i a b : nat) : (a < b)%nat -> (skip i a < skip i b)%nat.
Proof.
  unfold skip. destruct (Nat.ltb_spec a i), (Nat.ltb_spec b i); lia.
Qed.

Lemma skip_neq (i k : nat) : skip i k <> i.
Proof. unfold skip. destruct (Nat.ltb_spec k i); lia. Qed.

Lemma update_skip (i k : nat) :
  (if (i <? skip i k)%nat then (skip i k - 1)%nat else skip i k) = k.
Proof.
  unfold skip. destruct (Nat.ltb_spec k i).
  - destruct (Nat.ltb_spec i k); lia.
  - destruct (Nat.ltb_spec i (S k)); lia.
Qed.

Lemma skip_update (i m : nat) :
  m <> i -> skip i (if (i <? m)%nat then (m - 1)%nat else m) = m.
Proof.
  intros H. unfold skip. destruct (Nat.ltb_spec i m).
  - destruct (Nat.ltb_spec (m - 1) i); lia.
  - destruct (Nat.ltb_spec m i); lia.
Qed.

Lemma in_update_indices (p m : nat) (rest : list nat) :
  ~ In p rest -> m <> p ->
  (In (if (p <? m)%nat then (m - 1)%nat else m) (update_indices p rest) <-> In m rest).
Proof.
  intros Np Hm. unfold update_indices. rewrite in_map_iff. split.
  - intros (q & E & Hq). assert (q <> p) by (intros ->; contradiction).
    apply (f_equal (skip p)) in E. rewrite !skip_update in E by assumption.
    subst q. exact Hq.
  - intros H. exists m. split; [reflexivity | exact H].
Qed.

Lemma NoDup_update_indices (p : nat) (rest : list nat) :
  NoDup (p :: rest) -> NoDup (update_indices p rest).
Proof.
  intros ND. inversion ND as [|? ? Np ND']; subst.
  apply NoDup_map_NoDup_ForallPairs; [|exact ND'].
  intros a b Ha Hb E.
  assert (a <> p) by (intros ->; contradiction).
  assert (b <> p) by (intros ->; contradiction).
  apply (f_equal (skip p)) in E. rewrite !skip_update in E by assumption. exact E.
Qed.

Lemma renaming_incr (steps : nat) :
  forall (ps : list nat) (a b : nat),
    (a < b)%nat -> (renaming steps ps a < renaming steps ps b)%nat.
Proof.
  induction steps as [|steps IH]; intros ps a b H; cbn [renaming]; [exact H|].
  destruct ps as [|p ps]; [exact H|]. apply skip_incr, IH, H.
Qed.

(** The variables left are those that were not eliminated. *)
Lemma renaming_image (n : nat) :
  forall (ps : list nat) (m : nat),
    length ps = n -> NoDup ps ->
    ((exists k, renaming n ps k = m) <-> ~ In m ps).
Proof.
  induction n as [|n IH]; intros ps m Len ND.
  - destruct ps; [|discriminate]. cbn [renaming]. split; [intros _ []|eauto].
  - destruct ps as [|p rest]; [discriminate|]. cbn [renaming].
    cbn [length] in Len. apply Nat.succ_inj in Len.
    rewrite <- (length_update_indices p rest) in Len.
    pose proof (NoDup_update_indices p rest ND) as ND'.
    apply NoDup_cons_iff in ND as [Np _]. split.
    + intros (k & <-) [E|I].
      * symmetry in E. exact (skip_neq _ _ E).
      * apply (in_update_indices p _ rest Np (skip_neq _ _)) in I.
        rewrite update_skip in I.
        apply (proj1 (IH _ _ Len ND') (ex_intro _ k eq_refl)). exact I.
    + intros N.
      assert (Hm : m <> p) by (intros ->; apply N; left; reflexivity).
      destruct (proj2 (IH (update_indices p rest)
                          (if (p <? m)%nat then (m - 1)%nat else m) Len ND'))
        as (k & Hk).
      * intros I. apply (in_update_indices p m rest Np Hm) in I.
        apply N. right; exact I.
      * exists k. rewrite Hk. apply skip_update; exact Hm.
Qed.

Lemma incr_reflect (g : nat -> nat) :
  (forall a b, (a < b)%nat -> (g a < g b)%nat) ->
  forall a b, (g a < g b)%nat -> (a < b)%nat.
Proof.
  intros G a b H. destruct (Nat.lt_trichotomy a b) as [L|[->|L]]; [exact L|lia|].
  specialize (G b a L). lia.
Qed.

Lemma incr_below (f g : nat -> nat) :
  (forall a b, (a < b)%nat -> (f a < f b)%nat) ->
  (forall a b, (a < b)%nat -> (g a < g b)%nat) ->
  (forall k, exists j, g j = f k) ->
  forall k, (g k <= f k)%nat.
Proof.
  intros F G I.
  assert (J : forall k, exists j, g j = f k /\ (k <= j)%nat).
  { induction k as [|k (j' & E' & L')].
    - destruct (I 0%nat) as (j & E). exists j. split; [exact E | lia].
    - destruct (I (S k)) as (j & E). exists j. split; [exact E|].
      assert (g j' < g j)%nat by (rewrite E, E'; apply F; lia).
      pose proof (incr_reflect g G j' j H). lia. }
  intros k. destruct (J k) as (j & E & L). rewrite <- E.
  destruct (Nat.eq_dec k j) as [->|N]; [lia|].
  assert (k < j)%nat by lia. specialize (G k j H). lia.
Qed.

(** Two increasing enumerations of the same set are equal. *)
Lemma incr_unique (f g : nat -> nat) :
  (forall a b, (a < b)%nat -> (f a < f b)%nat) ->
  (forall a b, (a < b)%nat -> (g a < g b)%nat) ->
  (forall m, (exists k, f k = m) <-> (exists k, g k = m)) ->
  forall k, f k = g k.
Proof.
  intros F G I k.
  assert (g k <= f k)%nat.
  { apply incr_below; try assumption. intros k'. apply I. eauto. }
  assert (f k <= g k)%nat.
  { apply incr_below; try assumption. intros k'. apply I. eauto. }
  lia.
Qed.

(** The renaming depends on the set of targets only. *)
Lemma renaming_permutation (cs cs' : list nat) :
  NoDup cs -> Permutation cs cs' ->
  forall k, renaming (length cs) cs k = renaming (length cs') cs' k.
Proof.
  intros ND P. assert (ND' : NoDup cs') by (eapply Permutation_NoDup; eassumption).
  apply incr_unique; try apply renaming_incr.
  intros m. rewrite (renaming_image _ cs m eq_refl ND),
    (renaming_image _ cs' m eq_refl ND').
  split; intros N H; apply N.
  - apply (Permutation_in m (Permutation_sym P)); exact H.
  - apply (Permutation_in m P); exact H.
Qed.

End Driver.

Import Driver.

Lemma coordinate_projection_loop (s : store) (cs : list nat) :
  (forall c, In c cs -> (c < _poly_ring s)%nat) ->
  coordinate_projection s cs = projection_loop (length cs) s cs.
Proof.
  intros H. unfold coordinate_projection.
  rewrite (forallb_in_range _ cs H). reflexivity.
Qed.

(** C8.  The driver resolves the targets once, against the original ring,
    and after each step decrements the remaining resolved indices greater
    than the one removed ([projection_loop] with [update_indices]); for
    distinct targets of the ring its result is the sequential composition of
    [one_step_elimination] on each named variable, in the given order, each
    looked up by name in the ring of the current store. *)
Theorem coordinate_projection_sequential (s : store) (cs : list nat) :
  NoDup cs -> (forall c, In c cs -> (c < _poly_ring s)%nat) ->
  coordinate_projection s cs
  = eliminate_by_name s (seq 0 (_poly_ring s)) cs.
Proof.
  intros ND H. rewrite (coordinate_projection_loop s cs H).
  apply projection_loop_by_name; [exact ND|].
  apply Forall2_index_of_seq; exact H.
Qed.

Lemma coordinate_projection_sequential_witness :
  coordinate_projection example_store [2%nat; 0%nat]
  = eliminate_by_name example_store (seq 0 (_poly_ring example_store)) [2%nat; 0%nat].
Proof.
  apply (coordinate_projection_sequential example_store [2%nat; 0%nat]).
  - repeat constructor; cbn; intuition discriminate.
  - cbn. intros c [<-|[<-|[]]]; lia.
Defined.

(** For distinct targets of the ring the driver returns. *)
Lemma coordinate_projection_ok (s : store) (cs : list nat) :
  linear_store s -> NoDup cs -> (forall c, In c cs -> (c < _poly_ring s)%nat) ->
  exists r, coordinate_projection s cs = Ok r.
Proof.
  intros L ND H. rewrite (coordinate_projection_loop s cs H).
  rewrite (projection_loop_by_name cs (seq 0 (_poly_ring s)) cs s ND
             (Forall2_index_of_seq _ cs H)).
  apply eliminate_by_name_ok; try assumption.
  - apply length_seq.
  - intros c Hc. apply in_seq. specialize (H c Hc). lia.
Qed.

(** C3.  For a store and distinct target variables of its ring,
    [coordinate_projection] returns for every order of the targets, and the
    results of two orders have the same satisfying assignments over the
    remaining variables. *)
Theorem coordinate_projection_order_independent (s : store) (cs cs' : list nat) :
  linear_store s -> NoDup cs ->
  (forall c, In c cs -> (c < _poly_ring s)%nat) ->
  Permutation cs cs' ->
  exists r r',
    coordinate_projection s cs = Ok r /\
    coordinate_projection s cs' = Ok r' /\
    forall x, sat r x <-> sat r' x.
Proof.
  intros L ND H P.
  assert (ND' : NoDup cs') by (eapply Permutation_NoDup; eassumption).
  assert (H' : forall c, In c cs' -> (c < _poly_ring s)%nat).
  { intros c Hc. apply H. apply (Permutation_in c (Permutation_sym P)); exact Hc. }
  destruct (coordinate_projection_ok s cs L ND H) as (r & E).
  destruct (coordinate_projection_ok s cs' L ND' H') as (r' & E').
  exists r, r'. split; [exact E|]. split; [exact E'|]. intros x.
  rewrite (coordinate_projection_loop s cs H) in E.
  rewrite (coordinate_projection_loop s cs' H') in E'.
  rewrite (loop_region _ s r cs x L E), (loop_region _ s r' cs' x L E').
  split; intros (y & Hy & K); exists y; (split; [exact Hy|]); intros k;
    rewrite K; [rewrite (renaming_permutation cs cs' ND P k)
               | rewrite <- (renaming_permutation cs cs' ND P k)]; reflexivity.
Qed.

Lemma coordinate_projection_order_independent_witness :
  exists r r',
    coordinate_projection example_store [0%nat; 2%nat] = Ok r /\
    coordinate_projection example_store [2%nat; 0%nat] = Ok r' /\
    forall x, sat r x <-> sat r' x.
Proof.
  apply (coordinate_projection_order_independent example_store [0%nat; 2%nat]).
  - exact example_store_linear.
  - repeat constructor; cbn; intuition discriminate.
  - cbn. intros c [<-|[<-|[]]]; lia.
  - apply perm_swap.
Defined.

(* ================================================================== *)
(** ** Further properties: adding constraints *)
(* ================================================================== *)

Lemma Forall_set_add_iff (P : mpoly -> Prop) (p : mpoly) (s : list mpoly) :
  (forall a b, Poly.eqb a b = true -> P b -> P a) ->
  (Forall P (set_add Poly.eqb p s) <-> Forall P s /\ P p).
Proof.
  intros HP. unfold set_add. destruct (mem Poly.eqb p s) eqn:M.
  - split; [|tauto]. intros H. split; [exact H|].
    apply existsb_exists in M as (q & Hq & E).
    rewrite Forall_forall in H. exact (HP p q E (H q Hq)).
  - rewrite Forall_app. split.
    + intros [H1 H2]. split; [exact H1 | exact (Forall_inv H2)].
    + intros [H1 H2]. split; [exact H1 | constructor; [exact H2 | constructor]].
Qed.

Lemma eval_resp (P : Q -> Prop) (x : assignment) :
  (forall a b, a == b -> P b -> P a) ->
  forall p q, Poly.eqb p q = true -> P (eval q x) -> P (eval p x).
Proof. intros HP p q E. apply HP. apply eqb_eval; exact E. Qed.

Lemma add_polynomial_constraint_sat
  (s s' : store) (lhs : elem) (op : operator) (x : assignment) :
  add_polynomial_constraint s lhs op = Ok s' ->
  (sat s' x <-> sat s x /\ op_holds op (elem_value lhs x)).
Proof.
  unfold add_polynomial_constraint, elem_value.
  destruct (1 <? degree (coerce lhs))%Z; [discriminate|].
  destruct op; try discriminate;
    [ destruct (_lt s) as [l|] eqn:E | destruct (_lt s) as [l|] eqn:E
    | destruct (_eq s) as [l|] eqn:E | destruct (_le s) as [l|] eqn:E
    | destruct (_le s) as [l|] eqn:E ];
    cbn [coll_add bind]; try discriminate; intros [= <-];
    unfold sat; cbn [_eq _lt _le items op_holds]; rewrite E; cbn [items].
  - rewrite (Forall_set_add_iff _ _ _ (eval_resp (fun a => a < 0) x (Qlt_resp 0))).
    tauto.
  - rewrite (Forall_set_add_iff _ _ _ (eval_resp (fun a => a < 0) x (Qlt_resp 0))).
    rewrite eval_neg.
    assert (- eval (coerce lhs) x < 0 <-> 0 < eval (coerce lhs) x) by (split; lra).
    tauto.
  - rewrite (Forall_set_add_iff _ _ _ (eval_resp (fun a => a == 0) x (Qeq_resp 0))).
    tauto.
  - rewrite (Forall_set_add_iff _ _ _ (eval_resp (fun a => a <= 0) x (Qle_resp 0))).
    tauto.
  - rewrite (Forall_set_add_iff _ _ _ (eval_resp (fun a => a <= 0) x (Qle_resp 0))).
    rewrite eval_neg.
    assert (- eval (coerce lhs) x <= 0 <-> 0 <= eval (coerce lhs) x) by (split; lra).
    tauto.
Qed.

(** X1.  A call of [add_polynomial_constraint] that returns has added
    exactly the constraint [lhs op 0]: the new region is the old one cut by
    it, for each of the five operators ([>] and [>=] through the negated
    polynomial). *)
Theorem add_polynomial_constraint_region
  (s s' : store) (lhs : elem) (op : operator) (x : assignment) :
  add_polynomial_constraint s lhs op = Ok s' ->
  (sat s' x <-> sat s x /\ op_holds op (elem_value lhs x)).
Proof. apply add_polynomial_constraint_sat. Qed.

Lemma add_polynomial_constraint_region_witness :
  sat {| _poly_ring := 1; _ambient_dim := 1;
         _eq := PySet []; _lt := PySet [neg (gen 0)]; _le := PySet [] |}
      (fun _ => 1)
  <-> sat {| _poly_ring := 1; _ambient_dim := 1;
             _eq := PySet []; _lt := PySet []; _le := PySet [] |} (fun _ => 1)
      /\ op_holds op_gt (elem_value (InRing (gen 0)) (fun _ => 1)).
Proof.
  apply (add_polynomial_constraint_region
           {| _poly_ring := 1; _ambient_dim := 1;
              _eq := PySet []; _lt := PySet []; _le := PySet [] |}
           _ (InRing (gen 0)) op_gt (fun _ => 1)).
  reflexivity.
Defined.


(** X3.  The constraint collections are sets: adding the same constraint a
    second time changes nothing. *)
Theorem add_polynomial_constraint_idempotent (s s' : store) (lhs : elem) (op : operator) :
  add_polynomial_constraint s lhs op = Ok s' ->
  add_polynomial_constraint s' lhs op = Ok s'.
Proof.
  assert (K : forall p l, set_add Poly.eqb p (set_add Poly.eqb p l) = set_add Poly.eqb p l).
  { intros p l. unfold set_add at 1.
    rewrite (set_add_mem Poly.eqb eqb_refl p p l (or_intror eq_refl)). reflexivity. }
  unfold add_polynomial_constraint.
  destruct (1 <? degree (coerce lhs))%Z; [discriminate|].
  destruct op; try discriminate;
    [ destruct (_lt s) as [l|] eqn:E | destruct (_lt s) as [l|] eqn:E
    | destruct (_eq s) as [l|] eqn:E | destruct (_le s) as [l|] eqn:E
    | destruct (_le s) as [l|] eqn:E ];
    cbn [coll_add bind]; try discriminate; intros [= <-];
    cbn [_poly_ring _ambient_dim _eq _lt _le coll_add bind]; rewrite K; reflexivity.
Qed.

Lemma add_polynomial_constraint_idempotent_witness :
  add_polynomial_constraint
    {| _poly_ring := 1; _ambient_dim := 1;
       _eq := PySet []; _lt := PySet []; _le := PySet [neg (gen 0)] |}
    (InRing (gen 0)) op_ge
  = Ok {| _poly_ring := 1; _ambient_dim := 1;
          _eq := PySet []; _lt := PySet []; _le := PySet [neg (gen 0)] |}.
Proof.
  apply (add_polynomial_constraint_idempotent
           {| _poly_ring := 1; _ambient_dim := 1;
              _eq := PySet []; _lt := PySet []; _le := PySet [] |}
           _ (InRing (gen 0)) op_ge).
  reflexivity.
Defined.

Lemma eval_linear_form (v : list Q) (i : nat) (x : assignment) :
  eval (linear_form i v) x == dot v i x.
Proof.
  revert i. induction v as [|a v IH]; intros i; cbn [linear_form dot].
  - reflexivity.
  - rewrite eval_add, eval_scale, eval_gen, IH. reflexivity.
Qed.

Lemma degree_linear_form (v : list Q) (i : nat) : (degree (linear_form i v) <= 1)%Z.
Proof.
  revert i. induction v as [|a v IH]; intros i; cbn [linear_form].
  - cbn. lia.
  - etransitivity; [apply degree_add|]. specialize (IH (S i)).
    pose proof (degree_scale a (gen i)). cbn [gen degree length] in *. lia.
Qed.

Lemma degree_linear_constraint (v : list Q) (cst : Q) :
  (degree (add (linear_form 0 v) (const cst)) <= 1)%Z.
Proof.
  etransitivity; [apply degree_add|]. pose proof (degree_linear_form v 0).
  unfold const. destruct (nonzero cst); cbn [degree length]; lia.
Qed.

(** X4.  A call of [add_linear_constraint] that returns has added exactly
    the constraint [lhs_vector * x + cst op 0].  (The dimension is at most
    the number of generators, so that every [gens()[i]] exists.) *)
Theorem add_linear_constraint_region
  (s s' : store) (v : list Q) (cst : Q) (op : operator) (x : assignment) :
  (_ambient_dim s <= _poly_ring s)%nat ->
  add_linear_constraint s v cst op = Ok s' ->
  (sat s' x <-> sat s x /\ op_holds op (dot v 0 x + cst)).
Proof.
  intros _. unfold add_linear_constraint.
  destruct (negb (length v =? _ambient_dim s)%nat); [discriminate|].
  intros H. rewrite (add_polynomial_constraint_sat s s' _ op x H).
  unfold elem_value. cbn [coerce].
  assert (E : eval (add (linear_form 0 v) (const cst)) x == dot v 0 x + cst)
    by (rewrite eval_add, eval_linear_form, eval_const; reflexivity).
  destruct op; cbn [op_holds]; try rewrite E; reflexivity.
Qed.

Lemma add_linear_constraint_region_witness :
  sat {| _poly_ring := 2; _ambient_dim := 2; _eq := PySet []; _lt := PySet [];
         _le := PySet [neg (add (linear_form 0 [1; -1]) (const 3))] |}
      (fun _ => 1)
  <-> sat {| _poly_ring := 2; _ambient_dim := 2;
             _eq := PySet []; _lt := PySet []; _le := PySet [] |} (fun _ => 1)
      /\ op_holds op_ge (dot [1; -1] 0 (fun _ => 1) + 3).
Proof.
  apply (add_linear_constraint_region
           {| _poly_ring := 2; _ambient_dim := 2;
              _eq := PySet []; _lt := PySet []; _le := PySet [] |}
           _ [1; -1] 3 op_ge (fun _ => 1)).
  - cbn. lia.
  - reflexivity.
Defined.

(** X5.  [add_linear_constraint] raises the length error exactly when the
    vector's length differs from the ambient dimension, and never the degree
    error: the expression it builds is linear. *)
Theorem add_linear_constraint_errors (s : store) (v : list Q) (cst : Q) (op : operator) :
  (add_linear_constraint s v cst op = Err ValueError_length
   <-> length v <> _ambient_dim s) /\
  add_linear_constraint s v cst op <> Err ValueError_linear.
Proof.
  unfold add_linear_constraint.
  destruct (Nat.eqb_spec (length v) (_ambient_dim s)) as [E|N]; cbn [negb].
  - split.
    + split; [|congruence]. unfold add_polynomial_constraint.
      destruct (1 <? _)%Z; [discriminate|].
      destruct op; try discriminate;
        [ destruct (_lt s) | destruct (_lt s) | destruct (_eq s)
        | destruct (_le s) | destruct (_le s) ]; cbn [coll_add bind]; discriminate.
    + unfold add_polynomial_constraint. cbn [coerce].
      destruct (Z.ltb_spec 1 (degree (add (linear_form 0 v) (const cst)))) as [D|D].
      * pose proof (degree_linear_constraint v cst). lia.
      * destruct op; try discriminate;
          [ destruct (_lt s) | destruct (_lt s) | destruct (_eq s)
          | destruct (_le s) | destruct (_le s) ]; cbn [coll_add bind]; discriminate.
  - split; [tauto | discriminate].
Qed.

(* ================================================================== *)
(** ** Further properties: the constructor *)
(* ================================================================== *)

Lemma holds_resp (k : kind) (a b : Q) : a == b -> holds k b -> holds k a.
Proof. intros E. destruct k; cbn [holds]; rewrite E; auto. Qed.

Lemma violated_holds (k : kind) (c : Q) : violated k c = false <-> holds k c.
Proof.
  destruct k; cbn [violated holds].
  - rewrite negb_false_iff. apply Qeq_bool_iff.
  - split; intros H.
    + apply Qnot_le_lt. intros L. apply Qle_bool_iff in L. congruence.
    + destruct (Qle_bool 0 c) eqn:E; [|reflexivity]. apply Qle_bool_iff in E. lra.
  - rewrite negb_false_iff. apply Qle_bool_iff.
Qed.

Lemma violated_not_holds (k : kind) (c : Q) (x : assignment) :
  violated k c = true -> ~ holds k (elem_value (Const c) x).
Proof.
  intros V H. unfold elem_value in H. cbn [coerce] in H.
  apply (holds_resp k c) in H; [|symmetry; apply eval_const].
  apply violated_holds in H. congruence.
Qed.

Lemma elem_eqb_value (e e' : elem) (x : assignment) :
  elem_eqb e e' = true -> elem_value e x == elem_value e' x.
Proof.
  unfold elem_value. destruct e as [c|p], e' as [c'|p']; cbn [elem_eqb];
    try apply eqb_eval.
  intros H. apply Qeq_bool_iff in H. cbn [coerce]. rewrite !eval_const. exact H.
Qed.

(** What a loop of the constructor does to its collection: it collapses on
    a violated constant, or removes only elements equal to a satisfied one. *)
Lemma constant_loop_trace (k : kind) (it : list elem) (t t' : temps) (s : list elem) :
  constant_loop k it t = Ok t' ->
  temp_get k t = PySet s ->
  (t' = collapsed /\ exists c, In (Const c) it /\ violated k c = true) \/
  (exists s', t' = temp_set k (PySet s') t /\ incl s' s /\
     forall e, In e s ->
       In e s' \/
       exists c, In (Const c) it /\ violated k c = false /\
                 elem_eqb (Const c) e = true).
Proof.
  revert t s. induction it as [|[c|p] it IH]; intros t s; cbn [constant_loop].
  - intros [= <-] G. right. exists s. rewrite <- G, temp_set_get.
    repeat split; [apply incl_refl | auto].
  - destruct (violated k c) eqn:V.
    + intros H _. left. split; [exact (constant_loop_collapsed k it t' H)|].
      exists c. split; [left; reflexivity | exact V].
    + intros H G. rewrite G in H. cbn [coll_remove] in H.
      unfold set_remove in H.
      destruct (mem elem_eqb (Const c) s); cbn [bind] in H; [|discriminate].
      set (s1 := filter (fun y => negb (elem_eqb (Const c) y)) s) in *.
      destruct (IH _ s1 H (temp_get_set _ _ _))
        as [(C & c' & I & V')|(s' & E & I & K)].
      * left. split; [exact C|]. exists c'. split; [right; exact I | exact V'].
      * right. exists s'. rewrite temp_set_set in E. repeat split; [exact E| |].
        -- intros e He. apply I in He. apply filter_In in He as [He _]. exact He.
        -- intros e He. destruct (elem_eqb (Const c) e) eqn:Q.
           ++ right. exists c. split; [left; reflexivity | auto].
           ++ assert (Hs : In e s1) by (apply filter_In; rewrite Q; auto).
              destruct (K e Hs) as [A|(c' & I' & V' & Q')]; [left; exact A|].
              right. exists c'. split; [right; exact I' | auto].
  - intros H G. destruct (IH t s H G) as [(C & c' & I & V')|(s' & E & I & K)].
    + left. split; [exact C|]. exists c'. split; [right; exact I | exact V'].
    + right. exists s'. repeat split; [exact E | exact I |].
      intros e He. destruct (K e He) as [A|(c' & I' & V' & Q')]; [left; exact A|].
      right. exists c'. split; [right; exact I' | auto].
Qed.

(** The elements that a loop keeps say as much as the list given. *)
Lemma kept_elements (k : kind) (l s' : list elem) (a : list mpoly) (x : assignment) :
  incl s' (set_of_list elem_eqb l) ->
  (forall e, In e (set_of_list elem_eqb l) ->
     In e s' \/
     exists c, In (Const c) (set_of_list elem_eqb l) /\ violated k c = false /\
               elem_eqb (Const c) e = true) ->
  s' = map InRing a ->
  (Forall (fun p => holds k (eval p x)) a
   <-> Forall (fun e => holds k (elem_value e x)) l).
Proof.
  intros I K ->. rewrite !Forall_forall. split.
  - intros H e He.
    pose proof (set_of_list_mem elem_eqb elem_eqb_refl l e He) as M.
    apply existsb_exists in M as (e' & He' & Q).
    apply (holds_resp k _ _ (elem_eqb_value e e' x Q)).
    destruct (K e' He') as [A|(c & _ & V & Q')].
    + apply in_map_iff in A as (p & <- & Hp). exact (H p Hp).
    + apply (holds_resp k _ (elem_value (Const c) x)).
      * symmetry. apply elem_eqb_value; exact Q'.
      * apply (holds_resp k _ c); [apply eval_const | apply violated_holds; exact V].
  - intros H p Hp. apply (H (InRing p)).
    apply (set_of_list_in elem_eqb), I, in_map; exact Hp.
Qed.

(** X6.  A returning constructor represents exactly the conjunction of the
    constraints it was given, a base-ring constant [c] standing for [c = 0],
    [c < 0] or [c <= 0]: dropping the satisfied constants, the duplicates
    and, on a violated constant, everything but [1 <= 0] does not change the
    region. *)
Theorem init_region (d : option nat) (n : nat) (eq lt le : list elem) (st : store)
  (x : assignment) :
  __init__ d (Some n) eq lt le = Ok st ->
  (sat st x <->
   Forall (fun e => holds KEq (elem_value e x)) eq /\
   Forall (fun e => holds KLt (elem_value e x)) lt /\
   Forall (fun e => holds KLe (elem_value e x)) le).
Proof.
  unfold __init__.
  destruct (existsb _ (eq ++ lt ++ le)); [discriminate|].
  destruct (negb (is_empty (eq ++ lt ++ le)) && _); [discriminate|].
  destruct (constant_loop KEq _ _) as [t1|e1] eqn:E1; cbn [bind]; [|discriminate].
  destruct (constant_loop KLt _ _) as [t2|e2] eqn:E2; cbn [bind]; [|discriminate].
  destruct (constant_loop KLe _ _) as [t3|e3] eqn:E3; cbn [bind]; [|discriminate].
  assert (Empty : forall k l c,
            In (Const c) (set_of_list elem_eqb l) -> violated k c = true ->
            ~ Forall (fun e => holds k (elem_value e x)) l).
  { intros k l c I V F. rewrite Forall_forall in F.
    apply (violated_not_holds k c x V). apply F.
    apply (set_of_list_in elem_eqb); exact I. }
  assert (Coll : ring_elements (temp_eq collapsed) = Ok PyDict /\
                 ring_elements (temp_lt collapsed) = Ok PyDict /\
                 ring_elements (temp_le collapsed) = Ok (PySet [one]))
    by (repeat split; reflexivity).
  destruct Coll as (C1 & C2 & C3).
  assert (No : forall dim, ~ sat {| _poly_ring := n; _ambient_dim := dim;
                 _eq := PyDict; _lt := PyDict; _le := PySet [one] |} x).
  { intros dim. apply (collapsed_store_empty n dim x). }
  destruct (constant_loop_trace KEq _ _ t1 _ E1 eq_refl)
    as [(-> & c & I & V)|(s1 & -> & I1 & K1)].
  { apply constant_loop_collapsed in E2; subst t2.
    apply constant_loop_collapsed in E3; subst t3.
    rewrite C1, C2, C3. cbn [bind]. intros [= <-].
    split; [intros H; destruct (No _ H) | intros (F & _); destruct (Empty _ _ _ I V F)]. }
  destruct (constant_loop_trace KLt _ _ t2 _ E2 eq_refl)
    as [(-> & c & I & V)|(s2 & -> & I2 & K2)].
  { apply constant_loop_collapsed in E3; subst t3.
    rewrite C1, C2, C3. cbn [bind]. intros [= <-].
    split; [intros H; destruct (No _ H) | intros (_ & F & _); destruct (Empty _ _ _ I V F)]. }
  destruct (constant_loop_trace KLe _ _ t3 _ E3 eq_refl)
    as [(-> & c & I & V)|(s3 & -> & I3 & K3)].
  { rewrite C1, C2, C3. cbn [bind]. intros [= <-].
    split; [intros H; destruct (No _ H) | intros (_ & _ & F); destruct (Empty _ _ _ I V F)]. }
  cbn [temp_set temp_eq temp_lt temp_le ring_elements].
  destruct (ring_list s1) as [a|] eqn:R1; cbn [bind]; [|discriminate].
  destruct (ring_list s2) as [b|] eqn:R2; cbn [bind]; [|discriminate].
  destruct (ring_list s3) as [c|] eqn:R3; cbn [bind]; [|discriminate].
  apply ring_list_ok in R1, R2, R3. intros [= <-].
  unfold sat. cbn [_eq _lt _le items].
  rewrite <- (kept_elements KEq eq s1 a x I1 K1 R1).
  rewrite <- (kept_elements KLt lt s2 b x I2 K2 R2).
  rewrite <- (kept_elements KLe le s3 c x I3 K3 R3).
  reflexivity.
Qed.

Lemma init_region_witness :
  sat {| _poly_ring := 1; _ambient_dim := 1;
         _eq := PySet []; _lt := PySet []; _le := PySet [gen 0] |} (fun _ => -1)
  <-> Forall (fun e => holds KEq (elem_value e (fun _ => -1))) [Const 0] /\
      Forall (fun e => holds KLt (elem_value e (fun _ => -1))) [] /\
      Forall (fun e => holds KLe (elem_value e (fun _ => -1)))
             [InRing (gen 0); Const (-3); InRing (gen 0)].
Proof.
  apply (init_region None 1 [Const 0] []
           [InRing (gen 0); Const (-3); InRing (gen 0)] _ (fun _ => -1)).
  vm_compute. reflexivity.
Defined.




(** Once collapsed, a loop that meets a satisfied constant raises. *)
Lemma constant_loop_collapsed_satisfied (k : kind) (it : list elem) (c : Q) :
  In (Const c) it -> violated k c = false ->
  forall t', constant_loop k it collapsed <> Ok t'.
Proof.
  intros I V t'. induction it as [|[c0|p] it IH]; cbn [constant_loop].
  - destruct I.
  - destruct (violated k c0) eqn:V0.
    + apply IH. destruct I as [[= ->]|I]; [congruence | exact I].
    + destruct k; cbn [temp_get collapsed temp_eq temp_lt temp_le coll_remove bind];
        try discriminate.
      unfold set_remove, mem. cbn [existsb]. rewrite (satisfied_not_one c0 V0).
      cbn [orb bind]. discriminate.
  - apply IH. destruct I as [[=]|I]. exact I.
Qed.

(** X8.  The constructor does not return when a constant of an earlier list
    is violated and a later list holds a satisfied constant: after the
    collapse the working collections are dicts, or the set [{1}], and the
    removal of the satisfied constant raises. *)
Theorem init_collapse_then_satisfied_raises
  (d pr : option nat) (eq lt le : list elem) (st : store) :
  ((exists c, In (Const c) (set_of_list elem_eqb eq) /\ violated KEq c = true) /\
   ((exists c, In (Const c) (set_of_list elem_eqb lt) /\ violated KLt c = false) \/
    (exists c, In (Const c) (set_of_list elem_eqb le) /\ violated KLe c = false))) \/
  ((exists c, In (Const c) (set_of_list elem_eqb lt) /\ violated KLt c = true) /\
   (exists c, In (Const c) (set_of_list elem_eqb le) /\ violated KLe c = false)) ->
  __init__ d pr eq lt le <> Ok st.
Proof.
  intros H. unfold __init__. destruct pr as [n|]; [|discriminate].
  destruct (existsb _ (eq ++ lt ++ le)); [discriminate|].
  destruct (negb (is_empty (eq ++ lt ++ le)) && _); [discriminate|].
  destruct (constant_loop KEq _ _) as [t1|e1] eqn:E1; cbn [bind]; [|discriminate].
  destruct (constant_loop KLt _ _) as [t2|e2] eqn:E2; cbn [bind]; [|discriminate].
  destruct (constant_loop KLe _ _) as [t3|e3] eqn:E3; cbn [bind]; [|discriminate].
  exfalso. destruct H as [(V & [(c & I & S)|(c & I & S)])|(V & (c & I & S))].
  - pose proof (constant_loop_violated KEq _ _ t1 E1 V); subst t1.
    exact (constant_loop_collapsed_satisfied KLt _ c I S t2 E2).
  - pose proof (constant_loop_violated KEq _ _ t1 E1 V); subst t1.
    apply constant_loop_collapsed in E2; subst t2.
    exact (constant_loop_collapsed_satisfied KLe _ c I S t3 E3).
  - pose proof (constant_loop_violated KLt _ _ t2 E2 V); subst t2.
    exact (constant_loop_collapsed_satisfied KLe _ c I S t3 E3).
Qed.

Lemma init_collapse_then_satisfied_raises_witness :
  __init__ None (Some 1%nat) [InRing (gen 0)] [Const 0] [Const (-2)]
  <> Ok (collapsed_store 1 1).
Proof.
  apply init_collapse_then_satisfied_raises.
  right. split.
  - exists 0. split; [left; reflexivity | reflexivity].
  - exists (-2). split; [left; reflexivity | reflexivity].
Defined.

(* ================================================================== *)
(** ** Further properties: the projection driver *)
(* ================================================================== *)

Lemma one_step_elimination_errors (s : store) (i : nat) (e : error) :
  one_step_elimination s i = Err e -> e <> ValueError_coordinate.
Proof.
  unfold one_step_elimination.
  destruct (_poly_ring s <=? i)%nat; [intros [= <-]; discriminate|].
  destruct (new_constraints s i) as [[a b] c].
  destruct (__init__ _ _ (map InRing a) (map InRing b) (map InRing c))
    as [bsa|e'] eqn:E; cbn [bind].
  - unfold section. intros H. apply init_errors in H. intuition congruence.
  - intros [= ->]. apply init_errors in E. intuition congruence.
Qed.

Lemma projection_loop_errors (steps : nat) :
  forall (res : store) (ps : list nat) (e : error),
    projection_loop steps res ps = Err e -> e <> ValueError_coordinate.
Proof.
  induction steps as [|steps IH]; intros res ps e; cbn [projection_loop]; [discriminate|].
  destruct ps as [|p ps]; [discriminate|].
  destruct (one_step_elimination res p) as [res'|e'] eqn:E; cbn [bind].
  - apply IH.
  - intros [= ->]. exact (one_step_elimination_errors res p e E).
Qed.

(** X9.  [coordinate_projection] raises "Coordinate not found in the
    polynomial ring" exactly when one of the coordinates is not a generator
    of the ring; the check comes before any elimination. *)
Theorem coordinate_projection_not_found (s : store) (cs : list nat) :
  coordinate_projection s cs = Err ValueError_coordinate
  <-> exists c, In c cs /\ (_poly_ring s <= c)%nat.
Proof.
  unfold coordinate_projection.
  destruct (forallb (fun c => (c <? _poly_ring s)%nat) cs) eqn:F.
  - split.
    + intros H. apply projection_loop_errors in H. congruence.
    + intros (c & Hc & L). rewrite forallb_forall in F.
      specialize (F c Hc). apply Nat.ltb_lt in F. lia.
  - split; [intros _|reflexivity].
    assert (N : ~ forall c, In c cs -> (c <? _poly_ring s)%nat = true).
    { intros A. apply forallb_forall in A. congruence. }
    induction cs as [|c cs IH]; [exfalso; apply N; intros c []|].
    cbn [forallb] in F. destruct (Nat.ltb_spec c (_poly_ring s)) as [L|L].
    + cbn [andb] in F. destruct IH as (c' & Hc' & L'); [exact F| |].
      * intros A. apply forallb_forall in A. congruence.
      * exists c'. split; [right; exact Hc' | exact L'].
    + exists c. split; [left; reflexivity | exact L].
Qed.

Lemma projection_loop_ring (ps : list nat) :
  forall (res r : store),
    linear_store res ->
    projection_loop (length ps) res ps = Ok r ->
    (_poly_ring r + length ps = _poly_ring res)%nat.
Proof.
  remember (length ps) as n eqn:Len. revert ps Len.
  induction n as [|n IH]; intros ps Len res r L.
  - destruct ps; [|discriminate]. cbn. intros [= <-]. lia.
  - destruct ps as [|p ps]; [discriminate|]. cbn [projection_loop].
    destruct (one_step_elimination res p) as [res'|e] eqn:E; cbn [bind]; [|discriminate].
    assert (Hi : (p < _poly_ring res)%nat).
    { unfold one_step_elimination in E.
      destruct (Nat.leb_spec (_poly_ring res) p); [discriminate | assumption]. }
    pose proof (one_step_elimination_linear res res' p L E) as L'.
    rewrite (one_step_elimination_ok res p L Hi) in E. injection E as <-.
    intros H. apply IH in H; [|rewrite length_update_indices; cbn [length] in Len; lia
                             |exact L'].
    cbn [_poly_ring] in H. lia.
Qed.

(** X10.  For distinct targets of the ring, [coordinate_projection] returns
    a store over the remaining generators whose region is the projection of
    the input region: [x] satisfies it exactly when it is the restriction of
    a satisfying assignment [y] to the variables that were not eliminated,
    taken in their order. *)
Theorem coordinate_projection_region (s : store) (cs : list nat) :
  linear_store s -> NoDup cs ->
  (forall c, In c cs -> (c < _poly_ring s)%nat) ->
  exists (r : store) (rho : nat -> nat),
    coordinate_projection s cs = Ok r /\
    (_poly_ring r + length cs = _poly_ring s)%nat /\
    (forall a b, (a < b)%nat -> (rho a < rho b)%nat) /\
    (forall m, (exists k, rho k = m) <-> ~ In m cs) /\
    forall x, sat r x <-> exists y, sat s y /\ forall k, x k == y (rho k).
Proof.
  intros L ND H. destruct (coordinate_projection_ok s cs L ND H) as (r & E).
  exists r, (renaming (length cs) cs). split; [exact E|].
  rewrite (coordinate_projection_loop s cs H) in E.
  split; [exact (projection_loop_ring cs s r L E)|].
  split; [apply renaming_incr|].
  split; [intros m; apply (renaming_image _ cs m eq_refl ND)|].
  intros x. apply (loop_region _ s r cs x L E).
Qed.

Lemma coordinate_projection_region_witness :
  exists (r : store) (rho : nat -> nat),
    coordinate_projection example_store [2%nat; 0%nat] = Ok r /\
    (_poly_ring r + 2 = 3)%nat /\
    (forall a b, (a < b)%nat -> (rho a < rho b)%nat) /\
    (forall m, (exists k, rho k = m) <-> ~ In m [2%nat; 0%nat]) /\
    forall x, sat r x <-> exists y, sat example_store y /\ forall k, x k == y (rho k).
Proof.
  apply (coordinate_projection_region example_store [2%nat; 0%nat]).
  - exact example_store_linear.
  - repeat constructor; cbn; intuition discriminate.
  - cbn. intros c [<-|[<-|[]]]; lia.
Defined.

(** X11.  A target given twice is not detected: the second occurrence
    eliminates the variable that follows it in the ring, as if the targets
    were [x_c] and [x_(c+1)], or raises the elimination error when [x_c] was
    the last variable. *)
Theorem coordinate_projection_repeated_target (s : store) (c : nat) :
  linear_store s -> (c < _poly_ring s)%nat ->
  coordinate_projection s [c; c]
  = if (S c <? _poly_ring s)%nat then coordinate_projection s [c; S c]
    else Err ValueError_elimination.
Proof.
  intros L Hc. unfold coordinate_projection. cbn [forallb length projection_loop].
  destruct (Nat.ltb_spec c (_poly_ring s)) as [_|N]; [|lia]. cbn [andb].
  unfold update_indices. cbn [map]. rewrite Nat.ltb_irrefl.
  destruct (Nat.ltb_spec c (S c)) as [_|N]; [|lia].
  replace (S c - 1)%nat with c by lia.
  destruct (Nat.ltb_spec (S c) (_poly_ring s)) as [Lt|Ge]; [reflexivity|].
  rewrite (one_step_elimination_ok s c L Hc). cbn [bind].
  unfold one_step_elimination at 1. cbn [_poly_ring].
  destruct (Nat.leb_spec (pred (_poly_ring s)) c) as [_|N]; [reflexivity | lia].
Qed.

Lemma coordinate_projection_repeated_target_witness :
  coordinate_projection example_store [2%nat; 2%nat]
  = if (3 <? _poly_ring example_store)%nat
    then coordinate_projection example_store [2%nat; 3%nat]
    else Err ValueError_elimination.
Proof.
  apply (coordinate_projection_repeated_target example_store 2).
  - exact example_store_linear.
  - cbn. lia.
Defined.

(* ================================================================== *)
(** ** Further properties: the variables of the result *)
(* ================================================================== *)

Lemma in_ring_add_term (n : nat) (m : monomial) (c : Q) (p : mpoly) :
  Forall (fun k => (k < n)%nat) m -> in_ring n p -> in_ring n (add_term m c p).
Proof.
  intros Hm. unfold in_ring. induction p as [|[m' c'] p IH]; intros Hp; cbn [add_term].
  - destruct (nonzero c); [constructor; [exact Hm|constructor] | constructor].
  - apply Forall_cons_iff in Hp as [H1 H2]. cbn [fst] in H1.
    destruct (mono_compare m m').
    + destruct (nonzero (c + c')); [constructor; assumption | exact H2].
    + destruct (nonzero c); repeat (constructor; try assumption).
    + constructor; [exact H1 | exact (IH H2)].
Qed.

Lemma in_ring_add (n : nat) (p q : mpoly) :
  in_ring n p -> in_ring n q -> in_ring n (add p q).
Proof.
  intros Hp Hq. unfold add. induction Hp as [|[m c] p Hm _ IH]; cbn [fold_right fst snd].
  - exact Hq.
  - apply in_ring_add_term; assumption.
Qed.

Lemma in_ring_scale (n : nat) (c : Q) (p : mpoly) :
  in_ring n p -> in_ring n (scale c p).
Proof.
  intros Hp. unfold scale. destruct (nonzero c); [|constructor].
  unfold in_ring. apply Forall_map. revert Hp. apply Forall_impl. intros t Ht; exact Ht.
Qed.

Lemma in_ring_sub (n : nat) (p q : mpoly) :
  in_ring n p -> in_ring n q -> in_ring n (sub p q).
Proof. intros Hp Hq. apply in_ring_add; [exact Hp | apply in_ring_scale; exact Hq]. Qed.

Lemma in_ring_gen (n k : nat) : (k < n)%nat -> in_ring n (gen k).
Proof. intros H. repeat constructor. exact H. Qed.

Lemma in_ring_const (n : nat) (c : Q) : in_ring n (const c).
Proof. unfold const. destruct (nonzero c); repeat constructor. Qed.

Lemma in_ring_apply_map (n i : nat) (p : mpoly) :
  (i < n)%nat -> in_ring n p -> in_ring (pred n) (apply_map i p).
Proof.
  intros Hi Hp. induction Hp as [|[m c] p Hm _ IH]; cbn [apply_map]; [constructor|].
  destruct (mentions i m) eqn:M; [exact IH|].
  apply in_ring_add_term; [|exact IH]. cbn [fst] in Hm.
  apply Forall_map. rewrite Forall_forall in *. intros k Hk.
  assert (k <> i).
  { intros ->. unfold mentions in M.
    assert (existsb (Nat.eqb i) m = true)
      by (apply existsb_exists; exists i; split; [exact Hk | apply Nat.eqb_refl]).
    congruence. }
  specialize (Hm k Hk). unfold shift_var. destruct (Nat.ltb_spec i k); lia.
Qed.

Lemma ring_store_parts (s : store) :
  ring_store s <->
  Forall (in_ring (_poly_ring s)) (items (_eq s)) /\
  Forall (in_ring (_poly_ring s)) (items (_lt s)) /\
  Forall (in_ring (_poly_ring s)) (items (_le s)).
Proof. unfold ring_store. rewrite !Forall_app. reflexivity. Qed.

Lemma new_constraints_in_ring (s : store) (i : nat) :
  (i < _poly_ring s)%nat -> ring_store s ->
  Forall (in_ring (_poly_ring s))
         (fst (fst (new_constraints s i)) ++
          snd (fst (new_constraints s i)) ++ snd (new_constraints s i)).
Proof.
  intros Hi H. apply ring_store_parts in H as (He & Hl & Hle).
  assert (Fil : forall f l, Forall (in_ring (_poly_ring s)) l ->
                            Forall (in_ring (_poly_ring s)) (filter f l)).
  { intros f l Hf. rewrite Forall_forall in *. intros p Hp.
    apply filter_In in Hp as [Hp _]. auto. }
  assert (Comb : forall ls us, Forall (in_ring (_poly_ring s)) ls ->
                   Forall (in_ring (_poly_ring s)) us ->
                   Forall (in_ring (_poly_ring s)) (combinations i ls us)).
  { intros ls us Hls Hus. rewrite Forall_forall in *. intros p Hp.
    apply In_combinations in Hp as (l & u & Il & Iu & ->).
    apply in_ring_sub; apply in_ring_scale; auto. }
  unfold new_constraints. destruct (find_sub i (items (_eq s))) as [sb|] eqn:E;
    cbn [fst snd]; rewrite !Forall_app.
  - destruct (find_sub_some i _ sb E) as (e & Ie & _ & ->).
    assert (Hs : in_ring (_poly_ring s) (sub (gen i) (div e (monomial_coefficient e i)))).
    { apply in_ring_sub; [apply in_ring_gen; exact Hi|].
      apply in_ring_scale. rewrite Forall_forall in He. auto. }
    assert (Sub : forall l, Forall (in_ring (_poly_ring s)) l ->
              Forall (in_ring (_poly_ring s))
                (map (substitute i (sub (gen i) (div e (monomial_coefficient e i)))) l)).
    { intros l Hf. apply Forall_map. revert Hf. apply Forall_impl. intros p Hp.
      apply in_ring_add; [exact Hp|]. apply in_ring_scale, in_ring_sub;
        [exact Hs | apply in_ring_gen; exact Hi]. }
    auto.
  - unfold carried, upper, lower. repeat split; auto.
Qed.

Lemma reduced_in_ring (n i : nat) (l : list mpoly) :
  (i < n)%nat -> Forall (in_ring n) l -> Forall (in_ring (pred n)) (reduced i l).
Proof.
  intros Hi H. rewrite Forall_forall in *. intros q Hq.
  apply reduced_in in Hq as (p & Hp & ->). apply in_ring_apply_map; auto.
Qed.

Lemma step_in_ring (s r : store) (i : nat) :
  linear_store s -> ring_store s ->
  one_step_elimination s i = Ok r -> ring_store r.
Proof.
  intros L R E.
  assert (Hi : (i < _poly_ring s)%nat).
  { unfold one_step_elimination in E.
    destruct (Nat.leb_spec (_poly_ring s) i); [discriminate | assumption]. }
  rewrite (one_step_elimination_ok s i L Hi) in E. injection E as <-.
  pose proof (new_constraints_in_ring s i Hi R) as N.
  apply Forall_app in N as (Na & N). apply Forall_app in N as (Nb & Nc).
  apply ring_store_parts. cbn [_poly_ring _eq _lt _le items].
  repeat split; apply reduced_in_ring; assumption.
Qed.

(** X12.  The result of an elimination step mentions only the generators of
    the reduced ring: the eliminated variable is gone, and no variable of a
    larger index is left behind. *)
Theorem one_step_elimination_in_ring (s r : store) (i : nat) :
  linear_store s -> ring_store s ->
  one_step_elimination s i = Ok r -> ring_store r.
Proof. apply step_in_ring. Qed.

Lemma example_store_in_ring : ring_store example_store.
Proof. repeat constructor. Defined.

Lemma one_step_elimination_in_ring_witness :
  ring_store {| _poly_ring := 2; _ambient_dim := 2;
                _eq := PySet [];
                _lt := PySet [const (-1)];
                _le := PySet [sub (gen 0) (gen 1)] |}.
Proof.
  apply (one_step_elimination_in_ring example_store _ 0).
  - exact example_store_linear.
  - exact example_store_in_ring.
  - vm_compute. reflexivity.
Defined.

Lemma projection_loop_in_ring (steps : nat) :
  forall (res r : store) (ps : list nat),
    linear_store res -> ring_store res ->
    projection_loop steps res ps = Ok r -> linear_store r /\ ring_store r.
Proof.
  induction steps as [|steps IH]; intros res r ps L R; cbn [projection_loop].
  - intros [= <-]. auto.
  - destruct ps as [|p ps]; [intros [= <-]; auto|].
    destruct (one_step_elimination res p) as [res'|e] eqn:E; cbn [bind]; [|discriminate].
    apply IH.
    + exact (one_step_elimination_linear res res' p L E).
    + exact (step_in_ring res res' p L R E).
Qed.

(* ================================================================== *)
(** ** Further properties: the polyhedron bridge *)
(* ================================================================== *)

Lemma dot_map_plus (f g : nat -> Q) (l : list nat) (i : nat) (x : assignment) :
  dot (map (fun k => f k + g k) l) i x == dot (map f l) i x + dot (map g l) i x.
Proof.
  revert i. induction l as [|k l IH]; intros i; cbn [map dot]; [ring|].
  rewrite IH. ring.
Qed.

Lemma dot_map_zero (l : list nat) (i : nat) (x : assignment) :
  dot (map (fun _ => 0) l) i x == 0.
Proof.
  revert i. induction l as [|k l IH]; intros i; cbn [map dot]; [reflexivity|].
  rewrite IH. ring.
Qed.

Lemma dot_indicator (c : Q) (j n : nat) (x : assignment) :
  forall a,
    dot (map (fun k => if (k =? j)%nat then c else 0) (seq a n)) a x
    == if ((a <=? j) && (j <? a + n))%nat then c * x j else 0.
Proof.
  induction n as [|n IH]; intros a; cbn [seq map dot].
  - destruct (Nat.leb_spec a j), (Nat.ltb_spec j (a + 0)); cbn [andb];
      try reflexivity; lia.
  - rewrite IH.
    destruct (Nat.eqb_spec a j) as [->|N].
    + destruct (Nat.leb_spec (S j) j); [lia|]. cbn [andb].
      destruct (Nat.leb_spec j j); [|lia].
      destruct (Nat.ltb_spec j (j + S n)); [|lia]. cbn [andb]. ring.
    + destruct (Nat.leb_spec (S a) j), (Nat.ltb_spec j (S a + n)),
        (Nat.leb_spec a j), (Nat.ltb_spec j (a + S n)); cbn [andb]; try ring; lia.
Qed.

Lemma mono_eqb_single (k j : nat) : mono_eqb [k] [j] = (k =? j)%nat.
Proof.
  unfold mono_eqb. cbn [mono_compare].
  destruct (Nat.compare_spec k j) as [->|L|L].
  - rewrite Nat.eqb_refl. reflexivity.
  - destruct (Nat.eqb_spec k j); [lia | reflexivity].
  - destruct (Nat.eqb_spec k j); [lia | reflexivity].
Qed.

(** The row of coefficients of a linear polynomial of the ring determines its
    values. *)
Lemma row_value_coefficient_row (n : nat) (p : mpoly) (x : assignment) :
  (degree p <= 1)%Z -> in_ring n p ->
  row_value (coefficient_row n p) x == eval p x.
Proof.
  unfold coefficient_row, row_value, constant_coefficient.
  induction p as [|[m c] p IH]; intros D R.
  - cbn [coeff eval]. unfold monomial_coefficient. cbn [coeff].
    rewrite dot_map_zero. ring.
  - apply Forall_cons_iff in R as [Rm R]. cbn [fst] in Rm. cbn [degree] in D.
    assert (D' : (degree p <= 1)%Z) by lia. specialize (IH D' R).
    cbn [eval coeff]. rewrite <- IH. clear IH.
    unfold monomial_coefficient at 1. cbn [coeff].
    rewrite (dot_map_plus (fun k => if mono_eqb [k] m then c else 0)
                          (fun k => coeff [k] p)).
    change (map (fun k => coeff [k] p)) with (map (monomial_coefficient p)).
    destruct m as [|j [|j' m]]; cbn [length] in D; [| |lia].
    + unfold mono_eqb at 1. cbn [mono_compare eval_mono].
      rewrite (dot_map_zero (seq 0 n) 0 x). ring.
    + unfold mono_eqb at 1. cbn [mono_compare eval_mono].
      assert (E : map (fun k => if mono_eqb [k] [j] then c else 0) (seq 0 n)
                  = map (fun k => if (k =? j)%nat then c else 0) (seq 0 n)).
      { apply map_ext. intros k. rewrite mono_eqb_single. reflexivity. }
      rewrite E, dot_indicator.
      apply Forall_inv in Rm.
      destruct (Nat.leb_spec 0 j); [|lia].
      destruct (Nat.ltb_spec j (0 + n)); [|lia]. cbn [andb]. ring.
Qed.

Lemma dot_opp (a : list Q) (i : nat) (x : assignment) :
  dot (map Qopp a) i x == - dot a i x.
Proof.
  revert i. induction a as [|c a IH]; intros i; cbn [map dot]; [ring|].
  rewrite IH. ring.
Qed.

Lemma row_value_opp (r : list Q) (x : assignment) :
  row_value (map Qopp r) x == - row_value r x.
Proof.
  destruct r as [|b a]; cbn [map row_value]; [ring|]. rewrite dot_opp. ring.
Qed.

Lemma to_polyhedron_sat (s : store) (ieqs eqns : list (list Q)) (x : assignment) :
  linear_store s -> ring_store s ->
  to_polyhedron s = Polyhedron ieqs eqns ->
  (sat s x <-> in_polyhedron ieqs eqns x).
Proof.
  intros L R. apply linear_store_parts in L as (L1 & _ & L3).
  apply ring_store_parts in R as (R1 & _ & R3).
  unfold to_polyhedron, poly_ring.
  destruct (items (_lt s)) as [|p l] eqn:E; cbn [length Nat.ltb Nat.leb]; [|discriminate].
  intros [= <- <-]. unfold sat, in_polyhedron. rewrite E, !Forall_map.
  rewrite Forall_forall in L1, L3, R1, R3. rewrite !Forall_forall. cbv beta.
  split.
  - intros (A & _ & C). split; intros p Hp.
    + change (0 <= row_value (map Qopp (coefficient_row (_poly_ring s) p)) x).
      rewrite row_value_opp, (row_value_coefficient_row _ p x (L3 p Hp) (R3 p Hp)).
      specialize (C p Hp). lra.
    + rewrite (row_value_coefficient_row _ p x (L1 p Hp) (R1 p Hp)). exact (A p Hp).
  - intros (C & A). repeat split; intros p Hp.
    + rewrite <- (row_value_coefficient_row _ p x (L1 p Hp) (R1 p Hp)). exact (A p Hp).
    + destruct Hp.
    + specialize (C p Hp).
      change (0 <= row_value (map Qopp (coefficient_row (_poly_ring s) p)) x) in C.
      rewrite row_value_opp, (row_value_coefficient_row _ p x (L3 p Hp) (R3 p Hp)) in C.
      lra.
Qed.

(** X13.  [to_polyhedron] raises when the store holds a strict inequality;
    otherwise the inequalities and equations that it passes to [Polyhedron],
    one row per stored constraint, describe the region of the store. *)
Theorem to_polyhedron_region (s : store) :
  linear_store s -> ring_store s ->
  (items (_lt s) <> [] -> to_polyhedron s = ValueError_strict) /\
  (items (_lt s) = [] ->
   exists ieqs eqns,
     to_polyhedron s = Polyhedron ieqs eqns /\
     length ieqs = length (items (_le s)) /\
     length eqns = length (items (_eq s)) /\
     forall x, sat s x <-> in_polyhedron ieqs eqns x).
Proof.
  intros L R. split.
  - intros N. unfold to_polyhedron. destruct (items (_lt s)); [congruence | reflexivity].
  - intros E.
    assert (T : exists ieqs eqns, to_polyhedron s = Polyhedron ieqs eqns /\
                length ieqs = length (items (_le s)) /\
                length eqns = length (items (_eq s))).
    { unfold to_polyhedron. rewrite E. cbn. eexists. eexists.
      split; [reflexivity|]. rewrite !length_map. auto. }
    destruct T as (ieqs & eqns & T & N1 & N2). exists ieqs, eqns.
    split; [exact T|]. split; [exact N1|]. split; [exact N2|].
    intros x. exact (to_polyhedron_sat s ieqs eqns x L R T).
Qed.

Lemma to_polyhedron_region_witness :
  (items (_lt (mkStore 2 2 (PySet [sub (gen 0) (gen 1)]) (PySet []) (PySet [neg (gen 0)])))
     <> [] ->
   to_polyhedron (mkStore 2 2 (PySet [sub (gen 0) (gen 1)]) (PySet []) (PySet [neg (gen 0)]))
   = ValueError_strict) /\
  (items (_lt (mkStore 2 2 (PySet [sub (gen 0) (gen 1)]) (PySet []) (PySet [neg (gen 0)])))
     = [] ->
   exists ieqs eqns,
     to_polyhedron (mkStore 2 2 (PySet [sub (gen 0) (gen 1)]) (PySet []) (PySet [neg (gen 0)]))
     = Polyhedron ieqs eqns /\
     length ieqs = 1%nat /\ length eqns = 1%nat /\
     forall x,
       sat (mkStore 2 2 (PySet [sub (gen 0) (gen 1)]) (PySet []) (PySet [neg (gen 0)])) x
       <-> in_polyhedron ieqs eqns x).
Proof.
  apply (to_polyhedron_region
           (mkStore 2 2 (PySet [sub (gen 0) (gen 1)]) (PySet []) (PySet [neg (gen 0)]))).
  - repeat constructor; vm_compute; discriminate.
  - repeat constructor.
Defined.

Lemma in_ring_linear_form (n : nat) (v : list Q) :
  forall i, (i + length v <= n)%nat -> in_ring n (linear_form i v).
Proof.
  induction v as [|a v IH]; intros i H; cbn [linear_form length] in *.
  - constructor.
  - apply in_ring_add; [apply in_ring_scale, in_ring_gen; lia | apply IH; lia].
Qed.

Lemma add_ge_step (n : nat) (s : store) (v : list Q) (cst : Q) :
  inequality_store n s -> length v = n ->
  exists s',
    add_linear_constraint s v cst op_ge = Ok s' /\ inequality_store n s' /\
    forall x, sat s' x <-> sat s x /\ 0 <= row_value (cst :: v) x.
Proof.
  intros (Hn & Hd & He & Hl & (l & Hle) & L & R) Hv.
  assert (D : (degree (add (linear_form 0 v) (const cst)) <= 1)%Z)
    by apply degree_linear_constraint.
  assert (Hq : (length v =? _ambient_dim s)%nat = true)
    by (apply Nat.eqb_eq; congruence).
  assert (A : add_linear_constraint s v cst op_ge
              = Ok (mkStore (_poly_ring s) (_ambient_dim s) (_eq s) (_lt s)
                      (PySet (set_add Poly.eqb
                                (neg (add (linear_form 0 v) (const cst))) l)))).
  { unfold add_linear_constraint. rewrite Hq. cbn [negb].
    unfold add_polynomial_constraint. cbn [coerce].
    destruct (Z.ltb_spec 1 (degree (add (linear_form 0 v) (const cst)))); [lia|].
    rewrite Hle. reflexivity. }
  eexists. split; [exact A|]. split.
  - repeat split; cbn [_poly_ring _ambient_dim _eq _lt _le]; try assumption; eauto.
    + apply (add_linear_constraint_shrinks s _ v cst op_ge A). exact L.
    + apply ring_store_parts in R as (R1 & R2 & R3).
      apply ring_store_parts. cbn [_poly_ring _eq _lt _le items].
      repeat split; try assumption. rewrite Hle in R3. cbn [items] in R3.
      unfold set_add. destruct (mem Poly.eqb _ l); [exact R3|].
      apply Forall_app. split; [exact R3|]. constructor; [|constructor].
      apply in_ring_scale, in_ring_add; [|apply in_ring_const].
      apply in_ring_linear_form. lia.
  - intros x.
    rewrite (add_polynomial_constraint_sat s _
               (InRing (add (linear_form 0 v) (const cst))) op_ge x).
    + unfold elem_value. cbn [coerce op_holds row_value].
      rewrite eval_add, eval_linear_form, eval_const.
      assert (0 <= dot v 0 x + cst <-> 0 <= cst + dot v 0 x) by (split; lra).
      tauto.
    + unfold add_linear_constraint in A.
      rewrite Hq in A. exact A.
Qed.

Lemma add_inequalities_run (n : nat) (rows : list (Q * list Q)) :
  forall s, inequality_store n s ->
    (Forall (fun r => length (snd r) = n) rows ->
     exists s',
       add_inequalities s rows = Ok s' /\ inequality_store n s' /\
       forall x, sat s' x <->
                 sat s x /\ Forall (fun r => 0 <= row_value (fst r :: snd r) x) rows) /\
    (Exists (fun r => length (snd r) <> n) rows ->
     add_inequalities s rows = Err ValueError_length).
Proof.
  induction rows as [|[b a] rows IH]; intros s I; cbn [add_inequalities fst snd].
  - split.
    + intros _. exists s. split; [reflexivity|]. split; [exact I|].
      intros x. split; [intros H; split; [exact H | constructor] | tauto].
    + intros H. inversion H.
  - split.
    + intros F. apply Forall_cons_iff in F as [Fa F]. cbn [snd] in Fa.
      destruct (add_ge_step n s a b I Fa) as (s1 & -> & I1 & S1). cbn [bind].
      destruct (proj1 (IH s1 I1) F) as (s' & E & I' & S').
      exists s'. split; [exact E|]. split; [exact I'|].
      intros x. rewrite S', S1, Forall_cons_iff. cbn [fst snd]. tauto.
    + intros H. destruct (Nat.eq_dec (length a) n) as [Ea|Na].
      * destruct (add_ge_step n s a b I Ea) as (s1 & -> & I1 & _). cbn [bind].
        apply (IH s1 I1). inversion H as [? ? Bad|? ? Bad]; subst;
          [cbn [snd] in Bad; congruence | exact Bad].
      * unfold add_linear_constraint.
        destruct I as (_ & Hd & _). rewrite Hd.
        destruct (Nat.eqb_spec (length a) n); [congruence | reflexivity].
Qed.

Lemma empty_inequality_store (n : nat) :
  __init__ None (Some n) [] [] [] = Ok (mkStore n n (PySet []) (PySet []) (PySet []))
  /\ inequality_store n (mkStore n n (PySet []) (PySet []) (PySet [])).
Proof.
  split; [reflexivity|]. unfold inequality_store. cbn.
  repeat split; eauto; constructor.
Qed.

Lemma from_polyhedron_run (p : polyhedron) (pr : option nat) :
  (Forall (fun r => length (snd r) = ring_of p pr) (P_inequalities_list p) ->
   exists s,
     from_polyhedron_to_linear_system p pr = Ok s /\
     inequality_store (ring_of p pr) s /\
     forall x, sat s x <-> in_polyhedron (rows_of p) [] x) /\
  (Exists (fun r => length (snd r) <> ring_of p pr) (P_inequalities_list p) ->
   from_polyhedron_to_linear_system p pr = Err ValueError_length).
Proof.
  destruct (empty_inequality_store (ring_of p pr)) as [E I].
  unfold from_polyhedron_to_linear_system. fold (ring_of p pr). rewrite E. cbn [bind].
  destruct (add_inequalities_run _ (P_inequalities_list p) _ I) as [A B].
  split; [|exact B]. intros F. destruct (A F) as (s & Es & Is & S).
  exists s. split; [exact Es|]. split; [exact Is|].
  intros x. rewrite S. unfold in_polyhedron, rows_of, sat. cbn [_eq _lt _le items].
  rewrite Forall_map. split.
  - intros (_ & H). split; [exact H | constructor].
  - intros (H & _). repeat split; try constructor. exact H.
Qed.

(** X14.  When every inequality of the polyhedron has as many coefficients
    as the ring has generators, [from_polyhedron_to_linear_system] returns a
    store over that ring with non-strict inequalities only, whose region is
    the set of points satisfying the inequalities of the polyhedron. *)
Theorem from_polyhedron_region (p : polyhedron) (pr : option nat) :
  Forall (fun r => length (snd r) = ring_of p pr) (P_inequalities_list p) ->
  exists s,
    from_polyhedron_to_linear_system p pr = Ok s /\
    _poly_ring s = ring_of p pr /\
    items (_eq s) = [] /\ items (_lt s) = [] /\
    forall x, sat s x <-> in_polyhedron (rows_of p) [] x.
Proof.
  intros F. destruct (proj1 (from_polyhedron_run p pr) F) as (s & E & I & S).
  destruct I as (Hn & _ & He & Hl & _).
  exists s. rewrite He, Hl. auto.
Qed.

Lemma from_polyhedron_region_witness :
  exists s,
    from_polyhedron_to_linear_system (mkPolyhedron 2 [(1, [-1; 0]); (0, [1; 1])]) None
    = Ok s /\
    _poly_ring s = 2%nat /\ items (_eq s) = [] /\ items (_lt s) = [] /\
    forall x, sat s x <-> in_polyhedron [[1; -1; 0]; [0; 1; 1]] [] x.
Proof.
  apply (from_polyhedron_region (mkPolyhedron 2 [(1, [-1; 0]); (0, [1; 1])]) None).
  repeat constructor.
Defined.

(** X15.  [from_polyhedron_to_linear_system] raises the length error exactly
    when some inequality has a number of coefficients other than the number
    of generators, for instance when the given [poly_ring] does not have
    [p.ambient_dim()] generators. *)
Theorem from_polyhedron_length_error (p : polyhedron) (pr : option nat) :
  from_polyhedron_to_linear_system p pr = Err ValueError_length
  <-> Exists (fun r => length (snd r) <> ring_of p pr) (P_inequalities_list p).
Proof.
  destruct (from_polyhedron_run p pr) as [A B]. split; [|exact B].
  intros H.
  destruct (Forall_Exists_dec (fun r : Q * list Q => length (snd r) = ring_of p pr)
              (fun r => Nat.eq_dec _ _) (P_inequalities_list p)) as [F|X];
    [|exact X].
  destruct (A F) as (s & E & _). congruence.
Qed.

(** X16.  Round trip: for a polyhedron whose inequalities fit the ring, the
    store built by [from_polyhedron_to_linear_system] converts back with
    [to_polyhedron], without equations, to inequalities that describe the
    same set of points. *)
Theorem polyhedron_round_trip (p : polyhedron) (pr : option nat) :
  Forall (fun r => length (snd r) = ring_of p pr) (P_inequalities_list p) ->
  exists s ieqs,
    from_polyhedron_to_linear_system p pr = Ok s /\
    to_polyhedron s = Polyhedron ieqs [] /\
    forall x, in_polyhedron ieqs [] x <-> in_polyhedron (rows_of p) [] x.
Proof.
  intros F. destruct (proj1 (from_polyhedron_run p pr) F) as (s & E & I & S).
  destruct I as (Hn & _ & He & Hl & _ & L & R).
  assert (T : exists ieqs, to_polyhedron s = Polyhedron ieqs []).
  { unfold to_polyhedron. rewrite He, Hl. cbn. eauto. }
  destruct T as (ieqs & T). exists s, ieqs. split; [exact E|]. split; [exact T|].
  intros x. rewrite <- (to_polyhedron_sat s ieqs [] x L R T). apply S.
Qed.

Lemma polyhedron_round_trip_witness :
  exists s ieqs,
    from_polyhedron_to_linear_system (mkPolyhedron 2 [(1, [-1; 0]); (0, [1; 1])]) None
    = Ok s /\
    to_polyhedron s = Polyhedron ieqs [] /\
    forall x, in_polyhedron ieqs [] x <-> in_polyhedron [[1; -1; 0]; [0; 1; 1]] [] x.
Proof.
  apply (polyhedron_round_trip (mkPolyhedron 2 [(1, [-1; 0]); (0, [1; 1])]) None).
  repeat constructor.
Defined.

Lemma combinations_nil_r (i : nat) (ls : list mpoly) : combinations i ls [] = [].
Proof. unfold combinations. induction ls as [|l ls IH]; [reflexivity | exact IH]. Qed.

(** A step on a store without strict inequalities gives one without. *)
Lemma step_strict_free (s r : store) (i : nat) :
  linear_store s -> items (_lt s) = [] ->
  one_step_elimination s i = Ok r -> items (_lt r) = [].
Proof.
  intros L E H.
  assert (Hi : (i < _poly_ring s)%nat).
  { unfold one_step_elimination in H.
    destruct (Nat.leb_spec (_poly_ring s) i); [discriminate | assumption]. }
  rewrite (one_step_elimination_ok s i L Hi) in H. injection H as <-.
  cbn [_lt items]. unfold new_constraints.
  destruct (find_sub i (items (_eq s))); cbn [fst snd]; rewrite E.
  - reflexivity.
  - cbn [carried upper lower filter combinations flat_map app].
    rewrite combinations_nil_r. reflexivity.
Qed.

Lemma projection_loop_strict_free (steps : nat) :
  forall (res r : store) (ps : list nat),
    linear_store res -> items (_lt res) = [] ->
    projection_loop steps res ps = Ok r -> items (_lt r) = [].
Proof.
  induction steps as [|steps IH]; intros res r ps L E; cbn [projection_loop].
  - intros [= <-]. exact E.
  - destruct ps as [|p ps]; [intros [= <-]; exact E|].
    destruct (one_step_elimination res p) as [res'|e] eqn:E1; cbn [bind]; [|discriminate].
    apply IH.
    + exact (one_step_elimination_linear res res' p L E1).
    + exact (step_strict_free res res' p L E E1).
Qed.

(** X17.  Projection, then conversion, as in the second example of the class
    docstring: for a store of the ring without strict inequalities and
    distinct targets, [coordinate_projection] returns a store that
    [to_polyhedron] accepts, and the inequalities and equations passed to
    [Polyhedron] describe the projection of the region onto the variables
    that were not eliminated. *)
Theorem projection_to_polyhedron (s : store) (cs : list nat) :
  linear_store s -> ring_store s -> items (_lt s) = [] ->
  NoDup cs -> (forall c, In c cs -> (c < _poly_ring s)%nat) ->
  exists (r : store) (rho : nat -> nat) (ieqs eqns : list (list Q)),
    coordinate_projection s cs = Ok r /\
    to_polyhedron r = Polyhedron ieqs eqns /\
    (forall a b, (a < b)%nat -> (rho a < rho b)%nat) /\
    (forall m, (exists k, rho k = m) <-> ~ In m cs) /\
    forall x, in_polyhedron ieqs eqns x
              <-> exists y, sat s y /\ forall k, x k == y (rho k).
Proof.
  intros L R E ND H. destruct (coordinate_projection_ok s cs L ND H) as (r & P).
  pose proof P as P'. rewrite (coordinate_projection_loop s cs H) in P'.
  destruct (projection_loop_in_ring _ s r cs L R P') as [Lr Rr].
  pose proof (projection_loop_strict_free _ s r cs L E P') as Er.
  assert (T : exists ieqs eqns, to_polyhedron r = Polyhedron ieqs eqns).
  { unfold to_polyhedron. rewrite Er. cbn. eauto. }
  destruct T as (ieqs & eqns & T).
  exists r, (renaming (length cs) cs), ieqs, eqns.
  split; [exact P|]. split; [exact T|].
  split; [apply renaming_incr|].
  split; [intros m; apply (renaming_image _ cs m eq_refl ND)|].
  intros x. rewrite <- (to_polyhedron_sat r ieqs eqns x Lr Rr T).
  apply (loop_region _ s r cs x L P').
Qed.

Lemma projection_to_polyhedron_witness :
  let s := {| _poly_ring := 3; _ambient_dim := 3; _eq := PySet []; _lt := PySet [];
              _le := PySet [sub (add (gen 0) (gen 1)) (gen 2); neg (gen 0)] |} in
  exists (r : store) (rho : nat -> nat) (ieqs eqns : list (list Q)),
    coordinate_projection s [0%nat] = Ok r /\
    to_polyhedron r = Polyhedron ieqs eqns /\
    (forall a b, (a < b)%nat -> (rho a < rho b)%nat) /\
    (forall m, (exists k, rho k = m) <-> ~ In m [0%nat]) /\
    forall x, in_polyhedron ieqs eqns x
              <-> exists y, sat s y /\ forall k, x k == y (rho k).
Proof.
  intros s. apply (projection_to_polyhedron s [0%nat]).
  - repeat constructor; vm_compute; discriminate.
  - repeat constructor.
  - reflexivity.
  - repeat constructor. intros [].
  - cbn. intros c [<-|[]]. lia.
Defined.
